(** * obsync-pg: the synchronization core

    A shallow embedding of the watcher and its debouncer
    ([internal/watcher]), the state tracker and the sync engine
    ([internal/sync]) together with the remote store operations they call
    ([internal/db]), the sanitizer of identifiers ([internal/config]) and
    the merging of tags and extraction of links ([internal/parser]).

    Conventions.  Instants ([time.Time]) and durations ([time.Duration])
    are integers, a count of nanoseconds; Go's [int] and [int64] are [Z],
    with the wrap-around of [int64] written out where the code multiplies;
    a Go [map] is a [gmap]; a Go [error] is an [option] whose [None] is
    [nil].  A call of an operation reads the clock once: it takes the
    instant [now] as an argument.  Logging and the progress bar are left
    out: they have no effect on the values modelled. *)

From Stdlib Require Import ZArith Ascii String List Bool Lia SpecFloat.
From stdpp Require Import gmap strings list fin_maps.

Open Scope Z_scope.

(** Two's complement wrap-around of [int64] arithmetic. *)
Definition wrap64 (z : Z) : Z := (z + 2 ^ 63) mod 2 ^ 64 - 2 ^ 63.

(* ===================================================================== *)
(** * Package watcher: the debouncer                                      *)
(* ===================================================================== *)

Module watcher.

(** [type EventType int] with its four constants. *)
Inductive EventType := EventCreate | EventModify | EventDelete | EventRename.

#[global] Instance EventType_eq_dec : EqDecision EventType.
Proof. solve_decision. Defined.

(** [FileEvent]: a debounced file event.  The field holding the event type
    is [EventType_], the name [EventType] being taken by the type. *)
Record FileEvent := mkFileEvent {
  Path : string;
  EventType_ : EventType;
  Timestamp : Z
}.

#[global] Instance FileEvent_eq_dec : EqDecision FileEvent.
Proof. solve_decision. Defined.

(** [pendingEvent]: the event and its timer.  The timer created by
    [time.AfterFunc(d.delay, func() { d.emit(path) })] is the instant at
    which that callback is due; [timer.Stop()] followed by a fresh
    [AfterFunc] overwrites it. *)
Record pendingEvent := mkPending {
  event : FileEvent;
  timer : Z
}.

(** [Debouncer].  [output] is what has been sent on the output channel,
    in the order sent, and [stopped] says whether [stopCh] (and with it
    the output channel) is closed.  The mutex is not modelled: every
    operation below is one critical section. *)
Record Debouncer := mkDebouncer {
  delay : Z;
  events : gmap string pendingEvent;
  output : list FileEvent;
  stopped : bool
}.

(** The capacity of the output channel: [make(chan FileEvent, 100)]. *)
Definition outputCapacity : nat := 100.

(** The free slots of the output channel when [unread] of the events sent
    have not been taken by the reader. *)
Definition freeSlots (unread : nat) : nat := (outputCapacity - unread)%nat.

(** How a call ends: it returns, it panics, or it waits for ever. *)
Inductive Outcome :=
  | Returns (d : Debouncer)
  | Panics
  | Blocks.

(** [NewDebouncer]: the delay is [time.Duration(delayMs) * time.Millisecond],
    a product of [int64] nanoseconds. *)
Definition NewDebouncer (delayMs : Z) : Debouncer :=
  {| delay := wrap64 (delayMs * 1000000); events := ∅; output := [];
     stopped := false |}.

(** The coalescing of event types inside [Add] (the [if]/[else if] chain
    on [eventType] and [pending.event.EventType]). *)
Definition coalesce (pendingType eventType : EventType) : EventType :=
  if decide (eventType = EventDelete) then EventDelete
  else if decide (pendingType = EventCreate ∧ eventType = EventModify)
       then pendingType
  else if decide (pendingType ≠ EventDelete) then eventType
  else pendingType.

(** [Debouncer.Add], called at instant [now]. *)
Definition Add (now : Z) (path : string) (eventType : EventType)
    (d : Debouncer) : Debouncer :=
  if stopped d then d
  else
    let ev := {| Path := path; EventType_ := eventType; Timestamp := now |} in
    match events d !! path with
    | Some pending =>
        let ev' := {| Path := Path (event pending);
                      EventType_ := coalesce (EventType_ (event pending)) eventType;
                      Timestamp := Timestamp ev |} in
        {| delay := delay d;
           events := <[path := {| event := ev'; timer := now + delay d |}]> (events d);
           output := output d;
           stopped := stopped d |}
    | None =>
        {| delay := delay d;
           events := <[path := {| event := ev; timer := now + delay d |}]> (events d);
           output := output d;
           stopped := stopped d |}
    end.

(** [Debouncer.emit], run to its end: remove the pending event and send
    it.  Once [stopCh] is closed the [select] is free to take its second
    branch, and the model takes it.  The send waits until the channel has
    room: in the callback of a timer, which has a goroutine of its own,
    that only delays it; [Flush] below sends in the goroutine of its
    caller. *)
Definition emit (path : string) (d : Debouncer) : Debouncer :=
  match events d !! path with
  | Some pending =>
      {| delay := delay d;
         events := delete path (events d);
         output := if stopped d then output d else output d ++ [event pending];
         stopped := stopped d |}
  | None => d
  end.

Definition emitAll (paths : list string) (d : Debouncer) : Debouncer :=
  foldl (fun acc path => emit path acc) d paths.

(** [Debouncer.Flush]: collect the pending paths, stopping their timers,
    then emit each, in the goroutine of the caller.  [room] is the number
    of sends the output channel takes during the call: its free slots and
    the events a reader takes meanwhile.  With more events to send than
    that, the send of one [emit] waits for ever and the call does not
    return. *)
Definition Flush (room : nat) (d : Debouncer) : Outcome :=
  let paths := map fst (map_to_list (events d)) in
  if stopped d then Returns (emitAll paths d)
  else if (length paths <=? room)%nat then Returns (emitAll paths d)
  else Blocks.

(** [Debouncer.Stop]: [close(d.stopCh)] comes first and is not guarded, so
    a second call panics. *)
Definition Stop (d : Debouncer) : Outcome :=
  if stopped d then Panics
  else Returns {| delay := delay d; events := ∅; output := output d;
                  stopped := true |}.

Definition PendingCount (d : Debouncer) : Z := Z.of_nat (size (events d)).

(** The timers whose delay has elapsed at [now], and the run of their
    callbacks.  The order between different paths is the map's. *)
Definition due (now : Z) (d : Debouncer) : list string :=
  map fst (filter (fun kv => timer (snd kv) <= now) (map_to_list (events d))).

Definition fire (now : Z) (d : Debouncer) : Debouncer :=
  emitAll (due now d) d.

(** A notification for [path] arriving at [now]: the callbacks due by then
    have run, then [Add]. *)
Definition submit (path : string) (d : Debouncer) (te : Z * EventType) : Debouncer :=
  Add (fst te) path (snd te) (fire (fst te) d).

Definition run (path : string) (l : list (Z * EventType)) (d : Debouncer) : Debouncer :=
  foldl (submit path) d l.

(** The events settled so far for [path]. *)
Definition settled (path : string) (d : Debouncer) : list FileEvent :=
  filter (fun ev => Path ev = path) (output d).

(** Every notification of [l] arrives before the countdown started by the
    one before it has expired; [deadline] is the expiry of the countdown
    running when [l] starts. *)
Fixpoint quietWindow (dl deadline : Z) (l : list (Z * EventType)) : Prop :=
  match l with
  | [] => True
  | te :: l' => fst te < deadline ∧ quietWindow dl (fst te + dl) l'
  end.

(** The instant of the last notification of [l], [t0] when there is none. *)
Definition lastTime (t0 : Z) (l : list (Z * EventType)) : Z :=
  foldl (fun _ te => fst te) t0 l.

(** Every pending event is filed under its own path. *)
Definition keyed (d : Debouncer) : Prop :=
  ∀ q pe, events d !! q = Some pe → Path (event pe) = q.

(** Every notification of [l] arrives when the countdown started by the
    one before it has expired; [deadline] is the expiry of the countdown
    running when [l] starts. *)
Fixpoint spaced (dl deadline : Z) (l : list (Z * EventType)) : Prop :=
  match l with
  | [] => True
  | te :: l' => deadline <= fst te ∧ spaced dl (fst te + dl) l'
  end.

(** The event [Add] files for a notification of [path]. *)
Definition eventOf (path : string) (te : Z * EventType) : FileEvent :=
  {| Path := path; EventType_ := snd te; Timestamp := fst te |}.

(** What can happen to a debouncer: a call of [Add], the expiry of the
    countdowns at an instant, [Flush], [Stop]. *)
Inductive Step :=
  | StepAdd (now : Z) (path : string) (eventType : EventType)
  | StepFire (now : Z)
  | StepFlush (room : nat)
  | StepStop.

#[global] Instance Step_eq_dec : EqDecision Step.
Proof. solve_decision. Defined.

Definition step (d : Debouncer) (s : Step) : Outcome :=
  match s with
  | StepAdd now path eventType => Returns (Add now path eventType d)
  | StepFire now => Returns (fire now d)
  | StepFlush room => Flush room d
  | StepStop => Stop d
  end.

(** A sequence of steps, as far as each returns. *)
Fixpoint steps (d : Debouncer) (l : list Step) : Outcome :=
  match l with
  | [] => Returns d
  | s :: l' =>
      match step d s with
      | Returns d' => steps d' l'
      | Panics => Panics
      | Blocks => Blocks
      end
  end.

(** ** The watcher *)

(** [strings.Split(s, sep)] and [strings.Join(parts, sep)] for a separator
    of one byte. *)
Fixpoint Split (sep : ascii) (s : string) : list string :=
  match s with
  | EmptyString => [EmptyString]
  | String c s' =>
      if decide (c = sep) then EmptyString :: Split sep s'
      else
        match Split sep s' with
        | part :: parts => String c part :: parts
        | [] => [String c EmptyString]
        end
  end.

Definition Join (parts : list string) (sep : string) : string :=
  String.concat sep parts.

(** [Watcher], without the handle of the notification source and its stop
    channel. *)
Record Watcher := mkWatcher {
  rootPath : string;
  debouncer : Debouncer;
  ignorePatterns : list string;
  includePatterns : list string
}.

Definition NewWatcher (rootPath : string) (debounceMs : Z)
    (ignorePatterns includePatterns : list string) : Watcher :=
  {| rootPath := rootPath; debouncer := NewDebouncer debounceMs;
     ignorePatterns := ignorePatterns; includePatterns := includePatterns |}.

Definition with_debouncer (d : Debouncer) (w : Watcher) : Watcher :=
  {| rootPath := rootPath w; debouncer := d;
     ignorePatterns := ignorePatterns w;
     includePatterns := includePatterns w |}.

(** A notification of the source, as [processEvents] sees it once the
    path is made relative to the root: the path, the operations (the bits
    [Create], [Write], [Remove], [Rename], [Chmod] of [fsnotify.Op], from
    bit 0), and whether [os.Stat] of the path succeeds and finds a
    directory. *)
Record Notification := mkNotification {
  relPath : string;
  Op : Z;
  isDirectory : bool
}.

Definition HasCreate (n : Notification) : bool := Z.testbit (Op n) 0.
Definition HasWrite (n : Notification) : bool := Z.testbit (Op n) 1.
Definition HasRemove (n : Notification) : bool := Z.testbit (Op n) 2.
Definition HasRename (n : Notification) : bool := Z.testbit (Op n) 3.
Definition HasChmod (n : Notification) : bool := Z.testbit (Op n) 4.

Section Filter.
(** [doublestar.Match pattern name], [None] when the pattern is
    malformed. *)
Variable doublestarMatch : string → string → option bool.

(** The inner loop of [Watcher.shouldIgnore]: does the pattern match
    [strings.Join(parts[:i], "/")] for some [i] from [1] to [len(parts)]?
    An error of the match counts as no match. *)
Fixpoint anyPartial (pattern : string) (parts : list string) (i k : nat) : bool :=
  match k with
  | O => false
  | S k' =>
      match doublestarMatch pattern (Join (take i parts) "/") with
      | Some true => true
      | _ => anyPartial pattern parts (S i) k'
      end
  end.

(** [Watcher.shouldIgnore]. *)
Fixpoint shouldIgnore (patterns : list string) (relPath : string) : bool :=
  match patterns with
  | [] => false
  | pattern :: rest =>
      match doublestarMatch pattern relPath with
      | None => shouldIgnore rest relPath
      | Some true => true
      | Some false =>
          let parts := Split "/" relPath in
          if anyPartial pattern parts 1 (length parts) then true
          else shouldIgnore rest relPath
      end
  end.

(** The loop of [Watcher.shouldInclude]. *)
Fixpoint anyInclude (patterns : list string) (relPath : string) : bool :=
  match patterns with
  | [] => false
  | pattern :: rest =>
      match doublestarMatch pattern relPath with
      | Some true => true
      | _ => anyInclude rest relPath
      end
  end.

(** [Watcher.shouldInclude]. *)
Definition shouldInclude (patterns : list string) (relPath : string) : bool :=
  match patterns with
  | [] => true
  | _ => anyInclude patterns relPath
  end.

(** [Watcher.handleEvent] at instant [now]: what it submits to the
    debouncer.  The registration of a new directory with the source is
    not modelled. *)
Definition handleEvent (now : Z) (n : Notification) (w : Watcher) : Watcher :=
  if HasCreate n then
    if isDirectory n then w
    else with_debouncer (Add now (relPath n) EventCreate (debouncer w)) w
  else if HasWrite n then
    if isDirectory n then w
    else with_debouncer (Add now (relPath n) EventModify (debouncer w)) w
  else if HasRemove n then
    with_debouncer (Add now (relPath n) EventDelete (debouncer w)) w
  else if HasRename n then
    with_debouncer (Add now (relPath n) EventDelete (debouncer w)) w
  else w.

(** One turn of the loop of [Watcher.processEvents] on a notification. *)
Definition processEvent (now : Z) (n : Notification) (w : Watcher) : Watcher :=
  if shouldIgnore (ignorePatterns w) (relPath n) then w
  else if negb (shouldInclude (includePatterns w) (relPath n)) then w
  else handleEvent now n w.

(** A notification arriving at [now]: the countdowns due by then have
    expired, then the turn of the loop. *)
Definition deliver (w : Watcher) (tn : Z * Notification) : Watcher :=
  processEvent (fst tn) (snd tn)
    (with_debouncer (fire (fst tn) (debouncer w)) w).

Definition watch (l : list (Z * Notification)) (w : Watcher) : Watcher :=
  foldl deliver w l.

(** What the watcher lets through: the path passes both filters and the
    type is not [EventRename]. *)
Definition cleared (w : Watcher) (ev : FileEvent) : Prop :=
  shouldIgnore (ignorePatterns w) (Path ev) = false ∧
  shouldInclude (includePatterns w) (Path ev) = true ∧
  EventType_ ev ≠ EventRename.

Definition allCleared (w : Watcher) (d : Debouncer) : Prop :=
  (∀ q pe, events d !! q = Some pe → cleared w (event pe)) ∧
  Forall (cleared w) (output d).

End Filter.

(** [Watcher.Stop] and [Watcher.Flush], on the debouncer; [None] when
    the call of the debouncer does not return. *)
Definition StopWatcher (w : Watcher) : option Watcher :=
  match Stop (debouncer w) with
  | Returns d => Some (with_debouncer d w)
  | _ => None
  end.

Definition FlushWatcher (room : nat) (w : Watcher) : option Watcher :=
  match Flush room (debouncer w) with
  | Returns d => Some (with_debouncer d w)
  | _ => None
  end.

End watcher.

(* ===================================================================== *)
(** * Errors                                                              *)
(* ===================================================================== *)

(** The errors that travel through the engine.  [ErrNotExist] (ENOENT) is
    the one [os.IsNotExist] recognises; [ErrNotDir] (ENOTDIR) is what the
    system reports for a path below something that is not a directory;
    [ErrIO] is any other local I/O failure; [Wrap msg e] is
    [fmt.Errorf(msg + ": %w", e)]. *)
Inductive error :=
  | ErrNotExist
  | ErrNotDir
  | ErrIO
  | ErrJSON
  | ErrRemote
  | Wrap (msg : string) (cause : error).

Inductive result (A : Type) :=
  | Ok (a : A)
  | Fail (e : error).
Arguments Ok {A} a.
Arguments Fail {A} e.

Definition IsNotExist (e : error) : bool :=
  match e with ErrNotExist => true | _ => false end.

(* ===================================================================== *)
(** * Package config                                                      *)
(* ===================================================================== *)

Module config.

Record SyncConfig := mkSyncConfig {
  DebounceMs : Z;
  MaxBinarySizeMB : Z;
  BatchSize : Z;
  RetryAttempts : Z;
  RetryDelayMs : Z
}.

(** [Config], without the database connection settings. *)
Record Config := mkConfig {
  VaultPath : string;
  Sync : SyncConfig;
  IgnorePatterns : list string;
  IncludePatterns : list string
}.

(** ** SanitizeIdentifier *)

(** Classes of bytes. *)
Definition isLowerByte (c : ascii) : bool :=
  ((97 <=? nat_of_ascii c) && (nat_of_ascii c <=? 122))%nat.

Definition isDigitByte (c : ascii) : bool :=
  ((48 <=? nat_of_ascii c) && (nat_of_ascii c <=? 57))%nat.

Definition isUnderscore (c : ascii) : bool := bool_decide (c = "_"%char).

(** The class [[a-z0-9_]]. *)
Definition isIdentByte (c : ascii) : bool :=
  isLowerByte c || isDigitByte c || isUnderscore c.

(** [strings.ReplaceAll(s, old, new)] when [old] and [new] are one byte. *)
Fixpoint replaceByte (old new : ascii) (s : string) : string :=
  match s with
  | EmptyString => EmptyString
  | String c s' =>
      String (if bool_decide (c = old) then new else c) (replaceByte old new s')
  end.

(** [regexp.MustCompile(`[^a-z0-9_]`).ReplaceAllString(s, "")]: every
    character outside the class goes, and so does every byte of it, a
    character of more than one byte having no byte of the class. *)
Fixpoint keepIdentBytes (s : string) : string :=
  match s with
  | EmptyString => EmptyString
  | String c s' =>
      if isIdentByte c then String c (keepIdentBytes s') else keepIdentBytes s'
  end.

Definition startsWithUnderscore (s : string) : bool :=
  match s with
  | String c _ => isUnderscore c
  | EmptyString => false
  end.

(** [regexp.MustCompile(`_+`).ReplaceAllString(s, "_")]. *)
Fixpoint collapseUnderscores (s : string) : string :=
  match s with
  | EmptyString => EmptyString
  | String c s' =>
      if isUnderscore c && startsWithUnderscore s' then collapseUnderscores s'
      else String c (collapseUnderscores s')
  end.

(** [strings.TrimLeft(s, "_")], [strings.TrimRight(s, "_")] and
    [strings.Trim(s, "_")]. *)
Fixpoint TrimLeft (s : string) : string :=
  match s with
  | EmptyString => EmptyString
  | String c s' => if isUnderscore c then TrimLeft s' else s
  end.

Fixpoint TrimRight (s : string) : string :=
  match s with
  | EmptyString => EmptyString
  | String c s' =>
      match TrimRight s' with
      | EmptyString => if isUnderscore c then EmptyString else String c EmptyString
      | r => String c r
      end
  end.

Definition Trim (s : string) : string := TrimRight (TrimLeft s).

Section Sanitize.
(** [strings.ToLower]. *)
Variable ToLower : string → string.

Definition SanitizeIdentifier (name : string) : string :=
  let name := ToLower name in
  let name := replaceByte " " "_" name in
  let name := replaceByte "-" "_" name in
  let name := keepIdentBytes name in
  let name := collapseUnderscores name in
  let name := Trim name in
  let name :=
    match name with
    | EmptyString => "vault"
    | String c _ => if isDigitByte c then "vault_" +:+ name else name
    end in
  if (63 <? String.length name)%nat then TrimRight (substring 0 63 name)
  else name.

End Sanitize.

(** After the trimming, before the truncation: the name [SanitizeIdentifier]
    works on. *)
Definition named (ToLower : string → string) (name : string) : string :=
  let trimmed :=
    Trim (collapseUnderscores
            (keepIdentBytes
               (replaceByte "-" "_" (replaceByte " " "_" (ToLower name))))) in
  match trimmed with
  | EmptyString => "vault"
  | String c _ => if isDigitByte c then "vault_" +:+ trimmed else trimmed
  end.

(** ** What a sanitized identifier looks like *)

Fixpoint allBytes (P : ascii → bool) (s : string) : bool :=
  match s with
  | EmptyString => true
  | String c s' => P c && allBytes P s'
  end.

Definition startsWithLower (s : string) : bool :=
  match s with
  | String c _ => isLowerByte c
  | EmptyString => false
  end.

Fixpoint endsWithUnderscore (s : string) : bool :=
  match s with
  | EmptyString => false
  | String c EmptyString => isUnderscore c
  | String _ s' => endsWithUnderscore s'
  end.

Fixpoint noDoubleUnderscore (s : string) : bool :=
  match s with
  | EmptyString => true
  | String c s' =>
      negb (isUnderscore c && startsWithUnderscore s') && noDoubleUnderscore s'
  end.

End config.

(* ===================================================================== *)
(** * Package parser: tags and links                                      *)
(* ===================================================================== *)

Module parser.

(** [link[:idx]] for [idx] the index of the first [#], the whole of
    [link] when it has none. *)
Fixpoint beforeHash (link : string) : string :=
  match link with
  | EmptyString => EmptyString
  | String c rest =>
      if bool_decide (c = "#"%char) then EmptyString
      else String c (beforeHash rest)
  end.

Fixpoint hasHash (s : string) : bool :=
  match s with
  | EmptyString => false
  | String c rest => bool_decide (c = "#"%char) || hasHash rest
  end.

(** What the collecting loops keep: [seen] holds exactly what the slice
    holds, the slice has no repeat and no empty string. *)
Definition collected (acc : gset string * list string) : Prop :=
  (∀ t, t ∈ acc.1 ↔ t ∈ acc.2) ∧ NoDup acc.2 ∧ EmptyString ∉ acc.2.

Section Parser.
(** [strings.ToLower], [strings.TrimSpace], and the first group of every
    match of [wikiLinkRegex] in a text, in the order of the matches. *)
Variables ToLower TrimSpace : string → string.
Variable wikiLinkMatches : string → list string.

(** One turn of the loops that collect without repeats: [acc] is the map
    [seen], as the set of its keys, and the slice built so far. *)
Definition collect (acc : gset string * list string) (item : string)
    : gset string * list string :=
  if bool_decide (item ≠ EmptyString) && negb (bool_decide (item ∈ fst acc))
  then ({[ item ]} ∪ fst acc, snd acc ++ [item])
  else acc.

(** [MergeTags]. *)
Definition MergeTags (frontmatterTags inlineTags : list string) : list string :=
  let acc :=
    foldl (fun acc tag => collect acc (ToLower (TrimSpace tag)))
          (∅, []) frontmatterTags in
  snd (foldl (fun acc tag => collect acc (ToLower (TrimSpace tag)))
             acc inlineTags).

(** [extractWikiLinks]. *)
Definition extractWikiLinks (content : string) : list string :=
  snd (foldl (fun acc m =>
                collect acc (TrimSpace (beforeHash (TrimSpace m))))
             (∅, []) (wikiLinkMatches content)).

End Parser.

End parser.

(* ===================================================================== *)
(** * Package db: the remote store                                        *)
(* ===================================================================== *)

Module db.

(** A value of the front matter, as [yaml.v3] decodes it into an
    [interface{}]: nil, a boolean, an integer, a float, a string, a
    timestamp, a sequence, or a mapping (whose keys need not be
    strings). *)
#[warnings="-register-all"] Inductive Value :=
  | VNil
  | VBool (b : bool)
  | VInt (z : Z)
  | VFloat (f : spec_float)
  | VString (s : string)
  | VTime (t : Z)
  | VSeq (items : list Value)
  | VMap (entries : list (Value * Value)).

(** [VaultNote] and [VaultAttachment], with the columns the engine's
    decisions read and the front matter that [UpsertNote] encodes
    ([Frontmatter map[string]interface{}]).  The other columns filled from
    the parsed note and from [filepath.Base], [filepath.Ext] and
    [http.DetectContentType] are left out. *)
Record VaultNote := mkNote {
  note_Path : string;
  note_RawContent : string;
  note_ContentHash : string;
  note_FileSizeBytes : Z;
  note_Frontmatter : gmap string Value
}.

Record VaultAttachment := mkAttachment {
  att_Path : string;
  att_FileSizeBytes : Z;
  att_ContentHash : string;
  att_Data : string
}.

(** The statements sent over the connection pool. *)
Inductive Call :=
  | CallUpsertNote (note : VaultNote)
  | CallUpsertAttachment (att : VaultAttachment)
  | CallDeleteNote (path : string)
  | CallDeleteAttachment (path : string)
  | CallGetAllNoteHashes
  | CallGetAllAttachmentHashes
  | CallBatchDeleteNotes (paths : list string)
  | CallBatchDeleteAttachments (paths : list string).

(** The store: the two tables keyed by [path] (their primary key of
    conflict), the statements received so far, and the statements that the
    server or the network fails. *)
Record DB := mkDB {
  vault_notes : gmap string VaultNote;
  vault_attachments : gmap string VaultAttachment;
  calls : list Call;
  failing : Call → bool
}.

Definition with_notes (f : gmap string VaultNote → gmap string VaultNote)
    (d : DB) : DB :=
  {| vault_notes := f (vault_notes d);
     vault_attachments := vault_attachments d;
     calls := calls d; failing := failing d |}.

Definition with_attachments
    (f : gmap string VaultAttachment → gmap string VaultAttachment)
    (d : DB) : DB :=
  {| vault_notes := vault_notes d;
     vault_attachments := f (vault_attachments d);
     calls := calls d; failing := failing d |}.

Definition record (c : Call) (d : DB) : DB :=
  {| vault_notes := vault_notes d;
     vault_attachments := vault_attachments d;
     calls := calls d ++ [c]; failing := failing d |}.

(** [db.Pool.Exec]: the statement reaches the store; it either fails, and
    changes nothing, or takes effect. *)
Definition Exec (c : Call) (effect : DB → DB) (d : DB) : DB * option error :=
  if failing d c then (record c d, Some ErrRemote)
  else (effect (record c d), None).

(** [UpsertNote]: [json.Marshal(note.Frontmatter)], whose failure is
    returned before any statement is sent, then
    [INSERT ... ON CONFLICT (path) DO UPDATE].  [jsonMarshal] is
    [json.Marshal] on the front matter, [None] when it fails (a float that
    is not finite, a mapping whose keys are not strings). *)
Definition UpsertNote (jsonMarshal : gmap string Value → option string)
    (note : VaultNote) (d : DB) : DB * option error :=
  match jsonMarshal (note_Frontmatter note) with
  | None => (d, Some (Wrap "failed to marshal frontmatter" ErrJSON))
  | Some _ =>
      Exec (CallUpsertNote note) (with_notes (insert (note_Path note) note)) d
  end.

(** [INSERT ... ON CONFLICT (path) DO UPDATE]. *)

Definition UpsertAttachment (att : VaultAttachment) (d : DB) : DB * option error :=
  Exec (CallUpsertAttachment att) (with_attachments (insert (att_Path att) att)) d.

Definition DeleteNote (path : string) (d : DB) : DB * option error :=
  Exec (CallDeleteNote path) (with_notes (delete path)) d.

Definition DeleteAttachment (path : string) (d : DB) : DB * option error :=
  Exec (CallDeleteAttachment path) (with_attachments (delete path)) d.

(** [SELECT path, content_hash FROM vault_notes]. *)
Definition GetAllNoteHashes (d : DB) : DB * result (gmap string string) :=
  if failing d CallGetAllNoteHashes
  then (record CallGetAllNoteHashes d, Fail ErrRemote)
  else (record CallGetAllNoteHashes d, Ok (note_ContentHash <$> vault_notes d)).

Definition GetAllAttachmentHashes (d : DB) : DB * result (gmap string string) :=
  if failing d CallGetAllAttachmentHashes
  then (record CallGetAllAttachmentHashes d, Fail ErrRemote)
  else (record CallGetAllAttachmentHashes d,
        Ok (att_ContentHash <$> vault_attachments d)).

(** [DELETE FROM t WHERE path = ANY($1)]. *)
Definition deleteAll {V} (paths : list string) (m : gmap string V) : gmap string V :=
  foldr delete m paths.

Definition BatchDeleteNotes (paths : list string) (d : DB) : DB * option error :=
  match paths with
  | [] => (d, None)
  | _ => Exec (CallBatchDeleteNotes paths) (with_notes (deleteAll paths)) d
  end.

Definition BatchDeleteAttachments (paths : list string) (d : DB)
    : DB * option error :=
  match paths with
  | [] => (d, None)
  | _ => Exec (CallBatchDeleteAttachments paths)
              (with_attachments (deleteAll paths)) d
  end.

(** The path an upsert statement is for. *)
Definition upsertPath (c : Call) : option string :=
  match c with
  | CallUpsertNote note => Some (note_Path note)
  | CallUpsertAttachment att => Some (att_Path att)
  | _ => None
  end.

(** Every row sits in the table of its kind, as told by [isNote]. *)
Definition sorted (isNote : string → bool) (d : DB) : Prop :=
  (∀ q note, vault_notes d !! q = Some note → isNote q = true) ∧
  (∀ q att, vault_attachments d !! q = Some att → isNote q = false).

End db.

(* ===================================================================== *)
(** * Package sync: hasher, state tracker, engine                         *)
(* ===================================================================== *)

Module sync.

(** ** The local vault *)

(** What sits at a path of the vault: a directory, a regular file with its
    bytes, its modification time and whether it can be opened for reading,
    or an entry that cannot be examined ([lstat] fails with something else
    than "not exist"). *)
Inductive Node :=
  | Dir
  | File (content : string) (modTime : Z) (readable : bool)
  | Broken.

(** The vault is the list of the entries below its root, in the order
    [filepath.WalkDir] visits them, each with its slash-separated path
    relative to the root.  The engine only reads it. *)
Fixpoint lookupNode (fs : list (string * Node)) (path : string) : option Node :=
  match fs with
  | [] => None
  | (p, n) :: rest => if decide (p = path) then Some n else lookupNode rest path
  end.

Record FileInfo := mkFileInfo {
  IsDir : bool;
  Size : Z;
  ModTime : Z
}.

(** What the system reports for a path that is not in the vault: ENOTDIR
    when a regular file sits where the path needs a directory, the failure
    of the entry that cannot be examined when the path is below one, and
    ENOENT otherwise. *)
Definition above (entry : string * Node) (path : string) : bool :=
  String.prefix (entry.1 +:+ "/") path.

Definition missing (fs : list (string * Node)) (path : string) : error :=
  if existsb (fun entry => match entry.2 with
                           | File _ _ _ => above entry path
                           | _ => false
                           end) fs
  then ErrNotDir
  else if existsb (fun entry => match entry.2 with
                                | Broken => above entry path
                                | _ => false
                                end) fs
  then ErrIO
  else ErrNotExist.

(** [os.Stat] of the path joined to the vault root. *)
Definition Stat (fs : list (string * Node)) (path : string) : result FileInfo :=
  match lookupNode fs path with
  | None => Fail (missing fs path)
  | Some Broken => Fail ErrIO
  | Some Dir => Ok {| IsDir := true; Size := 0; ModTime := 0 |}
  | Some (File content modTime _) =>
      Ok {| IsDir := false; Size := Z.of_nat (String.length content);
            ModTime := modTime |}
  end.

(** [os.ReadFile], and [os.Open] followed by reading to the end. *)
Definition ReadFile (fs : list (string * Node)) (path : string) : result string :=
  match lookupNode fs path with
  | None => Fail (missing fs path)
  | Some (File content _ true) => Ok content
  | Some _ => Fail ErrIO
  end.

(** ** State of the tracker *)

Record FileState := mkFileState {
  Hash : string;
  LastSynced : Z;
  LastModified : Z;
  SizeBytes : Z
}.

Record SyncState := mkSyncState {
  VaultPath : string;
  LastFullSync : option Z;
  Files : gmap string FileState
}.

(** [StateTracker], without its lock. *)
Record StateTracker := mkStateTracker {
  state : SyncState;
  filePath : string;
  dirty : bool
}.

(** ** What the engine takes from outside the repository and from the
    process environment

    - [HashContent]: SHA-256 of the bytes, in hexadecimal;
    - [doublestarMatch pattern name]: [doublestar.Match], [None] when the
      pattern is malformed;
    - [jsonMarshalIndent] and [jsonUnmarshal]: [encoding/json] on
      [SyncState]; decoding yields the three fields, [files] being [None]
      when the document has none ([state.Files == nil]);
    - [frontmatterExtra content]: the [Extra] map of
      [parser.ParseFrontmatter(content)], which rests on [regexp] and
      [yaml.v3] and never fails;
    - [jsonMarshal]: [json.Marshal] on that map, [None] when it fails;
    - [GetStateDir]: [config.GetStateDir()], the directory of the state
      files, [None] when it cannot be created. *)
Class Externals := {
  HashContent : string → string;
  doublestarMatch : string → string → option bool;
  jsonMarshalIndent : SyncState → option string;
  jsonUnmarshal : string → option (string * option Z * option (gmap string FileState));
  frontmatterExtra : string → gmap string db.Value;
  jsonMarshal : gmap string db.Value → option string;
  GetStateDir : option string
}.

Section Engine.
Context `{!Externals}.

(** ** hasher.go *)

Definition HashString (content : string) : string := HashContent content.

Definition HashFile (fs : list (string * Node)) (path : string) : result string :=
  match ReadFile fs path with
  | Ok content => Ok (HashContent content)
  | Fail e => Fail e
  end.

(** ** state.go *)

Definition emptyState (vaultPath : string) : SyncState :=
  {| VaultPath := vaultPath; LastFullSync := None; Files := ∅ |}.

Definition with_state (s : SyncState) (st : StateTracker) : StateTracker :=
  {| state := s; filePath := filePath st; dirty := dirty st |}.

(** [StateTracker.load]; [disk] maps the files of the state directory to
    their content. *)
Definition load (disk : gmap string string) (st : StateTracker)
    : StateTracker * option error :=
  match disk !! filePath st with
  | None => (st, Some ErrNotExist)
  | Some data =>
      match jsonUnmarshal data with
      | None => (st, Some ErrJSON)
      | Some (vaultPath, lastFullSync, files) =>
          (with_state {| VaultPath := vaultPath;
                         LastFullSync := lastFullSync;
                         Files := match files with
                                  | Some m => m
                                  | None => ∅
                                  end |} st, None)
      end
  end.

Definition NewStateTracker (vaultPath : string) (disk : gmap string string)
    : result StateTracker :=
  match GetStateDir with
  | None => Fail (Wrap "failed to create state directory" ErrIO)
  | Some stateDir =>
      let vaultHash := substring 0 12 (HashString vaultPath) in
      let filePath := stateDir +:+ "/" +:+ "state-" +:+ vaultHash +:+ ".json" in
      let st := {| state := emptyState vaultPath; filePath := filePath;
                   dirty := false |} in
      (* the error of load is dropped *)
      let st := fst (load disk st) in
      let st := if decide (VaultPath (state st) ≠ vaultPath)
                then with_state (emptyState vaultPath) st
                else st in
      Ok st
  end.

(** Where a write to a file stops.  [os.WriteFile] opens the file with
    [O_WRONLY|O_CREATE|O_TRUNC] and then writes the bytes: it can fail at
    the opening, leaving the file as it was, or once the file has been
    truncated and [n] of the bytes written; a process killed in the middle
    of the call leaves the disk the same way. *)
Inductive WriteFault :=
  | Completes
  | OpenFails
  | StopsAfter (n : nat).

Definition WriteFile (wf : WriteFault) (name data : string)
    (disk : gmap string string) : gmap string string * option error :=
  match wf with
  | Completes => (<[name := data]> disk, None)
  | OpenFails => (disk, Some ErrIO)
  | StopsAfter n => (<[name := substring 0 n data]> disk, Some ErrIO)
  end.

(** [StateTracker.Save]. *)
Definition Save (wf : WriteFault) (disk : gmap string string) (st : StateTracker)
    : StateTracker * gmap string string * option error :=
  if negb (dirty st) then (st, disk, None)
  else
    match jsonMarshalIndent (state st) with
    | None => (st, disk, Some ErrJSON)
    | Some data =>
        match WriteFile wf (filePath st) data disk with
        | (disk', Some e) => (st, disk', Some e)
        | (disk', None) =>
            ({| state := state st; filePath := filePath st; dirty := false |},
             disk', None)
        end
    end.

Definition GetFileState (path : string) (st : StateTracker) : option FileState :=
  Files (state st) !! path.

Definition SetFileState (path : string) (fst_ : FileState) (st : StateTracker)
    : StateTracker :=
  {| state := {| VaultPath := VaultPath (state st);
                 LastFullSync := LastFullSync (state st);
                 Files := <[path := fst_]> (Files (state st)) |};
     filePath := filePath st;
     dirty := true |}.

Definition RemoveFileState (path : string) (st : StateTracker) : StateTracker :=
  {| state := {| VaultPath := VaultPath (state st);
                 LastFullSync := LastFullSync (state st);
                 Files := delete path (Files (state st)) |};
     filePath := filePath st;
     dirty := true |}.

Definition GetAllPaths (st : StateTracker) : list string :=
  map fst (map_to_list (Files (state st))).

Definition SetLastFullSync (t : Z) (st : StateTracker) : StateTracker :=
  {| state := {| VaultPath := VaultPath (state st);
                 LastFullSync := Some t;
                 Files := Files (state st) |};
     filePath := filePath st;
     dirty := true |}.

Definition GetLastFullSync (st : StateTracker) : option Z :=
  LastFullSync (state st).

Definition NeedsSync (path currentHash : string) (st : StateTracker) : bool :=
  match Files (state st) !! path with
  | None => true
  | Some fstate => bool_decide (Hash fstate ≠ currentHash)
  end.

Definition Clear (st : StateTracker) : StateTracker :=
  {| state := {| VaultPath := VaultPath (state st);
                 LastFullSync := None;
                 Files := ∅ |};
     filePath := filePath st;
     dirty := true |}.

Definition FileCount (st : StateTracker) : Z :=
  Z.of_nat (size (Files (state st))).

(** ** The engine *)

(** [Engine], without the parser (it has no state).  The field holding the
    state tracker is [state_], the name [state] being taken by the
    tracker's own field. *)
Record Engine := mkEngine {
  db : db.DB;
  config : config.Config;
  state_ : StateTracker;
  retryQueue : gmap string Z;
  maxBinarySize : Z
}.

Definition with_db (d : db.DB) (e : Engine) : Engine :=
  {| db := d; config := config e; state_ := state_ e;
     retryQueue := retryQueue e; maxBinarySize := maxBinarySize e |}.

Definition with_tracker (st : StateTracker) (e : Engine) : Engine :=
  {| db := db e; config := config e; state_ := st;
     retryQueue := retryQueue e; maxBinarySize := maxBinarySize e |}.

Definition with_retryQueue (q : gmap string Z) (e : Engine) : Engine :=
  {| db := db e; config := config e; state_ := state_ e;
     retryQueue := q; maxBinarySize := maxBinarySize e |}.

Definition NewEngine (database : db.DB) (cfg : config.Config)
    (disk : gmap string string) : result Engine :=
  match NewStateTracker (config.VaultPath cfg) disk with
  | Fail e => Fail (Wrap "failed to create state tracker" e)
  | Ok st =>
      Ok {| db := database; config := cfg; state_ := st; retryQueue := ∅;
            maxBinarySize :=
              wrap64 (wrap64 (config.MaxBinarySizeMB (config.Sync cfg) * 1024)
                      * 1024) |}
  end.

(** The two loops of [shouldIgnore]: a malformed pattern is passed over,
    the first pattern that matches decides. *)
Fixpoint anyMatch (patterns : list string) (relPath : string) : bool :=
  match patterns with
  | [] => false
  | pattern :: rest =>
      match doublestarMatch pattern relPath with
      | Some true => true
      | _ => anyMatch rest relPath
      end
  end.

Definition shouldIgnore (e : Engine) (relPath : string) : bool :=
  if anyMatch (config.IgnorePatterns (config e)) relPath then true
  else if (0 <? Z.of_nat (length (config.IncludePatterns (config e))))
       then negb (anyMatch (config.IncludePatterns (config e)) relPath)
  else false.

(** [strings.ToLower], on the ASCII letters. *)
Definition lowerAscii (c : ascii) : ascii :=
  let n := nat_of_ascii c in
  if ((65 <=? n) && (n <=? 90))%nat then ascii_of_nat (n + 32) else c.

Fixpoint ToLower (s : string) : string :=
  match s with
  | EmptyString => EmptyString
  | String c s' => String (lowerAscii c) (ToLower s')
  end.

Definition HasSuffix (s suffix : string) : bool :=
  let n := String.length s in
  let m := String.length suffix in
  ((m <=? n)%nat && String.eqb (substring (n - m) m s) suffix).

(** The test [strings.HasSuffix(strings.ToLower(relPath), ".md")] that
    separates notes from attachments. *)
Definition isNote (relPath : string) : bool := HasSuffix (ToLower relPath) ".md".

(** [Engine.syncNote].  [parser.ParseFile] fails only when the file cannot
    be read; a front matter that does not parse is not an error. *)
Definition syncNote (fs : list (string * Node)) (relPath hash : string)
    (size : Z) (e : Engine) : Engine * option error :=
  match ReadFile fs relPath with
  | Fail err => (e, Some (Wrap "failed to parse note" err))
  | Ok content =>
      let note := {| db.note_Path := relPath;
                     db.note_RawContent := content;
                     db.note_ContentHash := hash;
                     db.note_FileSizeBytes := size;
                     db.note_Frontmatter := frontmatterExtra content |} in
      let '(d, err) := db.UpsertNote jsonMarshal note (db e) in
      (with_db d e, err)
  end.

(** [Engine.syncAttachment]. *)
Definition syncAttachment (fs : list (string * Node)) (relPath hash : string)
    (size : Z) (e : Engine) : Engine * option error :=
  if maxBinarySize e <? size then (e, None)
  else
    match ReadFile fs relPath with
    | Fail err => (e, Some (Wrap "failed to read attachment" err))
    | Ok data =>
        let att := {| db.att_Path := relPath;
                      db.att_FileSizeBytes := size;
                      db.att_ContentHash := hash;
                      db.att_Data := data |} in
        let '(d, err) := db.UpsertAttachment att (db e) in
        (with_db d e, err)
    end.

(** [Engine.upsertFile], run at instant [now].  The function goes to the
    file system three times: [os.Stat], then [HashFile], then the read of
    [ParseFile] or of [syncAttachment]; the vault is given as it is at
    each of the three, [atStat], [atHash] and [atRead]. *)
Definition upsertFileDuring (atStat atHash atRead : list (string * Node))
    (now : Z) (relPath : string) (e : Engine) : Engine * option error :=
  match Stat atStat relPath with
  | Fail err =>
      if IsNotExist err then (e, None)
      else (e, Some (Wrap "failed to stat file" err))
  | Ok info =>
      if IsDir info then (e, None)
      else if shouldIgnore e relPath then (e, None)
      else
        match HashFile atHash relPath with
        | Fail err => (e, Some (Wrap "failed to hash file" err))
        | Ok hash =>
            if negb (NeedsSync relPath hash (state_ e)) then (e, None)
            else
              let '(e1, err) :=
                if isNote relPath
                then syncNote atRead relPath hash (Size info) e
                else syncAttachment atRead relPath hash (Size info) e in
              match err with
              | Some er => (e1, Some er)
              | None =>
                  (with_tracker
                     (SetFileState relPath
                        {| Hash := hash; LastSynced := now;
                           LastModified := ModTime info;
                           SizeBytes := Size info |} (state_ e1)) e1,
                   None)
              end
        end
  end.

(** [upsertFile] over a vault that does not change during the call. *)
Definition upsertFile (fs : list (string * Node)) (now : Z) (relPath : string)
    (e : Engine) : Engine * option error :=
  upsertFileDuring fs fs fs now relPath e.

(** [Engine.RemoveFile]. *)
Definition RemoveFile (relPath : string) (e : Engine) : Engine * option error :=
  let '(d, err) :=
    if isNote relPath then db.DeleteNote relPath (db e)
    else db.DeleteAttachment relPath (db e) in
  match err with
  | Some er => (with_db d e, Some er)
  | None =>
      (with_tracker (RemoveFileState relPath (state_ e)) (with_db d e), None)
  end.

(** The statement [RemoveFile] sends for a path. *)
Definition removeCall (p : string) : db.Call :=
  if isNote p then db.CallDeleteNote p else db.CallDeleteAttachment p.

(** [Engine.SyncFile], with the vault as it is at each access of
    [upsertFile], and over a vault that does not change during the
    call. *)
Definition SyncFileDuring (atStat atHash atRead : list (string * Node))
    (now : Z) (relPath : string) (eventType : watcher.EventType) (e : Engine)
    : Engine * option error :=
  match eventType with
  | watcher.EventDelete => RemoveFile relPath e
  | watcher.EventCreate | watcher.EventModify =>
      upsertFileDuring atStat atHash atRead now relPath e
  | _ => (e, None)
  end.

Definition SyncFile (fs : list (string * Node)) (now : Z) (relPath : string)
    (eventType : watcher.EventType) (e : Engine) : Engine * option error :=
  SyncFileDuring fs fs fs now relPath eventType e.

(** ** Full reconciliation *)

(** The callback of [filepath.WalkDir] over the entries below the root.
    [skip] is the directory for which the callback last returned
    [filepath.SkipDir]: the entries under it are not visited. *)
Definition under (skip : option string) (path : string) : bool :=
  match skip with
  | Some dir => String.prefix (dir +:+ "/") path
  | None => false
  end.

Fixpoint walk (e : Engine) (skip : option string) (entries : list (string * Node))
    : list string :=
  match entries with
  | [] => []
  | (relPath, node) :: rest =>
      if under skip relPath then walk e skip rest
      else
        match node with
        | Broken => walk e None rest
        | Dir =>
            if shouldIgnore e relPath then walk e (Some relPath) rest
            else walk e None rest
        | File _ _ _ =>
            if shouldIgnore e relPath then walk e None rest
            else relPath :: walk e None rest
        end
  end.

(** The walk starts at the root, whose relative path is ["."]. *)
Definition localFilesOf (e : Engine) (fs : list (string * Node)) : list string :=
  if shouldIgnore e "." then [] else walk e None fs.

(** The merge of the two inventories: notes first, then attachments over
    them. *)
Definition mergeHashes (dbNoteHashes dbAttachHashes : gmap string string)
    : gmap string string :=
  dbAttachHashes ∪ dbNoteHashes.

(** One turn of the scanning loop: [acc] is [(localHashes, toSync)]. *)
Definition scanStep (fs : list (string * Node)) (dbHashes : gmap string string)
    (acc : gmap string string * list string) (relPath : string)
    : gmap string string * list string :=
  match HashFile fs relPath with
  | Fail _ => acc
  | Ok hash =>
      let localHashes := <[relPath := hash]> (fst acc) in
      match dbHashes !! relPath with
      | Some dbHash =>
          if decide (dbHash ≠ hash) then (localHashes, snd acc ++ [relPath])
          else (localHashes, snd acc)
      | None => (localHashes, snd acc ++ [relPath])
      end
  end.

Definition scan (fs : list (string * Node)) (dbHashes : gmap string string)
    (localFiles : list string) : gmap string string * list string :=
  foldl (scanStep fs dbHashes) (∅, []) localFiles.

(** The paths of the inventory with no local hash, in the order of the
    map. *)
Definition findDeletes (dbHashes localHashes : gmap string string) : list string :=
  filter (fun dbPath => localHashes !! dbPath = None)
         (map fst (map_to_list dbHashes)).

(** One turn of the loop over [toSync]. *)
Definition syncStep (fs : list (string * Node)) (now : Z) (e : Engine)
    (relPath : string) : Engine :=
  match upsertFile fs now relPath e with
  | (e', Some _) => with_retryQueue (<[relPath := 0]> (retryQueue e')) e'
  | (e', None) => e'
  end.

Definition syncAll (fs : list (string * Node)) (now : Z) (toSync : list string)
    (e : Engine) : Engine :=
  foldl (syncStep fs now) e toSync.

(** The deletion block.  The errors of the two batches are only logged,
    and a batch over no path sends nothing ([BatchDeleteNotes] returns at
    once, as the guard [len(notesToDelete) > 0] before it does). *)
Definition deleteRemoved (toDelete : list string) (e : Engine) : Engine :=
  match toDelete with
  | [] => e
  | _ =>
      let notesToDelete := filter (fun p => isNote p = true) toDelete in
      let attachmentsToDelete := filter (fun p => isNote p ≠ true) toDelete in
      let e1 := with_db (fst (db.BatchDeleteNotes notesToDelete (db e))) e in
      let e2 := with_db (fst (db.BatchDeleteAttachments attachmentsToDelete (db e1))) e1 in
      with_tracker (foldl (fun st p => RemoveFileState p st) (state_ e2) toDelete) e2
  end.

(** What [FullReconcile] reports when it completes: the sync set and the
    delete set. *)
Record Report := mkReport {
  synced : list string;
  deleted : list string
}.

(** [Engine.FullReconcile], run at instant [now]; [wf] is the fate of the
    write of the state file at the end. *)
Definition FullReconcile (fs : list (string * Node)) (now : Z) (wf : WriteFault)
    (disk : gmap string string) (e : Engine)
    : Engine * gmap string string * result Report :=
  let localFiles := localFilesOf e fs in
  match db.GetAllNoteHashes (db e) with
  | (d1, Fail err) =>
      (with_db d1 e, disk, Fail (Wrap "failed to get note hashes" err))
  | (d1, Ok dbNoteHashes) =>
      match db.GetAllAttachmentHashes d1 with
      | (d2, Fail err) =>
          (with_db d2 e, disk, Fail (Wrap "failed to get attachment hashes" err))
      | (d2, Ok dbAttachHashes) =>
          let e := with_db d2 e in
          let dbHashes := mergeHashes dbNoteHashes dbAttachHashes in
          let '(localHashes, toSync) := scan fs dbHashes localFiles in
          let toDelete := findDeletes dbHashes localHashes in
          let e := syncAll fs now toSync e in
          let e := deleteRemoved toDelete e in
          let e := with_tracker (SetLastFullSync now (state_ e)) e in
          let '(st, disk', _) := Save wf disk (state_ e) in
          (with_tracker st e, disk',
           Ok {| synced := toSync; deleted := toDelete |})
      end
  end.



Definition SaveState (wf : WriteFault) (disk : gmap string string) (e : Engine)
    : Engine * gmap string string * option error :=
  match Save wf disk (state_ e) with
  | (st, disk', err) => (with_tracker st e, disk', err)
  end.

Definition GetPendingRetries (e : Engine) : Z :=
  Z.of_nat (size (retryQueue e)).

(** ** Vocabulary of the statements about the engine *)

(** The inventory [FullReconcile] reads from the store when the two
    queries succeed. *)
Definition inventory (e : Engine) : gmap string string :=
  mergeHashes (db.note_ContentHash <$> db.vault_notes (db e))
              (db.att_ContentHash <$> db.vault_attachments (db e)).

(** The local hashes, the sync set and the delete set it then computes,
    and the engine as it leaves the delete block. *)
Definition localHashesOf (fs : list (string * Node)) (e : Engine)
    : gmap string string :=
  (scan fs (inventory e) (localFilesOf e fs)).1.

Definition syncSet (fs : list (string * Node)) (e : Engine) : list string :=
  (scan fs (inventory e) (localFilesOf e fs)).2.

Definition deleteSet (fs : list (string * Node)) (e : Engine) : list string :=
  findDeletes (inventory e) (localHashesOf fs e).

Definition queried (e : Engine) : Engine :=
  with_db (db.record db.CallGetAllAttachmentHashes
             (db.record db.CallGetAllNoteHashes (db e))) e.

Definition reconciled (fs : list (string * Node)) (now : Z) (e : Engine) : Engine :=
  deleteRemoved (deleteSet fs e) (syncAll fs now (syncSet fs e) (queried e)).

(** [e'] has the configuration, the size limit and the failing statements
    of [e]. *)
Definition sameSetup (e e' : Engine) : Prop :=
  config e' = config e ∧ maxBinarySize e' = maxBinarySize e ∧
  db.failing (db e') = db.failing (db e).

(** The tracker holds the hash the file at [q] has now. *)
Definition tracked (fs : list (string * Node)) (q : string) (e : Engine) : Prop :=
  ∃ fstate, GetFileState q (state_ e) = Some fstate ∧
            HashFile fs q = Ok (Hash fstate).

(** The store holds [q], in the table of its kind, with the hash the file
    has now. *)
Definition stored (fs : list (string * Node)) (q : string) (e : Engine) : Prop :=
  if isNote q
  then ∃ note, db.vault_notes (db e) !! q = Some note ∧
               HashFile fs q = Ok (db.note_ContentHash note)
  else ∃ att, db.vault_attachments (db e) !! q = Some att ∧
              HashFile fs q = Ok (db.att_ContentHash att).

(** [q] is a readable regular file of the vault that the patterns do not
    exclude. *)
Definition regular (fs : list (string * Node)) (e : Engine) (q : string) : Prop :=
  shouldIgnore e q = false ∧
  ∃ content modTime, lookupNode fs q = Some (File content modTime true).

(** [q] is an attachment above the size limit. *)
Definition oversize (fs : list (string * Node)) (q : string) (e : Engine) : Prop :=
  isNote q = false ∧
  ∃ info, Stat fs q = Ok info ∧ maxBinarySize e < Size info.

(** The front matter of the note at [q] can be encoded; an attachment has
    none. *)
Definition encodable (fs : list (string * Node)) (q : string) : Prop :=
  isNote q = true →
  ∀ content, ReadFile fs q = Ok content →
             is_Some (jsonMarshal (frontmatterExtra content)).

(** [upsertFile] on [q] gets as far as the upsert statement: the file can
    be hashed, the hash is not the tracked one, [q] is not an attachment
    above the size limit, and not a note whose front matter cannot be
    encoded. *)
Definition toUpload (fs : list (string * Node)) (q : string) (e : Engine) : Prop :=
  (∃ hash, HashFile fs q = Ok hash ∧ NeedsSync q hash (state_ e) = true) ∧
  ¬ oversize fs q e ∧
  encodable fs q.


End Engine.

End sync.

(* ===================================================================== *)
(** * Stand-ins and sample data for concrete runs                         *)
(* ===================================================================== *)

Module fixtures.
Import sync.

(** A stand-in for SHA-256: the content behind a tag. *)
Definition hashStub (content : string) : string := "sha256:" +:+ content.

(** A stand-in for [doublestar.Match] on patterns without wildcards. *)
Definition literalMatch (pattern name : string) : option bool :=
  Some (String.eqb pattern name).

Definition trackedNote : FileState :=
  {| Hash := "sha256:alpha"; LastSynced := 5; LastModified := 1; SizeBytes := 5 |}.

(** A stand-in for the JSON codec: the document names the vault, and one
    document, a snapshot taken for another vault, decodes. *)
Definition marshalStub (s : SyncState) : option string :=
  Some ("snapshot of " +:+ VaultPath s +:+ ": "
        +:+ String.concat "," (map fst (map_to_list (Files s)))).

Definition unmarshalStub (data : string)
    : option (string * option Z * option (gmap string FileState)) :=
  if String.eqb data "snapshot of /old/vault: a.md"
  then Some ("/old/vault", Some 7, Some {[ "a.md" := trackedNote ]})
  else None.

(** Stand-ins for the parser of the front matter and for [json.Marshal]:
    one text has a front matter, whose rating is infinite, and a rating
    that is not finite cannot be encoded. *)
Definition extraStub (content : string) : gmap string db.Value :=
  if String.eqb content "rating: .inf"
  then {[ "rating" := db.VFloat (S754_infinity false) ]}
  else ∅.

Definition encodeStub (m : gmap string db.Value) : option string :=
  match m !! "rating" with
  | Some (db.VFloat (S754_infinity _)) | Some (db.VFloat S754_nan) => None
  | _ => Some "{}"
  end.

Definition stubs : Externals :=
  {| HashContent := hashStub;
     doublestarMatch := literalMatch;
     jsonMarshalIndent := marshalStub;
     jsonUnmarshal := unmarshalStub;
     frontmatterExtra := extraStub;
     jsonMarshal := encodeStub;
     GetStateDir := Some "/cfg" |}.

Definition syncDefaults (maxBinarySizeMB : Z) : config.SyncConfig :=
  {| config.DebounceMs := 2000; config.MaxBinarySizeMB := maxBinarySizeMB;
     config.BatchSize := 100; config.RetryAttempts := 3;
     config.RetryDelayMs := 1000 |}.

Definition cfg (maxBinarySizeMB : Z) : config.Config :=
  {| config.VaultPath := "/vault"; config.Sync := syncDefaults maxBinarySizeMB;
     config.IgnorePatterns := [".DS_Store"]; config.IncludePatterns := [] |}.

Definition stateFile : string := "/cfg/state-sha256:/vaul.json".

(** A store with empty tables in which the statements of [failing] fail. *)
Definition emptyDB (failing : db.Call → bool) : db.DB :=
  {| db.vault_notes := ∅; db.vault_attachments := ∅; db.calls := [];
     db.failing := failing |}.

Definition noFailure (c : db.Call) : bool := false.

(** The store refuses the upserts for [b.md]. *)
Definition failsOnB (c : db.Call) : bool :=
  match db.upsertPath c with
  | Some path => String.eqb path "b.md"
  | None => false
  end.

(** The engine [NewEngine] builds for [/vault] when there is no state
    file. *)
Definition engine (database : db.DB) (maxBinarySizeMB : Z) : Engine :=
  {| db := database; config := cfg maxBinarySizeMB;
     state_ := {| state := emptyState "/vault"; filePath := stateFile;
                  dirty := false |};
     retryQueue := ∅;
     maxBinarySize := maxBinarySizeMB * 1024 * 1024 |}.

Definition threeNotes : list (string * Node) :=
  [("a.md", File "alpha" 1 true); ("b.md", File "beta" 2 true);
   ("c.md", File "gamma" 3 true)].

Definition oneAttachment : list (string * Node) :=
  [("big.bin", File "0123456789" 1 true)].

(** A state file left by a snapshot of another vault. *)
Definition foreignDisk : gmap string string :=
  {[ stateFile := "snapshot of /old/vault: a.md" ]}.

(** A tracker with unsaved changes, over the state file of a previous
    save. *)
Definition dirtyTracker : StateTracker :=
  {| state := {| VaultPath := "/vault"; LastFullSync := Some 9;
                 Files := {[ "a.md" := trackedNote ]} |};
     filePath := stateFile; dirty := true |}.

Definition savedDisk : gmap string string :=
  {[ stateFile := "snapshot of /vault: " ]}.

(** An engine whose tracker holds [a.md] with the hash of its content in
    [threeNotes]. *)
Definition trackingEngine : Engine :=
  with_tracker dirtyTracker (engine (emptyDB noFailure) 50).

(** A decoder that reads back what [marshalStub] writes for
    [dirtyTracker], and the stand-ins with it. *)
Definition unmarshalVault (data : string)
    : option (string * option Z * option (gmap string FileState)) :=
  if String.eqb data "snapshot of /vault: a.md"
  then Some ("/vault", Some 9, Some {[ "a.md" := trackedNote ]})
  else None.

Definition readingStubs : Externals :=
  {| HashContent := hashStub;
     doublestarMatch := literalMatch;
     jsonMarshalIndent := marshalStub;
     jsonUnmarshal := unmarshalVault;
     frontmatterExtra := extraStub;
     jsonMarshal := encodeStub;
     GetStateDir := Some "/cfg" |}.

(** The store refuses the query of the note hashes. *)
Definition failsNoteQuery (c : db.Call) : bool :=
  match c with
  | db.CallGetAllNoteHashes => true
  | _ => false
  end.

(** A vault with a settings directory, and an engine told to ignore it. *)
Definition vaultWithSettings : list (string * Node) :=
  [(".obsidian", Dir); (".obsidian/app.json", File "{}" 1 true);
   (".obsidian/plugins", Dir); ("a.md", File "alpha" 1 true)].

Definition settingsEngine : Engine :=
  {| db := emptyDB noFailure;
     config := {| config.VaultPath := "/vault"; config.Sync := syncDefaults 50;
                  config.IgnorePatterns := [".obsidian"];
                  config.IncludePatterns := [] |};
     state_ := {| state := emptyState "/vault"; filePath := stateFile;
                  dirty := false |};
     retryQueue := ∅;
     maxBinarySize := 50 * 1024 * 1024 |}.


(** Stand-ins for the parser: a [TrimSpace] with nothing to trim, and the
    matches a link pattern finds in a text with three links. *)
Definition noTrim (s : string) : string := s.

Definition threeLinks (content : string) : list string :=
  ["Page One#Heading"; "Page One"; "folder/Page Two"].

(** A vault whose only note cannot be opened, and a store that holds it
    from an earlier sync. *)
Definition lockedVault : list (string * Node) :=
  [("locked.md", File "secret" 4 false)].

Definition storeWithLocked : db.DB :=
  {| db.vault_notes :=
       {[ "locked.md" := db.mkNote "locked.md" "secret" "sha256:secret" 6 ∅ ]};
     db.vault_attachments := ∅; db.calls := []; db.failing := noFailure |}.

(** A store that already holds [a.md] as it is in [threeNotes]. *)
Definition storeWithAlpha : db.DB :=
  {| db.vault_notes :=
       {[ "a.md" := db.mkNote "a.md" "alpha" "sha256:alpha" 5 ∅ ]};
     db.vault_attachments := ∅; db.calls := []; db.failing := noFailure |}.

(** A vault with a note whose front matter cannot be encoded, and a vault
    in which a file has taken the place of the directory [notes]. *)
Definition ratedNotes : list (string * Node) :=
  [("a.md", File "alpha" 1 true); ("inf.md", File "rating: .inf" 2 true)].


End fixtures.

(* ===================================================================== *)
(** * The debouncer: coalescing and delete dominance                      *)
(* ===================================================================== *)

Section DebouncerFacts.
Import watcher.

Lemma coalesce_delete ty : coalesce ty EventDelete = EventDelete.
Proof. by destruct ty. Qed.

Lemma coalesce_sticky ty : coalesce EventDelete ty = EventDelete.
Proof. by destruct ty. Qed.

Lemma coalesce_fold_sticky l : foldl coalesce EventDelete l = EventDelete.
Proof. induction l as [|ty l IH]; simpl; [done|]. by rewrite coalesce_sticky. Qed.

Lemma coalesce_fold_delete ty l :
  EventDelete ∈ l → foldl coalesce ty l = EventDelete.
Proof.
  revert ty. induction l as [|ty' l IH]; intros ty Hin.
  - by apply elem_of_nil in Hin.
  - simpl. apply elem_of_cons in Hin as [<-|Hin].
    + rewrite coalesce_delete. apply coalesce_fold_sticky.
    + by apply IH.
Qed.

(** ** One callback *)

Lemma emit_delay q d : delay (emit q d) = delay d.
Proof. unfold emit. by destruct (events d !! q). Qed.

Lemma emit_stopped q d : stopped (emit q d) = stopped d.
Proof. unfold emit. by destruct (events d !! q). Qed.

Lemma emit_events q d : events (emit q d) = delete q (events d).
Proof.
  unfold emit. destruct (events d !! q) eqn:E; simpl; [done|].
  symmetry. by apply delete_id.
Qed.

Lemma emit_keyed q d : keyed d → keyed (emit q d).
Proof.
  intros Hk p pe. rewrite emit_events. intros Hl.
  apply lookup_delete_Some in Hl as [_ Hl]. by apply Hk.
Qed.

Lemma emit_settled_other p q d :
  keyed d → p ≠ q → settled p (emit q d) = settled p d.
Proof.
  intros Hk Hne. unfold emit, settled.
  destruct (events d !! q) as [pe|] eqn:E; simpl; [|done].
  destruct (stopped d); [done|].
  rewrite filter_app. rewrite (filter_cons_False _ (event pe)).
  - by rewrite filter_nil, app_nil_r.
  - rewrite (Hk _ _ E). congruence.
Qed.

Lemma emit_settled_self p pe d :
  events d !! p = Some pe → Path (event pe) = p → stopped d = false →
  settled p (emit p d) = settled p d ++ [event pe].
Proof.
  intros E HP Hs. unfold emit, settled. rewrite E, Hs. simpl.
  rewrite filter_app. by rewrite filter_cons_True.
Qed.

(** ** A batch of callbacks *)

Lemma emitAll_cons q l d : emitAll (q :: l) d = emitAll l (emit q d).
Proof. reflexivity. Qed.

Lemma emitAll_delay l d : delay (emitAll l d) = delay d.
Proof.
  revert d. induction l as [|q l IH]; intros d; [done|].
  rewrite emitAll_cons, IH. apply emit_delay.
Qed.

Lemma emitAll_stopped l d : stopped (emitAll l d) = stopped d.
Proof.
  revert d. induction l as [|q l IH]; intros d; [done|].
  rewrite emitAll_cons, IH. apply emit_stopped.
Qed.

Lemma emitAll_keyed l d : keyed d → keyed (emitAll l d).
Proof.
  revert d. induction l as [|q l IH]; intros d Hk; [done|].
  rewrite emitAll_cons. apply IH. by apply emit_keyed.
Qed.

Lemma emitAll_other p l d :
  keyed d → p ∉ l →
  events (emitAll l d) !! p = events d !! p ∧
  settled p (emitAll l d) = settled p d.
Proof.
  revert d. induction l as [|q l IH]; intros d Hk Hnin; [done|].
  apply not_elem_of_cons in Hnin as [Hne Hnin].
  rewrite emitAll_cons.
  destruct (IH (emit q d) (emit_keyed _ _ Hk) Hnin) as [-> ->].
  split.
  - rewrite emit_events. by apply lookup_delete_ne.
  - by apply emit_settled_other.
Qed.

Lemma emitAll_self p pe l d :
  keyed d → NoDup l → p ∈ l → stopped d = false →
  events d !! p = Some pe →
  events (emitAll l d) !! p = None ∧
  settled p (emitAll l d) = settled p d ++ [event pe].
Proof.
  revert d. induction l as [|q l IH]; intros d Hk Hnd Hin Hs E.
  - by apply elem_of_nil in Hin.
  - apply NoDup_cons in Hnd as [Hq Hnd].
    rewrite emitAll_cons.
    destruct (decide (p = q)) as [<-|Hne].
    + destruct (emitAll_other p l (emit p d) (emit_keyed _ _ Hk) Hq) as [-> ->].
      split.
      * rewrite emit_events. apply lookup_delete_eq.
      * eapply emit_settled_self; eauto.
    + apply elem_of_cons in Hin as [?|Hin]; [done|].
      destruct (IH (emit q d)) as [-> ->]; auto using emit_keyed.
      * by rewrite emit_stopped.
      * rewrite emit_events. by rewrite lookup_delete_ne.
      * split; [done|]. f_equal. by apply emit_settled_other.
Qed.

(** ** Expiry of the countdowns *)

Lemma due_NoDup now d : NoDup (due now d).
Proof.
  unfold due. eapply NoDup_fmap_fst.
  - intros k x y Hx Hy.
    apply list_elem_of_filter in Hx as [_ Hx], Hy as [_ Hy].
    apply elem_of_map_to_list in Hx, Hy. congruence.
  - apply NoDup_filter, NoDup_map_to_list.
Qed.

Lemma elem_of_due now d p :
  p ∈ due now d ↔ ∃ pe, events d !! p = Some pe ∧ timer pe <= now.
Proof.
  unfold due. rewrite list_elem_of_fmap. split.
  - intros [[k pe] [-> Hin]]. apply list_elem_of_filter in Hin as [Ht Hin].
    apply elem_of_map_to_list in Hin. eauto.
  - intros (pe & E & Ht). exists (p, pe). split; [done|].
    apply list_elem_of_filter. split; [done|]. by apply elem_of_map_to_list.
Qed.

Lemma fire_keyed now d : keyed d → keyed (fire now d).
Proof. apply emitAll_keyed. Qed.

Lemma fire_not_due now p d :
  keyed d →
  (∀ pe, events d !! p = Some pe → now < timer pe) →
  events (fire now d) !! p = events d !! p ∧
  settled p (fire now d) = settled p d.
Proof.
  intros Hk Hlate. apply emitAll_other; [done|].
  rewrite elem_of_due. intros (pe & E & Ht). specialize (Hlate _ E). lia.
Qed.

Lemma fire_due now p pe d :
  keyed d → stopped d = false →
  events d !! p = Some pe → timer pe <= now →
  events (fire now d) !! p = None ∧
  settled p (fire now d) = settled p d ++ [event pe].
Proof.
  intros Hk Hs E Ht. apply emitAll_self; auto using due_NoDup.
  apply elem_of_due. eauto.
Qed.

(** ** Notifications *)

Lemma Add_keyed now p ty d : keyed d → keyed (Add now p ty d).
Proof.
  intros Hk q pe. unfold Add. destruct (stopped d); [apply Hk|].
  destruct (events d !! p) as [pd|] eqn:E; simpl;
    (destruct (decide (p = q)) as [<-|Hne];
     [rewrite lookup_insert_eq; intros [= <-]; simpl; eauto
     |rewrite lookup_insert_ne by done; apply Hk]).
Qed.

Lemma Add_settled now p ty d q : settled q (Add now p ty d) = settled q d.
Proof.
  unfold Add, settled. destruct (stopped d); [done|].
  by destruct (events d !! p).
Qed.

Lemma Add_delay now p ty d : delay (Add now p ty d) = delay d.
Proof.
  unfold Add. destruct (stopped d); [done|]. by destruct (events d !! p).
Qed.

Lemma Add_stopped now p ty d : stopped (Add now p ty d) = stopped d.
Proof.
  unfold Add. destruct (stopped d) eqn:Hs; [done|].
  by destruct (events d !! p).
Qed.

Lemma Add_fresh now p ty d :
  stopped d = false → events d !! p = None →
  events (Add now p ty d) !! p =
    Some {| event := {| Path := p; EventType_ := ty; Timestamp := now |};
            timer := now + delay d |}.
Proof. intros Hs E. unfold Add. rewrite Hs, E. simpl. apply lookup_insert_eq. Qed.

Lemma Add_pending now p ty d pe :
  stopped d = false → events d !! p = Some pe →
  events (Add now p ty d) !! p =
    Some {| event := {| Path := Path (event pe);
                        EventType_ := coalesce (EventType_ (event pe)) ty;
                        Timestamp := now |};
            timer := now + delay d |}.
Proof. intros Hs E. unfold Add. rewrite Hs, E. simpl. apply lookup_insert_eq. Qed.

(** A run of notifications inside the quiet window of a pending event
    settles nothing for the path and leaves one pending event, whose type
    is the fold of the coalescing over the types that arrived. *)
Lemma run_pending p l : ∀ d pe,
  keyed d → stopped d = false →
  events d !! p = Some pe →
  quietWindow (delay d) (timer pe) l →
  keyed (run p l d) ∧ stopped (run p l d) = false ∧
  delay (run p l d) = delay d ∧
  settled p (run p l d) = settled p d ∧
  events (run p l d) !! p =
    Some {| event :=
              {| Path := p;
                 EventType_ := foldl coalesce (EventType_ (event pe)) (map snd l);
                 Timestamp := lastTime (Timestamp (event pe)) l |};
            timer := lastTime (timer pe - delay d) l + delay d |}.
Proof.
  induction l as [|[t ty] l IH]; intros d pe Hk Hs E Hq.
  - cbn. split_and!; try done. rewrite E. f_equal.
    pose proof (Hk _ _ E) as HP. destruct pe as [[q k ts] tm]. cbn in *.
    subst q. do 2 f_equal. lia.
  - cbn in Hq. destruct Hq as [Hlt Hq].
    destruct (fire_not_due t p d Hk) as [Ef Sf].
    { intros pe0 E0. rewrite E in E0. injection E0 as <-. lia. }
    pose proof (fire_keyed t d Hk) as Hkf.
    assert (Hsf : stopped (fire t d) = false)
      by (unfold fire; by rewrite emitAll_stopped).
    assert (Hdf : delay (fire t d) = delay d)
      by (unfold fire; by rewrite emitAll_delay).
    rewrite E in Ef.
    pose proof (Add_pending t p ty _ _ Hsf Ef) as Ea.
    change (run p ((t, ty) :: l) d) with (run p l (Add t p ty (fire t d))).
    set (d1 := Add t p ty (fire t d)) in *.
    assert (Hk1 : keyed d1) by by apply Add_keyed.
    assert (Hs1 : stopped d1 = false) by (unfold d1; by rewrite Add_stopped).
    assert (Hd1 : delay d1 = delay d) by (unfold d1; by rewrite Add_delay).
    specialize (IH d1 _ Hk1 Hs1 Ea). cbn [timer event EventType_ Timestamp] in IH.
    rewrite Hd1, Hdf in IH. specialize (IH Hq).
    destruct IH as (Hk' & Hs' & Hd' & Hset & E').
    split_and!; try done.
    + rewrite Hset. unfold d1. by rewrite Add_settled.
    + rewrite E'. by replace (t + delay d - delay d) with t by lia.
Qed.

(** The first notification of a window opens it; the rest coalesce into
    the pending event it created. *)
Lemma run_window p d t0 ty0 rest :
  keyed d → stopped d = false →
  events d !! p = None →
  quietWindow (delay d) (t0 + delay d) rest →
  keyed (run p ((t0, ty0) :: rest) d) ∧
  stopped (run p ((t0, ty0) :: rest) d) = false ∧
  settled p (run p ((t0, ty0) :: rest) d) = settled p d ∧
  events (run p ((t0, ty0) :: rest) d) !! p =
    Some {| event := {| Path := p;
                        EventType_ := foldl coalesce ty0 (map snd rest);
                        Timestamp := lastTime t0 rest |};
            timer := lastTime t0 rest + delay d |}.
Proof.
  intros Hk Hs E Hq.
  destruct (fire_not_due t0 p d Hk) as [Ef Sf].
  { intros pe0 E0. rewrite E in E0. discriminate. }
  pose proof (fire_keyed t0 d Hk) as Hkf.
  assert (Hsf : stopped (fire t0 d) = false)
    by (unfold fire; by rewrite emitAll_stopped).
  assert (Hdf : delay (fire t0 d) = delay d)
    by (unfold fire; by rewrite emitAll_delay).
  rewrite E in Ef.
  pose proof (Add_fresh t0 p ty0 _ Hsf Ef) as Ea.
  change (run p ((t0, ty0) :: rest) d) with (run p rest (Add t0 p ty0 (fire t0 d))).
  set (d1 := Add t0 p ty0 (fire t0 d)) in *.
  assert (Hk1 : keyed d1) by by apply Add_keyed.
  assert (Hs1 : stopped d1 = false) by (unfold d1; by rewrite Add_stopped).
  assert (Hd1 : delay d1 = delay d) by (unfold d1; by rewrite Add_delay).
  destruct (run_pending p rest d1 _ Hk1 Hs1 Ea) as (Hk' & Hs' & Hd' & Hset & E').
  { cbn. by rewrite Hd1, Hdf. }
  cbn [timer event EventType_ Timestamp] in E'.
  split_and!; try done.
  - rewrite Hset. unfold d1. by rewrite Add_settled.
  - rewrite E', Hd1, Hdf. by replace (t0 + delay d - delay d) with t0 by lia.
Qed.

(** What the expiry of the countdowns at [T] settles for a path with one
    pending event. *)
Lemma fire_settles p d pe T :
  keyed d → stopped d = false →
  events d !! p = Some pe →
  settled p (fire T d) =
    settled p d ++ (if decide (timer pe <= T) then [event pe] else []).
Proof.
  intros Hk Hs E. case_decide as Ht.
  - by destruct (fire_due T p pe d Hk Hs E Ht) as [_ ->].
  - destruct (fire_not_due T p d Hk) as [_ ->]; [|by rewrite app_nil_r].
    intros pe0 E0. rewrite E in E0. injection E0 as <-. lia.
Qed.

(** C3.  Delete dominance: whatever notifications for one path arrive in
    one quiet window, if a delete is among them the pending event has type
    delete from then on, nothing is settled for the path during the window,
    and the expiry of the countdown settles exactly one event, of type
    delete, for it. *)
Theorem C3_delete_dominance p d t0 ty0 rest :
  keyed d → stopped d = false →
  events d !! p = None →
  quietWindow (delay d) (t0 + delay d) rest →
  EventDelete ∈ ty0 :: map snd rest →
  (∃ pe, events (run p ((t0, ty0) :: rest) d) !! p = Some pe ∧
         EventType_ (event pe) = EventDelete) ∧
  settled p (run p ((t0, ty0) :: rest) d) = settled p d ∧
  ∀ T, settled p (fire T (run p ((t0, ty0) :: rest) d)) =
       settled p d ++
       (if decide (lastTime t0 rest + delay d <= T)
        then [ {| Path := p; EventType_ := EventDelete;
                  Timestamp := lastTime t0 rest |} ]
        else []).
Proof.
  intros Hk Hs E Hq Hin.
  destruct (run_window p d t0 ty0 rest Hk Hs E Hq) as (Hk' & Hs' & Hset & E').
  assert (Hty : foldl coalesce ty0 (map snd rest) = EventDelete).
  { apply elem_of_cons in Hin as [<-|Hin].
    - apply coalesce_fold_sticky.
    - by apply coalesce_fold_delete. }
  rewrite Hty in E'. split_and!.
  - eexists. split; [exact E'|done].
  - done.
  - intros T. rewrite (fire_settles _ _ _ T Hk' Hs' E'), Hset. done.
Qed.

(** C4.  Coalescing: a pending create or modify followed by a modify keeps
    its type, and create, modify, modify for one path in one quiet window
    leave one pending create, settled exactly once when the countdown of
    the last notification expires. *)
Theorem C4_coalescing p d t1 t2 t3 :
  keyed d → stopped d = false →
  events d !! p = None →
  t2 < t1 + delay d → t3 < t2 + delay d →
  (∀ d0 now pe0, stopped d0 = false → events d0 !! p = Some pe0 →
     EventType_ (event pe0) = EventCreate ∨ EventType_ (event pe0) = EventModify →
     ∃ pe1, events (Add now p EventModify d0) !! p = Some pe1 ∧
            EventType_ (event pe1) = EventType_ (event pe0)) ∧
  events (run p [(t1, EventCreate); (t2, EventModify); (t3, EventModify)] d) !! p =
    Some {| event := {| Path := p; EventType_ := EventCreate; Timestamp := t3 |};
            timer := t3 + delay d |} ∧
  ∀ T, settled p (fire T (run p [(t1, EventCreate); (t2, EventModify);
                                  (t3, EventModify)] d)) =
       settled p d ++
       (if decide (t3 + delay d <= T)
        then [ {| Path := p; EventType_ := EventCreate; Timestamp := t3 |} ]
        else []).
Proof.
  intros Hk Hs E H12 H23.
  destruct (run_window p d t1 EventCreate [(t2, EventModify); (t3, EventModify)]
              Hk Hs E) as (Hk' & Hs' & Hset & E').
  { cbn. lia. }
  cbn in E'. split_and!.
  - intros d0 now pe0 Hs0 E0 Hty.
    rewrite (Add_pending now p EventModify d0 pe0 Hs0 E0). eexists.
    split; [done|]. cbn. by destruct Hty as [-> | ->].
  - exact E'.
  - intros T. rewrite (fire_settles _ _ _ T Hk' Hs' E'), Hset. done.
Qed.

End DebouncerFacts.

(* ===================================================================== *)
(** * The state tracker                                                   *)
(* ===================================================================== *)

Section TrackerFacts.
Context `{!sync.Externals}.
Import sync.

(** The tracker that [NewStateTracker] returns is for the vault asked. *)
Lemma NewStateTracker_root vaultPath disk st :
  NewStateTracker vaultPath disk = Ok st → VaultPath (state st) = vaultPath.
Proof.
  unfold NewStateTracker. destruct GetStateDir as [dir|]; [|done].
  intros [= <-]. by case_decide.
Qed.

(** C7.  A state file whose stored vault path is not the vault's:
    [NewStateTracker] returns a tracker for the vault with no tracked file
    and no date of last full sync. *)
Theorem C7_root_mismatch_resets vaultPath disk stateDir data storedPath lastFull files :
  GetStateDir = Some stateDir →
  disk !! (stateDir +:+ "/" +:+ "state-"
           +:+ substring 0 12 (HashString vaultPath) +:+ ".json") = Some data →
  jsonUnmarshal data = Some (storedPath, lastFull, files) →
  storedPath ≠ vaultPath →
  ∃ st, NewStateTracker vaultPath disk = Ok st ∧
        Files (state st) = ∅ ∧
        VaultPath (state st) = vaultPath ∧
        LastFullSync (state st) = None ∧
        FileCount st = 0.
Proof.
  intros Hdir Hdisk Hjson Hne.
  unfold NewStateTracker, load. rewrite Hdir. cbn. rewrite Hdisk, Hjson. cbn.
  rewrite decide_True by done.
  eexists. split; [done|]. by cbn.
Qed.

(** C2, as the code has it.  [Save] writes the marshalled snapshot over
    the state file itself: when the dirty flag is clear nothing is written;
    when the write completes the file holds the new snapshot and the flag
    is cleared; when the write cannot open the file nothing changes, and
    when it stops after [n] bytes the file holds the first [n] bytes of
    the new snapshot; in both cases the error is returned and the flag
    stays set.  No other file of the directory changes. *)
Theorem C2_save_in_place wf disk st :
  (dirty st = false → Save wf disk st = (st, disk, None)) ∧
  (∀ data, dirty st = true → jsonMarshalIndent (state st) = Some data →
     Save Completes disk st =
       ({| state := state st; filePath := filePath st; dirty := false |},
        <[filePath st := data]> disk, None) ∧
     Save OpenFails disk st = (st, disk, Some ErrIO) ∧
     ∀ n, Save (StopsAfter n) disk st =
            (st, <[filePath st := substring 0 n data]> disk, Some ErrIO)) ∧
  (∀ q, q ≠ filePath st → (Save wf disk st).1.2 !! q = disk !! q).
Proof.
  split_and!.
  - intros Hd. unfold Save. by rewrite Hd.
  - intros data Hd Hm. unfold Save. rewrite Hd, Hm. by cbn.
  - intros q Hq. unfold Save. destruct (dirty st); cbn; [|done].
    destruct (jsonMarshalIndent (state st)) as [data|]; [|done].
    destruct wf; cbn; try done; by rewrite lookup_insert_ne.
Qed.

End TrackerFacts.

(* ===================================================================== *)
(** * The incremental path                                                *)
(* ===================================================================== *)

Section UpsertFacts.
Context `{!sync.Externals}.
Import sync.

Lemma HashFile_Ok fs p h :
  HashFile fs p = Ok h ↔
  ∃ content modTime,
    lookupNode fs p = Some (File content modTime true) ∧ h = HashContent content.
Proof.
  unfold HashFile, ReadFile. split.
  - destruct (lookupNode fs p) as [[|c mt [|]|]|]; intros [= <-]; eauto.
  - intros (c & mt & -> & ->). done.
Qed.

(** What [upsertFile] does on a regular, readable file that is not
    ignored, decision by decision. *)
Lemma upsertFile_file fs now p e content modTime :
  lookupNode fs p = Some (File content modTime true) →
  shouldIgnore e p = false →
  let hash := HashContent content in
  let size := Z.of_nat (String.length content) in
  let fstate := {| Hash := hash; LastSynced := now; LastModified := modTime;
                   SizeBytes := size |} in
  upsertFile fs now p e =
    if negb (NeedsSync p hash (state_ e)) then (e, None)
    else if isNote p then
      let note := db.mkNote p content hash size (frontmatterExtra content) in
      let call := db.CallUpsertNote note in
      match jsonMarshal (frontmatterExtra content) with
      | None => (e, Some (Wrap "failed to marshal frontmatter" ErrJSON))
      | Some _ =>
          if db.failing (db e) call
          then (with_db (db.record call (db e)) e, Some ErrRemote)
          else
            (with_tracker (SetFileState p fstate (state_ e))
               (with_db (db.with_notes (insert p note)
                           (db.record call (db e))) e), None)
      end
    else if maxBinarySize e <? size
    then (with_tracker (SetFileState p fstate (state_ e)) e, None)
    else
      let call := db.CallUpsertAttachment (db.mkAttachment p size hash content) in
      if db.failing (db e) call
      then (with_db (db.record call (db e)) e, Some ErrRemote)
      else
        (with_tracker (SetFileState p fstate (state_ e))
           (with_db (db.with_attachments
                       (insert p (db.mkAttachment p size hash content))
                       (db.record call (db e))) e), None).
Proof.
  intros Hl Hi. cbn zeta.
  unfold upsertFile, upsertFileDuring, Stat, HashFile, ReadFile.
  rewrite Hl. cbn. rewrite Hi.
  destruct (NeedsSync p (HashContent content) (state_ e)); cbn; [|done].
  destruct (isNote p).
  - unfold syncNote, ReadFile. rewrite Hl.
    unfold db.UpsertNote, db.Exec. cbn.
    destruct (jsonMarshal (frontmatterExtra content)); cbn.
    + by destruct (db.failing (db e) _).
    + by destruct e.
  - unfold syncAttachment, ReadFile.
    destruct (maxBinarySize e <? _); [done|]. rewrite Hl.
    unfold db.UpsertAttachment, db.Exec. cbn.
    by destruct (db.failing (db e) _).
Qed.

Lemma NeedsSync_false p h st :
  NeedsSync p h st = false ↔
  ∃ fstate, Files (state st) !! p = Some fstate ∧ Hash fstate = h.
Proof.
  unfold NeedsSync. destruct (Files (state st) !! p) as [f|]; split.
  - intros Hb. apply bool_decide_eq_false in Hb. exists f. split; [done|].
    by destruct (decide (Hash f = h)).
  - intros (f' & [= <-] & Hh). apply bool_decide_eq_false. by intros ?.
  - done.
  - by intros (? & ? & _).
Qed.

(** The hash check of [upsertFile]: a path whose hash is the tracked one
    is left alone. *)
Lemma upsertFile_unchanged fs now p e h fstate :
  HashFile fs p = Ok h →
  GetFileState p (state_ e) = Some fstate →
  Hash fstate = h →
  upsertFile fs now p e = (e, None).
Proof.
  intros Hh Hf Heq.
  apply HashFile_Ok in Hh as (c & mt & Hl & ->).
  destruct (shouldIgnore e p) eqn:Hi.
  - unfold upsertFile, upsertFileDuring, Stat. rewrite Hl. cbn. by rewrite Hi.
  - rewrite (upsertFile_file _ _ _ _ _ _ Hl Hi). cbn zeta.
    assert (NeedsSync p (HashContent c) (state_ e) = false) as ->; [|done].
    apply NeedsSync_false. eauto.
Qed.

(** C6.  Fingerprint gate: when the hash computed for a path is the one
    the state tracker holds for it, [upsertFile], and [SyncFile] on a
    create or a modify, return [nil] and leave the engine as it was: no
    statement is sent to the store, no table and no tracked state
    changes. *)
Theorem C6_fingerprint_gate fs now p e h fstate :
  HashFile fs p = Ok h →
  GetFileState p (state_ e) = Some fstate →
  Hash fstate = h →
  upsertFile fs now p e = (e, None) ∧
  SyncFile fs now p watcher.EventCreate e = (e, None) ∧
  SyncFile fs now p watcher.EventModify e = (e, None) ∧
  db.calls (db (fst (upsertFile fs now p e))) = db.calls (db e).
Proof.
  intros Hh Hf Heq.
  pose proof (upsertFile_unchanged fs now p e h fstate Hh Hf Heq) as Hu.
  unfold SyncFile, SyncFileDuring. fold (upsertFile fs now p e).
  by rewrite Hu.
Qed.


(** C9.  An attachment larger than [maxBinarySize]: [upsertFile] returns
    [nil] without sending anything to the store, the tracker then holds
    the hash of the file (with the time, the modification time and the
    size when the entry is written by this call), and a further
    [upsertFile] on the unchanged file is stopped by the hash check. *)
Theorem C9_oversize_attachment fs now p e content modTime :
  lookupNode fs p = Some (File content modTime true) →
  isNote p = false →
  shouldIgnore e p = false →
  maxBinarySize e < Z.of_nat (String.length content) →
  let e' := fst (upsertFile fs now p e) in
  snd (upsertFile fs now p e) = None ∧
  db e' = db e ∧
  (∃ fstate, GetFileState p (state_ e') = Some fstate ∧
             Hash fstate = HashContent content) ∧
  (NeedsSync p (HashContent content) (state_ e) = true →
   GetFileState p (state_ e') =
     Some {| Hash := HashContent content; LastSynced := now;
             LastModified := modTime;
             SizeBytes := Z.of_nat (String.length content) |}) ∧
  ∀ now', upsertFile fs now' p e' = (e', None).
Proof.
  intros Hl Hn Hi Hbig. cbn zeta.
  assert (Hlt : (maxBinarySize e <? Z.of_nat (String.length content)) = true)
    by by apply Z.ltb_lt.
  rewrite (upsertFile_file _ _ _ _ _ _ Hl Hi). cbn zeta. rewrite Hn, Hlt.
  destruct (NeedsSync p (HashContent content) (state_ e)) eqn:Hneed; cbn.
  - split_and!; try done.
    + eexists. split; [apply lookup_insert_eq|done].
    + intros _. apply lookup_insert_eq.
    + intros now'.
      eapply (upsertFile_unchanged fs now' p _ (HashContent content)).
      * apply HashFile_Ok. eauto.
      * apply lookup_insert_eq.
      * done.
  - apply NeedsSync_false in Hneed as (f & Hf & Hh).
    split_and!; try done.
    + eauto.
    + intros now'. eapply (upsertFile_unchanged fs now' p e); eauto.
      apply HashFile_Ok. eauto.
Qed.

End UpsertFacts.

(* ===================================================================== *)
(** * Full reconciliation                                                 *)
(* ===================================================================== *)

Section ReconcileFacts.
Context `{!sync.Externals}.
Import sync.

(** ** What the walk yields *)

Lemma shouldIgnore_setup e e' p :
  config e' = config e → shouldIgnore e' p = shouldIgnore e p.
Proof. intros Hc. unfold shouldIgnore. by rewrite Hc. Qed.

Lemma walk_setup e e' skip fs :
  config e' = config e → walk e' skip fs = walk e skip fs.
Proof.
  intros Hc. revert skip. induction fs as [|[p n] fs IH]; intros skip; [done|].
  cbn. rewrite !(shouldIgnore_setup e e' p Hc).
  destruct (under skip p); [done|]. destruct n; rewrite ?IH; done.
Qed.

Lemma localFilesOf_setup e e' fs :
  config e' = config e → localFilesOf e' fs = localFilesOf e fs.
Proof.
  intros Hc. unfold localFilesOf.
  by rewrite (shouldIgnore_setup e e' "." Hc), (walk_setup e e' None fs Hc).
Qed.

Lemma walk_not_ignored e skip fs q :
  q ∈ walk e skip fs → shouldIgnore e q = false.
Proof.
  revert skip. induction fs as [|[p n] fs IH]; intros skip; cbn.
  - by intros ?%elem_of_nil.
  - destruct (under skip p); [apply IH|].
    destruct n as [|c mt r|]; [| |apply IH].
    + destruct (shouldIgnore e p); apply IH.
    + destruct (shouldIgnore e p) eqn:Hi; [apply IH|].
      intros [->|Hin]%elem_of_cons; [done|]. by eapply IH.
Qed.

Lemma localFilesOf_not_ignored e fs q :
  q ∈ localFilesOf e fs → shouldIgnore e q = false.
Proof.
  unfold localFilesOf. destruct (shouldIgnore e ".").
  - by intros ?%elem_of_nil.
  - apply walk_not_ignored.
Qed.

(** ** One turn of the loop over the sync set *)

Lemma sameSetup_refl e : sameSetup e e.
Proof. by repeat split. Qed.

Lemma sameSetup_trans e1 e2 e3 :
  sameSetup e1 e2 → sameSetup e2 e3 → sameSetup e1 e3.
Proof.
  intros (? & ? & ?) (? & ? & ?). repeat split; congruence.
Qed.

(** The five ways a turn of the loop can go for a regular, readable file
    that is not ignored: stopped by the hash check; too large an
    attachment, tracked without a statement; the upsert fails; the upsert
    succeeds; the front matter of the note cannot be encoded, and nothing
    is sent. *)
Lemma syncStep_file fs now e q content modTime :
  lookupNode fs q = Some (File content modTime true) →
  shouldIgnore e q = false →
  let hash := HashContent content in
  let size := Z.of_nat (String.length content) in
  let fstate := {| Hash := hash; LastSynced := now; LastModified := modTime;
                   SizeBytes := size |} in
  (NeedsSync q hash (state_ e) = false ∧ syncStep fs now e q = e) ∨
  (NeedsSync q hash (state_ e) = true ∧ isNote q = false ∧
   maxBinarySize e < size ∧
   syncStep fs now e q = with_tracker (SetFileState q fstate (state_ e)) e) ∨
  (∃ call, NeedsSync q hash (state_ e) = true ∧
     (isNote q = true ∨ size <= maxBinarySize e) ∧
     db.upsertPath call = Some q ∧ db.failing (db e) call = true ∧
     syncStep fs now e q =
       with_retryQueue (<[q := 0]> (retryQueue e))
         (with_db (db.record call (db e)) e)) ∨
  (∃ call, NeedsSync q hash (state_ e) = true ∧
     db.upsertPath call = Some q ∧ db.failing (db e) call = false ∧
     ((isNote q = true ∧
       syncStep fs now e q =
         with_tracker (SetFileState q fstate (state_ e))
           (with_db (db.with_notes
                       (insert q (db.mkNote q content hash size
                                    (frontmatterExtra content)))
                       (db.record call (db e))) e)) ∨
      (isNote q = false ∧ size <= maxBinarySize e ∧
       syncStep fs now e q =
         with_tracker (SetFileState q fstate (state_ e))
           (with_db (db.with_attachments
                       (insert q (db.mkAttachment q size hash content))
                       (db.record call (db e))) e)))) ∨
  (NeedsSync q hash (state_ e) = true ∧ isNote q = true ∧
   jsonMarshal (frontmatterExtra content) = None ∧
   syncStep fs now e q = with_retryQueue (<[q := 0]> (retryQueue e)) e).
Proof.
  intros Hl Hi. cbn zeta. unfold syncStep.
  rewrite (upsertFile_file fs now q e content modTime Hl Hi). cbn zeta.
  destruct (NeedsSync q (HashContent content) (state_ e)) eqn:Hneed; cbn;
    [|by left].
  right. destruct (isNote q) eqn:Hn.
  - right. destruct (jsonMarshal (frontmatterExtra content)) eqn:Hm.
    + destruct (db.failing (db e) _) eqn:Hf.
      * left. eexists. split_and!; try done; eauto.
      * right. left. eexists. split_and!; try done; eauto.
    + right. right. done.
  - destruct (maxBinarySize e <? _) eqn:Hbig.
    + left. apply Z.ltb_lt in Hbig. done.
    + apply Z.ltb_ge in Hbig. right. destruct (db.failing (db e) _) eqn:Hf.
      * left. eexists. split_and!; try done; eauto.
      * right. left. eexists. split_and!; try done; eauto.
Qed.

Ltac step_cases Hl Hi :=
  let call := fresh "call" in
  let Hneed := fresh "Hneed" in
  let Hkind := fresh "Hkind" in
  let Hsize := fresh "Hsize" in
  let Hpath := fresh "Hpath" in
  let Hfail := fresh "Hfail" in
  let Hcode := fresh "Hcode" in
  match goal with
  | |- context [syncStep ?fs ?now ?e ?q] =>
      destruct (syncStep_file fs now e q _ _ Hl Hi)
    as [(Hneed & ->)
       |[(Hneed & Hkind & Hsize & ->)
        |[(call & Hneed & Hkind & Hpath & Hfail & ->)
         |[(call & Hneed & Hpath & Hfail &
            [(Hkind & ->)|(Hkind & Hsize & ->)])
          |(Hneed & Hkind & Hcode & ->)]]]]
  end;
  cbn zeta in *.

Lemma syncStep_setup fs now e q content modTime :
  lookupNode fs q = Some (File content modTime true) →
  shouldIgnore e q = false →
  sameSetup e (syncStep fs now e q).
Proof. intros Hl Hi. step_cases Hl Hi; by repeat split. Qed.

(** A turn for [q] leaves every other path as it was. *)
Lemma syncStep_other fs now e q content modTime r :
  lookupNode fs q = Some (File content modTime true) →
  shouldIgnore e q = false →
  r ≠ q →
  GetFileState r (state_ (syncStep fs now e q)) = GetFileState r (state_ e) ∧
  db.vault_notes (db (syncStep fs now e q)) !! r = db.vault_notes (db e) !! r ∧
  db.vault_attachments (db (syncStep fs now e q)) !! r
    = db.vault_attachments (db e) !! r ∧
  retryQueue (syncStep fs now e q) !! r = retryQueue e !! r.
Proof.
  intros Hl Hi Hne. unfold GetFileState.
  step_cases Hl Hi; cbn; rewrite ?lookup_insert_ne by done; done.
Qed.

(** The rows of the store after a turn: the rows before, or the row just
    written for [q], in the table of its kind and with the hash of the
    file. *)
Lemma syncStep_rows fs now e q content modTime r :
  lookupNode fs q = Some (File content modTime true) →
  shouldIgnore e q = false →
  (db.vault_notes (db (syncStep fs now e q)) !! r = db.vault_notes (db e) !! r ∨
   (r = q ∧ isNote q = true ∧
    ∃ note, db.vault_notes (db (syncStep fs now e q)) !! r = Some note ∧
            db.note_ContentHash note = HashContent content)) ∧
  (db.vault_attachments (db (syncStep fs now e q)) !! r
     = db.vault_attachments (db e) !! r ∨
   (r = q ∧ isNote q = false ∧
    ∃ att, db.vault_attachments (db (syncStep fs now e q)) !! r = Some att ∧
           db.att_ContentHash att = HashContent content)).
Proof.
  intros Hl Hi.
  destruct (decide (r = q)) as [->|Hne].
  - step_cases Hl Hi; cbn; split; try (by left);
      right; (split_and!; [done|done|]); eexists;
      (split; [apply lookup_insert_eq|done]).
  - destruct (syncStep_other fs now e q content modTime r Hl Hi Hne)
      as (_ & -> & -> & _). split; by left.
Qed.


Lemma syncStep_tracked fs now e q content modTime r :
  lookupNode fs q = Some (File content modTime true) →
  shouldIgnore e q = false →
  tracked fs r e → tracked fs r (syncStep fs now e q).
Proof.
  intros Hl Hi (f & Hf & Hh).
  destruct (decide (r = q)) as [->|Hne].
  - unfold tracked, GetFileState in *.
    step_cases Hl Hi; cbn; eauto;
      (eexists; split; [apply lookup_insert_eq|]; cbn;
       apply HashFile_Ok; eauto).
  - exists f. split; [|done].
    by destruct (syncStep_other fs now e q content modTime r Hl Hi Hne) as (-> & _).
Qed.

Lemma syncStep_stored fs now e q content modTime r :
  lookupNode fs q = Some (File content modTime true) →
  shouldIgnore e q = false →
  stored fs r e → stored fs r (syncStep fs now e q).
Proof.
  intros Hl Hi Hst.
  assert (Hh : HashFile fs q = Ok (HashContent content))
    by (apply HashFile_Ok; eauto).
  destruct (decide (r = q)) as [->|Hne].
  - unfold stored in *.
    step_cases Hl Hi; cbn; eauto; rewrite Hkind in *; try done;
      (eexists; split; [apply lookup_insert_eq|done]).
  - unfold stored in *.
    destruct (syncStep_other fs now e q content modTime r Hl Hi Hne)
      as (_ & -> & -> & _). done.
Qed.

Lemma ReadFile_Ok fs q content modTime :
  lookupNode fs q = Some (File content modTime true) →
  ReadFile fs q = Ok content.
Proof. intros Hl. unfold ReadFile. by rewrite Hl. Qed.


(** A turn for [q] whose front matter can be encoded and whose upsert the
    store does not fail: the tracker holds the hash of [q] afterwards, the
    retry queue is as before, and the store holds [q] if the turn got as
    far as the upsert. *)
Lemma syncStep_ok fs now e q content modTime :
  lookupNode fs q = Some (File content modTime true) →
  shouldIgnore e q = false →
  encodable fs q →
  (∀ call, db.upsertPath call = Some q → db.failing (db e) call = false) →
  tracked fs q (syncStep fs now e q) ∧
  retryQueue (syncStep fs now e q) = retryQueue e ∧
  (toUpload fs q e → stored fs q (syncStep fs now e q)).
Proof.
  intros Hl Hi Henc Hok.
  assert (Hh : HashFile fs q = Ok (HashContent content))
    by (apply HashFile_Ok; eauto).
  assert (Hst : Stat fs q = Ok {| IsDir := false;
                                  Size := Z.of_nat (String.length content);
                                  ModTime := modTime |})
    by (unfold Stat; by rewrite Hl).
  unfold tracked, stored, toUpload, oversize, GetFileState.
  step_cases Hl Hi; cbn.
  - apply NeedsSync_false in Hneed as (f & Hf & Hhf). split_and!.
    + exists f. by rewrite Hhf.
    + done.
    + intros [(h & Hh' & Hneed') _]. rewrite Hh in Hh'. injection Hh' as <-.
      assert (NeedsSync q (HashContent content) (state_ e) = false)
        by (apply NeedsSync_false; eauto). congruence.
  - split_and!.
    + eexists. split; [apply lookup_insert_eq|done].
    + done.
    + intros (_ & Hno & _). exfalso. apply Hno. split; [done|]. eauto.
  - rewrite (Hok _ Hpath) in Hfail. done.
  - split_and!.
    + eexists. split; [apply lookup_insert_eq|done].
    + done.
    + intros _. rewrite Hkind. eexists. split; [apply lookup_insert_eq|done].
  - split_and!.
    + eexists. split; [apply lookup_insert_eq|done].
    + done.
    + intros _. rewrite Hkind. eexists. split; [apply lookup_insert_eq|done].
  - destruct (Henc Hkind content (ReadFile_Ok fs q content modTime Hl))
      as [js Hjs]. congruence.
Qed.


(** ** The loop over the sync set *)

Lemma regular_setup fs e e' q :
  sameSetup e e' → regular fs e q → regular fs e' q.
Proof.
  intros (Hc & _) [Hi Hl]. split; [|done].
  by rewrite (shouldIgnore_setup e e' q Hc).
Qed.

Lemma NeedsSync_ext r h st st' :
  GetFileState r st' = GetFileState r st →
  NeedsSync r h st' = NeedsSync r h st.
Proof. unfold NeedsSync, GetFileState. by intros ->. Qed.

Lemma toUpload_ext fs r e e' :
  GetFileState r (state_ e') = GetFileState r (state_ e) →
  maxBinarySize e' = maxBinarySize e →
  toUpload fs r e → toUpload fs r e'.
Proof.
  intros Hf Hm ((h & Hh & Hneed) & Hno & Henc). split_and!.
  - exists h. split; [done|]. by rewrite (NeedsSync_ext r h _ _ Hf).
  - intros [Hk (info & Hst & Hlt)]. apply Hno. split; [done|].
    exists info. split; [done|]. by rewrite <- Hm.
  - done.
Qed.

Lemma syncAll_cons fs now q l e :
  syncAll fs now (q :: l) e = syncAll fs now l (syncStep fs now e q).
Proof. reflexivity. Qed.

Ltac sync_induction fs now l e Hreg :=
  revert e Hreg; induction l as [|x l IH]; intros e Hreg;
  [|rewrite syncAll_cons;
    let Hx := fresh "Hx" in
    let Hc := fresh "Hc" in
    let Hl := fresh "Hl" in
    let Hi := fresh "Hi" in
    let Hs := fresh "Hs" in
    let Hreg' := fresh "Hreg'" in
    let c := fresh "c" in
    let mt := fresh "mt" in
    apply Forall_cons in Hreg as [Hx Hreg];
    pose proof Hx as (Hi & c & mt & Hl);
    pose proof (syncStep_setup fs now _ _ _ _ Hl Hi) as Hs;
    assert (Hreg' : Forall (regular fs (syncStep fs now e x)) l)
      by (eapply Forall_impl; [exact Hreg|intros ?; by apply regular_setup])].

Lemma syncAll_setup fs now l e :
  Forall (regular fs e) l → sameSetup e (syncAll fs now l e).
Proof.
  intros Hreg. sync_induction fs now l e Hreg; [apply sameSetup_refl|].
  eapply sameSetup_trans; [exact Hs|]. by apply IH.
Qed.

Lemma syncAll_other fs now l e r :
  Forall (regular fs e) l → r ∉ l →
  GetFileState r (state_ (syncAll fs now l e)) = GetFileState r (state_ e) ∧
  db.vault_notes (db (syncAll fs now l e)) !! r = db.vault_notes (db e) !! r ∧
  db.vault_attachments (db (syncAll fs now l e)) !! r
    = db.vault_attachments (db e) !! r ∧
  retryQueue (syncAll fs now l e) !! r = retryQueue e !! r.
Proof.
  intros Hreg. sync_induction fs now l e Hreg; intros Hnin; [done|].
  apply not_elem_of_cons in Hnin as [Hne Hnin].
  destruct (IH _ Hreg' Hnin) as (-> & -> & -> & ->).
  by apply (syncStep_other fs now e x c mt r).
Qed.

(** The rows of the store after the loop: the rows before, or rows
    written by the loop for paths of the sync set, each in the table of
    its kind and with the hash of its file. *)
Lemma syncAll_rows fs now l e r :
  Forall (regular fs e) l →
  (db.vault_notes (db (syncAll fs now l e)) !! r = db.vault_notes (db e) !! r ∨
   (r ∈ l ∧ isNote r = true ∧
    ∃ note, db.vault_notes (db (syncAll fs now l e)) !! r = Some note ∧
            HashFile fs r = Ok (db.note_ContentHash note))) ∧
  (db.vault_attachments (db (syncAll fs now l e)) !! r
     = db.vault_attachments (db e) !! r ∨
   (r ∈ l ∧ isNote r = false ∧
    ∃ att, db.vault_attachments (db (syncAll fs now l e)) !! r = Some att ∧
           HashFile fs r = Ok (db.att_ContentHash att))).
Proof.
  intros Hreg. sync_induction fs now l e Hreg; [split; by left|].
  assert (Hh : HashFile fs x = Ok (HashContent c))
    by (apply HashFile_Ok; eauto).
  destruct (IH _ Hreg') as [IHn IHa].
  destruct (syncStep_rows fs now e x c mt r Hl Hi) as [Sn Sa].
  split.
  - destruct IHn as [->|(Hin & Hk & n & Hn & Hhn)].
    + destruct Sn as [->|(-> & Hk & n & Hn & Hhn)]; [by left|].
      right. split_and!; [by apply elem_of_cons; left|done|]. exists n. by rewrite Hhn.
    + right. split_and!; [by apply elem_of_cons; right|done|eauto].
  - destruct IHa as [->|(Hin & Hk & a & Ha & Hha)].
    + destruct Sa as [->|(-> & Hk & a & Ha & Hha)]; [by left|].
      right. split_and!; [by apply elem_of_cons; left|done|]. exists a. by rewrite Hha.
    + right. split_and!; [by apply elem_of_cons; right|done|eauto].
Qed.


Lemma syncAll_tracked fs now l e r :
  Forall (regular fs e) l →
  tracked fs r e → tracked fs r (syncAll fs now l e).
Proof.
  intros Hreg. sync_induction fs now l e Hreg; intros Ht; [done|].
  apply IH; [done|]. by eapply syncStep_tracked.
Qed.

Lemma syncAll_stored fs now l e r :
  Forall (regular fs e) l →
  stored fs r e → stored fs r (syncAll fs now l e).
Proof.
  intros Hreg. sync_induction fs now l e Hreg; intros Ht; [done|].
  apply IH; [done|]. by eapply syncStep_stored.
Qed.


(** A path of the sync set whose front matter can be encoded and whose
    upsert the store does not fail is tracked after the loop, and stored
    if its turn got as far as the upsert. *)
Lemma syncAll_ok fs now l e r :
  Forall (regular fs e) l →
  r ∈ l →
  encodable fs r →
  (∀ call, db.upsertPath call = Some r → db.failing (db e) call = false) →
  tracked fs r (syncAll fs now l e) ∧
  (toUpload fs r e → stored fs r (syncAll fs now l e)).
Proof.
  intros Hreg. sync_induction fs now l e Hreg; intros Hin Henc Hok.
  - by apply elem_of_nil in Hin.
  - assert (Hok' : ∀ call, db.upsertPath call = Some r →
                     db.failing (db (syncStep fs now e x)) call = false).
    { destruct Hs as (_ & _ & ->). done. }
    destruct (decide (r = x)) as [->|Hne].
    + destruct (syncStep_ok fs now e x c mt Hl Hi Henc Hok) as (Ht & _ & Hst).
      split.
      * by apply syncAll_tracked.
      * intros Hup. apply syncAll_stored; auto.
    + apply elem_of_cons in Hin as [?|Hin]; [done|].
      destruct (IH _ Hreg' Hin Henc Hok') as [Ht Hst]. split; [done|].
      intros Hup. apply Hst.
      destruct (syncStep_other fs now e x c mt r Hl Hi Hne) as (Hf & _).
      destruct Hs as (_ & Hm & _). by apply (toUpload_ext fs r e).
Qed.







(** ** The scan and the delete set *)

Lemma scan_snoc fs dbHashes l x :
  scan fs dbHashes (l ++ [x]) = scanStep fs dbHashes (scan fs dbHashes l) x.
Proof. unfold scan. by rewrite foldl_app. Qed.

(** The local hashes are those of the walked files that can be hashed. *)
Lemma scan_hashes fs dbHashes l q h :
  (scan fs dbHashes l).1 !! q = Some h ↔ q ∈ l ∧ HashFile fs q = Ok h.
Proof.
  induction l as [|x l IH] using rev_ind.
  - cbn. rewrite lookup_empty. split; [done|]. by intros [?%elem_of_nil _].
  - rewrite scan_snoc. unfold scanStep. rewrite elem_of_app, list_elem_of_singleton.
    destruct (HashFile fs x) as [hx|err] eqn:Hx.
    + assert (Hfst : ∀ acc : gmap string string * list string,
                (match dbHashes !! x with
                 | Some dbHash =>
                     if decide (dbHash ≠ hx)
                     then (<[x:=hx]> acc.1, acc.2 ++ [x])
                     else (<[x:=hx]> acc.1, acc.2)
                 | None => (<[x:=hx]> acc.1, acc.2 ++ [x])
                 end).1 = <[x:=hx]> acc.1).
      { intros acc. destruct (dbHashes !! x); [case_decide|]; done. }
      rewrite Hfst. destruct (decide (q = x)) as [->|Hne].
      * rewrite lookup_insert_eq. split.
        -- intros [= <-]. auto.
        -- intros [_ Hq]. congruence.
      * rewrite lookup_insert_ne by done. rewrite IH. intuition congruence.
    + rewrite IH. split; [intuition|].
      intros [[?| ->] Hq]; [done|congruence].
Qed.

(** The sync set: the walked files that can be hashed and whose hash is
    not the one of the inventory. *)
Lemma scan_toSync fs dbHashes l q :
  q ∈ (scan fs dbHashes l).2 ↔
  q ∈ l ∧ ∃ h, HashFile fs q = Ok h ∧ dbHashes !! q ≠ Some h.
Proof.
  induction l as [|x l IH] using rev_ind.
  - cbn. split; [by intros ?%elem_of_nil|]. by intros [?%elem_of_nil _].
  - rewrite scan_snoc. unfold scanStep. rewrite elem_of_app, list_elem_of_singleton.
    destruct (HashFile fs x) as [hx|err] eqn:Hx.
    + destruct (dbHashes !! x) as [dbHash|] eqn:Hdb; [case_decide as Hd|]; cbn.
      * rewrite elem_of_app, list_elem_of_singleton, IH. split.
        -- intros [[? ?]| ->]; [auto|]. split; [auto|]. exists hx.
           split; [done|]. rewrite Hdb. congruence.
        -- intros [[?| ->] ?]; auto.
      * rewrite IH. split; [intuition|].
        intros [[?| ->] (h & Hh & Hne)]; [split; eauto|].
        exfalso. apply Hne. rewrite Hdb. congruence.
      * rewrite elem_of_app, list_elem_of_singleton, IH. split.
        -- intros [[? ?]| ->]; [auto|]. split; [auto|]. exists hx.
           split; [done|]. by rewrite Hdb.
        -- intros [[?| ->] ?]; auto.
    + rewrite IH. split; [intuition|].
      intros [[?| ->] (h & Hh & Hne)]; [split; eauto|congruence].
Qed.

Lemma scan_hashes_inventory fs dbHashes dbHashes' l :
  (scan fs dbHashes l).1 = (scan fs dbHashes' l).1.
Proof.
  apply map_eq. intros q. apply option_eq. intros h.
  by rewrite !scan_hashes.
Qed.

Lemma elem_of_findDeletes dbHashes localHashes q :
  q ∈ findDeletes dbHashes localHashes ↔
  is_Some (dbHashes !! q) ∧ localHashes !! q = None.
Proof.
  unfold findDeletes. rewrite list_elem_of_filter, list_elem_of_fmap. split.
  - intros [Hn ([k v] & -> & Hin)]. apply elem_of_map_to_list in Hin.
    split; [by eexists|done].
  - intros [[v Hv] Hn]. split; [done|]. exists (q, v). split; [done|].
    by apply elem_of_map_to_list.
Qed.

Lemma lookup_inventory e q :
  inventory e !! q =
    match db.vault_attachments (db e) !! q with
    | Some att => Some (db.att_ContentHash att)
    | None => db.note_ContentHash <$> db.vault_notes (db e) !! q
    end.
Proof.
  unfold inventory, mergeHashes.
  rewrite lookup_union, !lookup_fmap.
  destruct (db.vault_attachments (db e) !! q);
    destruct (db.vault_notes (db e) !! q); done.
Qed.

(** ** The delete block *)

Lemma lookup_deleteAll {V} (paths : list string) (m : gmap string V) q :
  db.deleteAll paths m !! q = if decide (q ∈ paths) then None else m !! q.
Proof.
  induction paths as [|x paths IH].
  - cbn. rewrite decide_False; [done|]. by intros ?%elem_of_nil.
  - change (db.deleteAll (x :: paths) m) with (delete x (db.deleteAll paths m)).
    destruct (decide (x = q)) as [->|Hne].
    + rewrite lookup_delete_eq, decide_True; [done|]. by apply elem_of_cons; left.
    + rewrite lookup_delete_ne by done. rewrite IH.
      destruct (decide (q ∈ paths)).
      * rewrite decide_True; [done|]. by apply elem_of_cons; right.
      * rewrite decide_False; [done|].
        intros [?|?]%elem_of_cons; congruence.
Qed.

Lemma BatchDeleteNotes_spec paths d :
  db.failing (db.BatchDeleteNotes paths d).1 = db.failing d ∧
  db.vault_attachments (db.BatchDeleteNotes paths d).1 = db.vault_attachments d ∧
  (∀ q, db.vault_notes (db.BatchDeleteNotes paths d).1 !! q = db.vault_notes d !! q ∨
        (q ∈ paths ∧ db.vault_notes (db.BatchDeleteNotes paths d).1 !! q = None)) ∧
  (db.failing d (db.CallBatchDeleteNotes paths) = false →
   ∀ q, q ∈ paths → db.vault_notes (db.BatchDeleteNotes paths d).1 !! q = None) ∧
  (paths ≠ [] →
   db.calls (db.BatchDeleteNotes paths d).1
     = db.calls d ++ [db.CallBatchDeleteNotes paths]) ∧
  (paths = [] → (db.BatchDeleteNotes paths d).1 = d).
Proof.
  destruct paths as [|x paths].
  { split_and!; try done.
    - intros q. by left.
    - intros _ q Hq. by apply elem_of_nil in Hq. }
  unfold db.BatchDeleteNotes, db.Exec.
  destruct (db.failing d _) eqn:Hf; cbn -[db.deleteAll]; split_and!;
    try done; auto.
  - intros q. rewrite lookup_deleteAll. case_decide; auto.
  - intros _ q Hq. rewrite lookup_deleteAll. by rewrite decide_True.
Qed.

Lemma BatchDeleteAttachments_spec paths d :
  db.failing (db.BatchDeleteAttachments paths d).1 = db.failing d ∧
  db.vault_notes (db.BatchDeleteAttachments paths d).1 = db.vault_notes d ∧
  (∀ q, db.vault_attachments (db.BatchDeleteAttachments paths d).1 !! q
          = db.vault_attachments d !! q ∨
        (q ∈ paths ∧
         db.vault_attachments (db.BatchDeleteAttachments paths d).1 !! q = None)) ∧
  (db.failing d (db.CallBatchDeleteAttachments paths) = false →
   ∀ q, q ∈ paths →
        db.vault_attachments (db.BatchDeleteAttachments paths d).1 !! q = None) ∧
  (paths ≠ [] →
   db.calls (db.BatchDeleteAttachments paths d).1
     = db.calls d ++ [db.CallBatchDeleteAttachments paths]) ∧
  (paths = [] → (db.BatchDeleteAttachments paths d).1 = d).
Proof.
  destruct paths as [|x paths].
  { split_and!; try done.
    - intros q. by left.
    - intros _ q Hq. by apply elem_of_nil in Hq. }
  unfold db.BatchDeleteAttachments, db.Exec.
  destruct (db.failing d _) eqn:Hf; cbn -[db.deleteAll]; split_and!;
    try done; auto.
  - intros q. rewrite lookup_deleteAll. case_decide; auto.
  - intros _ q Hq. rewrite lookup_deleteAll. by rewrite decide_True.
Qed.

Lemma removeAll_setup paths st :
  filePath (foldl (λ st p, RemoveFileState p st) st paths) = filePath st.
Proof. revert st. induction paths as [|x l IH]; intros st; cbn; [done|by rewrite IH]. Qed.

Lemma removeAll_files paths st q :
  GetFileState q (foldl (λ st p, RemoveFileState p st) st paths) =
    if decide (q ∈ paths) then None else GetFileState q st.
Proof.
  revert st. induction paths as [|x l IH]; intros st; cbn.
  - rewrite decide_False; [done|]. by intros ?%elem_of_nil.
  - rewrite IH. unfold GetFileState at 1. cbn.
    destruct (decide (q ∈ l)).
    + rewrite decide_True; [done|]. by apply elem_of_cons; right.
    + destruct (decide (x = q)) as [->|Hne].
      * rewrite lookup_delete_eq, decide_True; [done|]. by apply elem_of_cons; left.
      * rewrite lookup_delete_ne by done. rewrite decide_False; [done|].
        intros [?|?]%elem_of_cons; congruence.
Qed.


Lemma deleteRemoved_setup toDelete e :
  sameSetup e (deleteRemoved toDelete e) ∧
  retryQueue (deleteRemoved toDelete e) = retryQueue e.
Proof.
  destruct toDelete as [|x l]; [by split; [apply sameSetup_refl|]|].
  unfold deleteRemoved, sameSetup. cbn [db config maxBinarySize retryQueue
    with_tracker with_db].
  split_and!; try done.
  destruct (BatchDeleteAttachments_spec
              (filter (λ p, isNote p ≠ true) (x :: l))
              (db.BatchDeleteNotes (filter (λ p, isNote p = true) (x :: l)) (db e)).1)
    as (-> & _).
  by destruct (BatchDeleteNotes_spec
                 (filter (λ p, isNote p = true) (x :: l)) (db e)) as (-> & _).
Qed.

Lemma deleteRemoved_tracker toDelete e q :
  GetFileState q (state_ (deleteRemoved toDelete e)) =
    if decide (q ∈ toDelete) then None else GetFileState q (state_ e).
Proof.
  destruct toDelete as [|x l].
  - cbn. rewrite decide_False; [done|]. by intros ?%elem_of_nil.
  - unfold deleteRemoved. cbn [state_ with_tracker with_db].
    apply removeAll_files.
Qed.

(** The delete block only removes rows, and only rows of the delete set. *)
Lemma deleteRemoved_rows toDelete e q :
  (db.vault_notes (db (deleteRemoved toDelete e)) !! q = db.vault_notes (db e) !! q ∨
   (q ∈ toDelete ∧ isNote q = true ∧
    db.vault_notes (db (deleteRemoved toDelete e)) !! q = None)) ∧
  (db.vault_attachments (db (deleteRemoved toDelete e)) !! q
     = db.vault_attachments (db e) !! q ∨
   (q ∈ toDelete ∧ isNote q = false ∧
    db.vault_attachments (db (deleteRemoved toDelete e)) !! q = None)).
Proof.
  destruct toDelete as [|x l]; [split; by left|].
  unfold deleteRemoved. cbn [db with_tracker with_db].
  set (ns := filter (λ p, isNote p = true) (x :: l)).
  set (as_ := filter (λ p, isNote p ≠ true) (x :: l)).
  destruct (BatchDeleteNotes_spec ns (db e)) as (_ & Ha1 & Hn1 & _).
  destruct (BatchDeleteAttachments_spec as_ (db.BatchDeleteNotes ns (db e)).1)
    as (_ & Hn2 & Ha2 & _).
  split.
  - rewrite Hn2. destruct (Hn1 q) as [->|[Hin ->]]; [by left|].
    right. apply list_elem_of_filter in Hin as [? ?]. done.
  - destruct (Ha2 q) as [->|[Hin ->]]; [rewrite Ha1; by left|].
    right. apply list_elem_of_filter in Hin as [? ?].
    split_and!; [done| |done]. by destruct (isNote q).
Qed.

(** When the store does not fail the batches, the rows of the delete set
    are gone from the table of their kind, and each path of the delete set
    is in a batch sent to the table of its kind. *)
Lemma deleteRemoved_gone toDelete e q :
  q ∈ toDelete →
  (if isNote q
   then ∃ paths, q ∈ paths ∧
          db.CallBatchDeleteNotes paths ∈ db.calls (db (deleteRemoved toDelete e))
   else ∃ paths, q ∈ paths ∧
          db.CallBatchDeleteAttachments paths
            ∈ db.calls (db (deleteRemoved toDelete e))) ∧
  ((∀ paths, db.failing (db e) (db.CallBatchDeleteNotes paths) = false) →
   isNote q = true →
   db.vault_notes (db (deleteRemoved toDelete e)) !! q = None) ∧
  ((∀ paths, db.failing (db e) (db.CallBatchDeleteAttachments paths) = false) →
   isNote q = false →
   db.vault_attachments (db (deleteRemoved toDelete e)) !! q = None).
Proof.
  intros Hin. destruct toDelete as [|x l]; [by apply elem_of_nil in Hin|].
  unfold deleteRemoved. cbn [db with_tracker with_db].
  set (ns := filter (λ p, isNote p = true) (x :: l)).
  set (as_ := filter (λ p, isNote p ≠ true) (x :: l)).
  destruct (BatchDeleteNotes_spec ns (db e)) as (Hf1 & Ha1 & _ & Hn1 & Hc1 & Hid1).
  destruct (BatchDeleteAttachments_spec as_ (db.BatchDeleteNotes ns (db e)).1)
    as (_ & Hn2 & _ & Ha2 & Hc2 & Hid2).
  split_and!.
  - destruct (isNote q) eqn:Hk.
    + assert (Hq : q ∈ ns) by by apply list_elem_of_filter.
      exists ns. split; [done|].
      assert (Hne : ns ≠ []) by (intros E; rewrite E in Hq; by apply elem_of_nil in Hq).
      destruct (decide (as_ = [])) as [Has|Has].
      * rewrite (Hid2 Has), (Hc1 Hne). apply elem_of_app. right.
        by apply list_elem_of_singleton.
      * rewrite (Hc2 Has), (Hc1 Hne). apply elem_of_app. left.
        apply elem_of_app. right. by apply list_elem_of_singleton.
    + assert (Hq : q ∈ as_) by (apply list_elem_of_filter; split; [congruence|done]).
      exists as_. split; [done|].
      assert (Hne : as_ ≠ []) by (intros E; rewrite E in Hq; by apply elem_of_nil in Hq).
      rewrite (Hc2 Hne). apply elem_of_app. right.
      by apply list_elem_of_singleton.
  - intros Hok Hk. rewrite Hn2. apply Hn1; [apply Hok|].
    by apply list_elem_of_filter.
  - intros Hok Hk. apply Ha2.
    + rewrite Hf1. apply Hok.
    + apply list_elem_of_filter. split; [congruence|done].
Qed.

(** ** The whole of [FullReconcile] *)

Lemma Save_state wf disk st : state (Save wf disk st).1.1 = state st.
Proof.
  unfold Save. destruct (dirty st); cbn; [|done].
  destruct (jsonMarshalIndent (state st)); [|done]. by destruct wf.
Qed.

(** When the two queries succeed, [FullReconcile] completes and reports
    the sync set and the delete set; the store, the retry queue and the
    tracked files are those the delete block leaves. *)
Lemma FullReconcile_eq fs now wf disk e :
  db.failing (db e) db.CallGetAllNoteHashes = false →
  db.failing (db e) db.CallGetAllAttachmentHashes = false →
  FullReconcile fs now wf disk e =
    (with_tracker
       (Save wf disk (SetLastFullSync now (state_ (reconciled fs now e)))).1.1
       (reconciled fs now e),
     (Save wf disk (SetLastFullSync now (state_ (reconciled fs now e)))).1.2,
     Ok {| synced := syncSet fs e; deleted := deleteSet fs e |}).
Proof.
  intros Hn Ha.
  unfold FullReconcile, db.GetAllNoteHashes, db.GetAllAttachmentHashes.
  rewrite Hn. cbn [db.failing db.record]. rewrite Ha.
  unfold reconciled, deleteSet, syncSet, localHashesOf, inventory, queried.
  destruct (scan _ _ _) as [lh ts]. cbn [fst snd].
  cbn [state_ with_tracker].
  by destruct (Save _ _ _) as [[st disk'] err].
Qed.

Lemma FullReconcile_run fs now wf disk e :
  db.failing (db e) db.CallGetAllNoteHashes = false →
  db.failing (db e) db.CallGetAllAttachmentHashes = false →
  (FullReconcile fs now wf disk e).2
    = Ok {| synced := syncSet fs e; deleted := deleteSet fs e |} ∧
  db (FullReconcile fs now wf disk e).1.1 = db (reconciled fs now e) ∧
  retryQueue (FullReconcile fs now wf disk e).1.1
    = retryQueue (reconciled fs now e) ∧
  config (FullReconcile fs now wf disk e).1.1 = config (reconciled fs now e) ∧
  maxBinarySize (FullReconcile fs now wf disk e).1.1
    = maxBinarySize (reconciled fs now e) ∧
  ∀ q, GetFileState q (state_ (FullReconcile fs now wf disk e).1.1)
       = GetFileState q (state_ (reconciled fs now e)).
Proof.
  intros Hn Ha. rewrite (FullReconcile_eq fs now wf disk e Hn Ha).
  cbn [fst snd db retryQueue config maxBinarySize state_ with_tracker].
  split_and!; try done.
  intros q. unfold GetFileState. by rewrite Save_state.
Qed.

Lemma queried_setup e : sameSetup e (queried e).
Proof. by repeat split. Qed.

Lemma syncSet_regular fs e : Forall (regular fs (queried e)) (syncSet fs e).
Proof.
  apply Forall_forall. intros q Hq.
  apply scan_toSync in Hq as (Hin & h & Hh & _).
  apply (regular_setup fs e); [apply queried_setup|].
  split; [by eapply localFilesOf_not_ignored|].
  apply HashFile_Ok in Hh as (c & mt & Hl & _). eauto.
Qed.

Lemma syncSet_hashed fs e q :
  q ∈ syncSet fs e → ∃ h, localHashesOf fs e !! q = Some h ∧ HashFile fs q = Ok h.
Proof.
  intros Hq. apply scan_toSync in Hq as (Hin & h & Hh & _).
  exists h. split; [|done]. by apply scan_hashes.
Qed.

Lemma deleteSet_not_hashed fs e q :
  q ∈ deleteSet fs e → localHashesOf fs e !! q = None.
Proof. by intros [_ ?]%elem_of_findDeletes. Qed.

Lemma reconciled_setup fs now e : sameSetup e (reconciled fs now e).
Proof.
  unfold reconciled.
  eapply sameSetup_trans; [apply queried_setup|].
  eapply sameSetup_trans; [apply syncAll_setup, syncSet_regular|].
  apply deleteRemoved_setup.
Qed.

Lemma tracked_ext fs q e e' :
  GetFileState q (state_ e') = GetFileState q (state_ e) →
  tracked fs q e → tracked fs q e'.
Proof. intros Hf (f & ? & ?). exists f. by rewrite Hf. Qed.

Lemma stored_ext fs q e e' :
  db.vault_notes (db e') !! q = db.vault_notes (db e) !! q →
  db.vault_attachments (db e') !! q = db.vault_attachments (db e) !! q →
  stored fs q e → stored fs q e'.
Proof. unfold stored. intros -> ->. done. Qed.

(** The delete block leaves alone the paths that have a local hash. *)
Lemma deleteRemoved_hashed fs now e q h :
  localHashesOf fs e !! q = Some h →
  GetFileState q (state_ (reconciled fs now e))
    = GetFileState q (state_ (syncAll fs now (syncSet fs e) (queried e))) ∧
  db.vault_notes (db (reconciled fs now e)) !! q
    = db.vault_notes (db (syncAll fs now (syncSet fs e) (queried e))) !! q ∧
  db.vault_attachments (db (reconciled fs now e)) !! q
    = db.vault_attachments (db (syncAll fs now (syncSet fs e) (queried e))) !! q.
Proof.
  intros Hh.
  assert (Hnin : q ∉ deleteSet fs e).
  { intros Hin%deleteSet_not_hashed. congruence. }
  unfold reconciled. split_and!.
  - rewrite deleteRemoved_tracker. by rewrite decide_False.
  - by destruct (deleteRemoved_rows (deleteSet fs e)
                   (syncAll fs now (syncSet fs e) (queried e)) q)
      as [[->|[? _]] _].
  - by destruct (deleteRemoved_rows (deleteSet fs e)
                   (syncAll fs now (syncSet fs e) (queried e)) q)
      as [_ [->|[? _]]].
Qed.

(** A path of the sync set whose front matter can be encoded and whose
    upsert the store does not fail is tracked at the end of the
    reconciliation, and stored if its turn got as far as the upsert. *)
Lemma reconciled_ok fs now e q :
  q ∈ syncSet fs e →
  encodable fs q →
  (∀ call, db.upsertPath call = Some q → db.failing (db e) call = false) →
  tracked fs q (reconciled fs now e) ∧
  (toUpload fs q e → stored fs q (reconciled fs now e)).
Proof.
  intros Hin Henc Hok.
  destruct (syncSet_hashed fs e q Hin) as (h & Hlh & Hh).
  destruct (deleteRemoved_hashed fs now e q h Hlh) as (Hf & Hn & Ha).
  destruct (syncAll_ok fs now (syncSet fs e) (queried e) q
              (syncSet_regular fs e) Hin Henc Hok) as [Ht Hst].
  split.
  - by apply (tracked_ext fs q (syncAll fs now (syncSet fs e) (queried e))).
  - intros Hup.
    apply (stored_ext fs q (syncAll fs now (syncSet fs e) (queried e))); try done.
    apply Hst. by apply (toUpload_ext fs q e).
Qed.

(** C10.  A walked file that cannot be hashed has no local hash; if the
    inventory has its path, the path is in the delete set and not in the
    sync set, a batch delete naming it is sent to the table of its kind,
    its tracked state is removed, and, when the store does not fail the
    batches and holds the path in the table of its kind only, the path is
    gone from the inventory at the end. *)
Theorem C10_unhashable_deleted fs now wf disk e p err :
  p ∈ localFilesOf e fs →
  HashFile fs p = Fail err →
  is_Some (inventory e !! p) →
  db.failing (db e) db.CallGetAllNoteHashes = false →
  db.failing (db e) db.CallGetAllAttachmentHashes = false →
  let e' := (FullReconcile fs now wf disk e).1.1 in
  localHashesOf fs e !! p = None ∧
  (∃ report, (FullReconcile fs now wf disk e).2 = Ok report ∧
             p ∈ deleted report ∧ p ∉ synced report) ∧
  (if isNote p
   then ∃ paths, p ∈ paths ∧ db.CallBatchDeleteNotes paths ∈ db.calls (db e')
   else ∃ paths, p ∈ paths ∧
          db.CallBatchDeleteAttachments paths ∈ db.calls (db e')) ∧
  GetFileState p (state_ e') = None ∧
  ((∀ paths, db.failing (db e) (db.CallBatchDeleteNotes paths) = false) →
   (∀ paths, db.failing (db e) (db.CallBatchDeleteAttachments paths) = false) →
   (if isNote p then db.vault_attachments (db e) !! p = None
    else db.vault_notes (db e) !! p = None) →
   inventory e' !! p = None).
Proof.
  intros Hwalk Hh Hinv Hqn Hqa. cbn zeta.
  destruct (FullReconcile_run fs now wf disk e Hqn Hqa)
    as (Hrep & Hdb & _ & _ & _ & Hfiles).
  assert (Hlh : localHashesOf fs e !! p = None).
  { apply eq_None_not_Some. intros [h Hsome].
    apply scan_hashes in Hsome as [_ ?]. congruence. }
  assert (Hdel : p ∈ deleteSet fs e) by by apply elem_of_findDeletes.
  assert (Hnsync : p ∉ syncSet fs e).
  { intros (_ & h & ? & _)%scan_toSync. congruence. }
  destruct (syncAll_other fs now (syncSet fs e) (queried e) p
              (syncSet_regular fs e) Hnsync) as (_ & Hn & Ha & _).
  change (db.vault_notes (db (queried e))) with (db.vault_notes (db e)) in Hn.
  change (db.vault_attachments (db (queried e)))
    with (db.vault_attachments (db e)) in Ha.
  pose proof (syncAll_setup fs now (syncSet fs e) (queried e)
                (syncSet_regular fs e)) as (_ & _ & Hfail).
  change (db.failing (db (queried e))) with (db.failing (db e)) in Hfail.
  destruct (deleteRemoved_gone (deleteSet fs e)
              (syncAll fs now (syncSet fs e) (queried e)) p Hdel)
    as (Hcall & Hgn & Hga).
  fold (reconciled fs now e) in Hcall, Hgn, Hga.
  split_and!.
  - done.
  - eexists. split; [exact Hrep|]. done.
  - by rewrite Hdb.
  - rewrite Hfiles. unfold reconciled. rewrite deleteRemoved_tracker.
    by rewrite decide_True.
  - intros Hokn Hoka Hkind.
    rewrite lookup_inventory, Hdb.
    destruct (deleteRemoved_rows (deleteSet fs e)
                (syncAll fs now (syncSet fs e) (queried e)) p) as [Rn Ra].
    fold (reconciled fs now e) in Rn, Ra.
    destruct (isNote p) eqn:Hk.
    + assert (db.vault_attachments (db (reconciled fs now e)) !! p = None) as ->.
      { destruct Ra as [->|(_ & _ & ->)]; [|done]. by rewrite Ha. }
      rewrite Hgn; [done| |done]. intros paths. rewrite Hfail. apply Hokn.
    + rewrite Hga; [|intros paths; rewrite Hfail; apply Hoka|done].
      destruct Rn as [->|(_ & _ & ->)]; [|done]. by rewrite Hn, Hkind.
Qed.


(** ** A second run *)

(** A loop over paths that are all tracked with their current hash does
    nothing. *)
Lemma syncAll_gated fs now l e :
  (∀ q, q ∈ l → tracked fs q e) → syncAll fs now l e = e.
Proof.
  induction l as [|x l IH]; intros Ht; [done|].
  rewrite syncAll_cons.
  assert (Hx : syncStep fs now e x = e).
  { destruct (Ht x) as (f & Hf & Hh); [by apply elem_of_cons; left|].
    unfold syncStep.
    by rewrite (upsertFile_unchanged fs now x e (Hash f) f Hh Hf eq_refl). }
  rewrite Hx. apply IH. intros q Hq. apply Ht. by apply elem_of_cons; right.
Qed.

Lemma localHashesOf_setup fs e e' :
  config e' = config e → localHashesOf fs e' = localHashesOf fs e.
Proof.
  intros Hc. unfold localHashesOf. rewrite (localFilesOf_setup e e' fs Hc).
  apply scan_hashes_inventory.
Qed.

Section AfterOneRun.
Variables (fs : list (string * Node)) (now : Z) (e : Engine).
Hypothesis no_failure : ∀ call, db.failing (db e) call = false.
Hypothesis rows_sorted : db.sorted isNote (db e).


(** After such a run the inventory has no path without a local hash. *)
Lemma reconciled_no_stray q :
  is_Some (inventory (reconciled fs now e) !! q) →
  is_Some (localHashesOf fs e !! q).
Proof.
  intros Hinv.
  destruct (localHashesOf fs e !! q) as [h|] eqn:Hlh; [by eexists|].
  exfalso.
  assert (Hnsync : q ∉ syncSet fs e).
  { intros (h & ? & _)%syncSet_hashed. congruence. }
  destruct (syncAll_other fs now (syncSet fs e) (queried e) q
              (syncSet_regular fs e) Hnsync) as (_ & Hn & Ha & _).
  change (db.vault_notes (db (queried e))) with (db.vault_notes (db e)) in Hn.
  change (db.vault_attachments (db (queried e)))
    with (db.vault_attachments (db e)) in Ha.
  pose proof (syncAll_setup fs now (syncSet fs e) (queried e)
                (syncSet_regular fs e)) as (_ & _ & Hfail).
  change (db.failing (db (queried e))) with (db.failing (db e)) in Hfail.
  destruct (deleteRemoved_rows (deleteSet fs e)
              (syncAll fs now (syncSet fs e) (queried e)) q) as [Rn Ra].
  fold (reconciled fs now e) in Rn, Ra.
  destruct rows_sorted as [Hsn Hsa].
  assert (Hgone : is_Some (inventory e !! q) →
            (isNote q = true →
             db.vault_notes (db (reconciled fs now e)) !! q = None) ∧
            (isNote q = false →
             db.vault_attachments (db (reconciled fs now e)) !! q = None)).
  { intros Hold.
    assert (Hdel : q ∈ deleteSet fs e) by by apply elem_of_findDeletes.
    destruct (deleteRemoved_gone (deleteSet fs e)
                (syncAll fs now (syncSet fs e) (queried e)) q Hdel)
      as (_ & Hgn & Hga).
    split; intros Hk; [apply Hgn|apply Hga]; try done;
      intros paths; rewrite Hfail; apply no_failure. }
  rewrite lookup_inventory in Hinv.
  destruct (db.vault_attachments (db (reconciled fs now e)) !! q) as [a|] eqn:Ea.
  - destruct Ra as [Ra|(_ & _ & Ra)]; [|congruence].
    rewrite Ha in Ra. symmetry in Ra. pose proof (Hsa _ _ Ra) as Hk.
    destruct Hgone as [_ Hg].
    + rewrite lookup_inventory, Ra. by eexists.
    + specialize (Hg Hk). congruence.
  - destruct (db.vault_notes (db (reconciled fs now e)) !! q) as [n|] eqn:En;
      [|by destruct Hinv].
    destruct Rn as [Rn|(_ & _ & Rn)]; [|congruence].
    rewrite Hn in Rn. symmetry in Rn. pose proof (Hsn _ _ Rn) as Hk.
    destruct Hgone as [Hg _].
    + rewrite lookup_inventory, Rn.
      destruct (db.vault_attachments (db e) !! q); by eexists.
    + specialize (Hg Hk). congruence.
Qed.

End AfterOneRun.


(** ** The retry sweep *)



End ReconcileFacts.

(* ===================================================================== *)
(** * Concrete runs                                                       *)
(* ===================================================================== *)

Section DebouncerRuns.
Import watcher.

Lemma NewDebouncer_keyed delayMs : keyed (NewDebouncer delayMs).
Proof. intros q pe H. cbn in H. by rewrite lookup_empty in H. Qed.

(** The delay of a debouncer made for 100 ms, in nanoseconds. *)
Lemma delay_100ms : delay (NewDebouncer 100) = 100000000.
Proof. reflexivity. Qed.

(** A create, a modify, a delete and a late modify for [test.md], 10 ms
    apart under a 100 ms delay, settle as one delete (the instants are in
    nanoseconds). *)
Lemma C3_delete_dominance_witness :
  settled "test.md"
    (fire 130000000
       (run "test.md"
          [(0, EventCreate); (10000000, EventModify); (20000000, EventDelete);
           (30000000, EventModify)] (NewDebouncer 100)))
  = [ {| Path := "test.md"; EventType_ := EventDelete;
         Timestamp := 30000000 |} ].
Proof.
  refine (proj2 (proj2 (C3_delete_dominance "test.md" (NewDebouncer 100) 0
            EventCreate
            [(10000000, EventModify); (20000000, EventDelete);
             (30000000, EventModify)]
            (NewDebouncer_keyed 100) eq_refl eq_refl _ _)) 130000000).
  - rewrite delay_100ms. cbn. lia.
  - cbn. set_solver.
Defined.

(** Create, modify, modify for [test.md] settle as one create. *)
Lemma C4_coalescing_witness :
  settled "test.md"
    (fire 120000000
       (run "test.md"
          [(0, EventCreate); (10000000, EventModify); (20000000, EventModify)]
          (NewDebouncer 100)))
  = [ {| Path := "test.md"; EventType_ := EventCreate;
         Timestamp := 20000000 |} ].
Proof.
  refine (proj2 (proj2 (C4_coalescing "test.md" (NewDebouncer 100)
            0 10000000 20000000
            (NewDebouncer_keyed 100) eq_refl eq_refl _ _)) 120000000);
    rewrite ?delay_100ms; cbn; lia.
Defined.

End DebouncerRuns.

Section EngineRuns.
Import sync fixtures.

(** The sample engine is the one [NewEngine] builds. *)
Example NewEngine_sample :
  @NewEngine stubs (emptyDB noFailure) (cfg 50) ∅
  = Ok (engine (emptyDB noFailure) 50).
Proof. vm_compute. reflexivity. Qed.


(** A note whose front matter cannot be encoded, beside one that can, with
    a store that fails nothing: the run completes, [a.md] is stored and
    tracked, and [inf.md] is in the retry queue with count 0, untracked,
    without a statement sent for it. *)
Example ratedNotes_run :
  let run := @FullReconcile stubs ratedNotes 10 Completes ∅
               (engine (emptyDB noFailure) 50) in
  run.2 = Ok {| synced := ["a.md"; "inf.md"]; deleted := [] |} ∧
  retryQueue run.1.1 = {[ "inf.md" := 0 ]} ∧
  GetFileState "inf.md" (state_ run.1.1) = None ∧
  db.vault_notes (db run.1.1) !! "inf.md" = None ∧
  db.upsertPath <$> db.calls (db run.1.1) = [None; None; Some "a.md"].
Proof. vm_compute. split_and!; reflexivity. Qed.

(** Every front matter of [threeNotes] can be encoded. *)
Lemma threeNotes_encodable q : @encodable stubs threeNotes q.
Proof.
  intros _ content Hr. unfold ReadFile in Hr. cbn in Hr.
  destruct (decide ("a.md" = q)); [injection Hr as <-; by eexists|].
  destruct (decide ("b.md" = q)); [injection Hr as <-; by eexists|].
  destruct (decide ("c.md" = q)); [injection Hr as <-; by eexists|].
  discriminate Hr.
Qed.


(** A save cut short after four bytes: the state file holds neither the
    previous snapshot nor the new one. *)
Lemma C2_torn_save_counterexample :
  let '(st, disk', err) := @Save stubs (StopsAfter 4) savedDisk dirtyTracker in
  savedDisk !! stateFile = Some "snapshot of /vault: " ∧
  @jsonMarshalIndent stubs (state dirtyTracker) = Some "snapshot of /vault: a.md" ∧
  err = Some ErrIO ∧
  disk' !! stateFile = Some "snap" ∧
  disk' !! stateFile ≠ savedDisk !! stateFile.
Proof. vm_compute. split_and!; try reflexivity. discriminate. Qed.

(** A save of the sample tracker that completes. *)
Lemma C2_save_in_place_witness :
  @Save stubs Completes savedDisk dirtyTracker =
    ({| state := state dirtyTracker; filePath := stateFile; dirty := false |},
     <[stateFile := "snapshot of /vault: a.md"]> savedDisk, None).
Proof.
  refine (proj1 (proj1 (proj2 (@C2_save_in_place stubs Completes savedDisk
                                 dirtyTracker))
                   "snapshot of /vault: a.md" _ _)).
  - reflexivity.
  - vm_compute. reflexivity.
Defined.



(** [a.md] is tracked with the hash of its content: nothing is sent. *)
Lemma C6_fingerprint_gate_witness :
  @upsertFile stubs threeNotes 10 "a.md" trackingEngine = (trackingEngine, None) ∧
  @SyncFile stubs threeNotes 10 "a.md" watcher.EventCreate trackingEngine
    = (trackingEngine, None) ∧
  @SyncFile stubs threeNotes 10 "a.md" watcher.EventModify trackingEngine
    = (trackingEngine, None) ∧
  db.calls (db (@upsertFile stubs threeNotes 10 "a.md" trackingEngine).1)
    = db.calls (db trackingEngine).
Proof.
  apply (@C6_fingerprint_gate stubs threeNotes 10 "a.md" trackingEngine
           "sha256:alpha" trackedNote).
  - reflexivity.
  - vm_compute. reflexivity.
  - reflexivity.
Defined.

(** A state file written for [/old/vault], found when opening [/vault]. *)
Lemma C7_root_mismatch_resets_witness :
  ∃ st, @NewStateTracker stubs "/vault" foreignDisk = Ok st ∧
        Files (state st) = ∅ ∧
        VaultPath (state st) = "/vault" ∧
        LastFullSync (state st) = None ∧
        FileCount st = 0.
Proof.
  apply (@C7_root_mismatch_resets stubs "/vault" foreignDisk "/cfg"
           "snapshot of /old/vault: a.md" "/old/vault" (Some 7)
           (Some {[ "a.md" := trackedNote ]})).
  - reflexivity.
  - vm_compute. reflexivity.
  - reflexivity.
  - discriminate.
Defined.



(** Ten bytes against a limit of zero. *)
Lemma C9_oversize_attachment_witness :
  let e := engine (emptyDB noFailure) 0 in
  let e' := (@upsertFile stubs oneAttachment 10 "big.bin" e).1 in
  (@upsertFile stubs oneAttachment 10 "big.bin" e).2 = None ∧
  db e' = db e ∧
  (∃ fstate, GetFileState "big.bin" (state_ e') = Some fstate ∧
             Hash fstate = @HashContent stubs "0123456789") ∧
  (@NeedsSync "big.bin" (@HashContent stubs "0123456789") (state_ e) = true →
   GetFileState "big.bin" (state_ e') =
     Some {| Hash := @HashContent stubs "0123456789"; LastSynced := 10;
             LastModified := 1;
             SizeBytes := Z.of_nat (String.length "0123456789") |}) ∧
  ∀ now', @upsertFile stubs oneAttachment now' "big.bin" e' = (e', None).
Proof.
  apply (@C9_oversize_attachment stubs oneAttachment 10 "big.bin"
           (engine (emptyDB noFailure) 0) "0123456789" 1).
  - reflexivity.
  - reflexivity.
  - reflexivity.
  - vm_compute. reflexivity.
Defined.

(** [locked.md] is on disk, cannot be opened, and is in the store. *)
Lemma C10_unhashable_deleted_witness :
  let e := engine storeWithLocked 50 in
  let e' := (@FullReconcile stubs lockedVault 10 Completes ∅ e).1.1 in
  @localHashesOf stubs lockedVault e !! "locked.md" = None ∧
  (∃ report, (@FullReconcile stubs lockedVault 10 Completes ∅ e).2 = Ok report ∧
             "locked.md" ∈ deleted report ∧ "locked.md" ∉ synced report) ∧
  (if isNote "locked.md"
   then ∃ paths, "locked.md" ∈ paths ∧
          db.CallBatchDeleteNotes paths ∈ db.calls (db e')
   else ∃ paths, "locked.md" ∈ paths ∧
          db.CallBatchDeleteAttachments paths ∈ db.calls (db e')) ∧
  GetFileState "locked.md" (state_ e') = None ∧
  ((∀ paths, db.failing (db e) (db.CallBatchDeleteNotes paths) = false) →
   (∀ paths, db.failing (db e) (db.CallBatchDeleteAttachments paths) = false) →
   (if isNote "locked.md" then db.vault_attachments (db e) !! "locked.md" = None
    else db.vault_notes (db e) !! "locked.md" = None) →
   inventory e' !! "locked.md" = None).
Proof.
  apply (@C10_unhashable_deleted stubs lockedVault 10 Completes ∅
           (engine storeWithLocked 50) "locked.md" ErrIO).
  - vm_compute. repeat constructor.
  - reflexivity.
  - vm_compute. eexists. reflexivity.
  - reflexivity.
  - reflexivity.
Defined.

End EngineRuns.

(* ===================================================================== *)
(** * The debouncer: flush, stop, separate windows                        *)
(* ===================================================================== *)

Section DebouncerMore.
Import watcher.

Lemma emitAll_lookup l d q :
  events (emitAll l d) !! q = if decide (q ∈ l) then None else events d !! q.
Proof.
  revert d. induction l as [|x l IH]; intros d.
  - cbn. rewrite decide_False; [done|]. by intros ?%elem_of_nil.
  - rewrite emitAll_cons, IH, emit_events.
    destruct (decide (q ∈ l)).
    + rewrite decide_True; [done|]. by apply elem_of_cons; right.
    + destruct (decide (x = q)) as [->|Hne].
      * rewrite lookup_delete_eq, decide_True; [done|]. by apply elem_of_cons; left.
      * rewrite lookup_delete_ne by done. rewrite decide_False; [done|].
        intros [?|?]%elem_of_cons; congruence.
Qed.

Lemma emitAll_output kvs : ∀ d,
  stopped d = false →
  NoDup kvs.*1 →
  (∀ k pe, (k, pe) ∈ kvs → events d !! k = Some pe) →
  output (emitAll kvs.*1 d) = output d ++ ((event ∘ snd) <$> kvs).
Proof.
  induction kvs as [|[k pe] kvs IH]; intros d Hs Hnd Hin.
  - cbn. by rewrite app_nil_r.
  - cbn [fmap list_fmap fst]. rewrite emitAll_cons.
    apply NoDup_cons in Hnd as [Hk Hnd].
    assert (Hk' : events d !! k = Some pe) by (apply Hin; by apply elem_of_cons; left).
    rewrite IH.
    + unfold emit. rewrite Hk', Hs. cbn. by rewrite <- app_assoc.
    + by rewrite emit_stopped.
    + done.
    + intros k' pe' Hin'. rewrite emit_events, lookup_delete_ne.
      * apply Hin. by apply elem_of_cons; right.
      * intros <-. apply Hk. apply list_elem_of_fmap. by exists (k, pe').
Qed.

Lemma Flush_paths d :
  length (map fst (map_to_list (events d))) = size (events d).
Proof. by rewrite length_map, length_map_to_list. Qed.

(** X1.  [Flush] and the capacity of the output channel.  On a debouncer
    that is not stopped, when the channel takes as many sends as there
    are pending events, [Flush] returns, leaves no pending event and has
    sent every pending event, once, after what was already sent; with
    more pending events than that, [Flush] does not return.  So with
    nobody reading and [unread] events in the channel, [Flush] waits for
    ever exactly when the pending events do not fit the free slots, the
    100 of the channel less [unread]. *)
Theorem Flush_settles_every_pending room d :
  stopped d = false →
  ((size (events d) ≤ room)%nat →
   ∃ d', Flush room d = Returns d' ∧
         events d' = ∅ ∧
         PendingCount d' = 0 ∧
         output d' = output d ++ ((event ∘ snd) <$> map_to_list (events d)) ∧
         stopped d' = false ∧ delay d' = delay d) ∧
  ((room < size (events d))%nat → Flush room d = Blocks) ∧
  (∀ unread, (unread ≤ outputCapacity)%nat →
     Flush (freeSlots unread) d = Blocks ↔
     (100 < unread + size (events d))%nat).
Proof.
  intros Hs.
  assert (Hblocks : ∀ r, (r < size (events d))%nat → Flush r d = Blocks).
  { intros r Hlt. unfold Flush. rewrite Hs, Flush_paths.
    by apply Nat.leb_gt in Hlt as ->. }
  assert (Hreturns : ∀ r, (size (events d) ≤ r)%nat →
            Flush r d = Returns (emitAll (map fst (map_to_list (events d))) d)).
  { intros r Hle. unfold Flush. rewrite Hs, Flush_paths.
    by apply Nat.leb_le in Hle as ->. }
  split_and!.
  - intros Hle. eexists. split; [by apply Hreturns|].
    assert (He : events (emitAll (map fst (map_to_list (events d))) d) = ∅).
    { apply map_eq. intros q. rewrite emitAll_lookup, lookup_empty.
      case_decide as Hq; [done|].
      apply eq_None_not_Some. intros [pe Hpe]. apply Hq.
      apply list_elem_of_fmap. exists (q, pe). split; [done|].
      by apply elem_of_map_to_list. }
    split_and!.
    + done.
    + unfold PendingCount. by rewrite He, map_size_empty.
    + apply emitAll_output.
      * done.
      * apply NoDup_fst_map_to_list.
      * intros k pe Hin. by apply elem_of_map_to_list.
    + by rewrite emitAll_stopped.
    + apply emitAll_delay.
  - apply Hblocks.
  - intros unread Hun. unfold freeSlots, outputCapacity in *. split.
    + intros Hb.
      destruct (Nat.le_gt_cases (size (events d)) (100 - unread)) as [Hle|Hlt];
        [|lia].
      rewrite (Hreturns _ Hle) in Hb. discriminate Hb.
    + intros Hlt. apply Hblocks. lia.
Qed.

Lemma Flush_settles_every_pending_witness :
  ∃ d', Flush (freeSlots 98)
          (Add 5 "b.md" EventModify (Add 0 "a.md" EventCreate (NewDebouncer 100)))
        = Returns d' ∧
        events d' = ∅ ∧
        output d' =
          (event ∘ snd) <$>
            map_to_list (events (Add 5 "b.md" EventModify
                                   (Add 0 "a.md" EventCreate (NewDebouncer 100)))).
Proof.
  destruct (proj1 (Flush_settles_every_pending (freeSlots 98)
              (Add 5 "b.md" EventModify (Add 0 "a.md" EventCreate (NewDebouncer 100)))
              eq_refl))
    as (d' & Hf & He & _ & Ho & _).
  - vm_compute. lia.
  - exists d'. split_and!; [exact Hf|exact He|exact Ho].
Defined.

(** Once stopped, with nothing pending, a debouncer is left as it is by
    every step that returns, and only [Stop] does not. *)
Lemma step_stopped d s :
  stopped d = true → events d = ∅ →
  step d s = if decide (s = StepStop) then Panics else Returns d.
Proof.
  intros Hs He. destruct s as [now p ty|now|room|]; cbn.
  - unfold Add. by rewrite Hs.
  - unfold fire, due. by rewrite He, map_to_list_empty.
  - unfold Flush. by rewrite Hs, He, map_to_list_empty.
  - unfold Stop. by rewrite Hs.
Qed.

Lemma steps_stopped d l :
  stopped d = true → events d = ∅ →
  steps d l = if decide (StepStop ∈ l) then Panics else Returns d.
Proof.
  intros Hs He. induction l as [|s l IH]; cbn [steps].
  - rewrite decide_False; [done|]. by intros ?%elem_of_nil.
  - rewrite (step_stopped d s Hs He).
    destruct (decide (s = StepStop)) as [->|Hne].
    + rewrite decide_True; [done|]. by apply elem_of_cons; left.
    + rewrite IH. destruct (decide (StepStop ∈ l)) as [Hin|Hnin].
      * rewrite decide_True; [done|]. by apply elem_of_cons; right.
      * rewrite decide_False; [done|].
        intros [?|?]%elem_of_cons; [congruence|done].
Qed.

(** X2.  [Stop] drops what is pending and may be called once.  On a
    debouncer that is not stopped, [Stop] returns with no pending event
    and the output as it was: the pending events are not sent.  After it,
    whatever calls of [Add], expiries and [Flush] follow, the debouncer
    stays as [Stop] left it and nothing is sent, also by the [Flush] that
    the daemon calls right after [Stop] when it shuts down; and a second
    [Stop] panics, wherever it comes in what follows. *)
Theorem Stop_drops_pending d :
  stopped d = false →
  ∃ d', Stop d = Returns d' ∧
        events d' = ∅ ∧ output d' = output d ∧ stopped d' = true ∧
        Stop d' = Panics ∧
        (∀ room, Flush room d' = Returns d') ∧
        (∀ l, StepStop ∉ l → steps d' l = Returns d') ∧
        (∀ l, StepStop ∈ l → steps d' l = Panics) ∧
        (∀ w, debouncer w = d →
              StopWatcher w = Some (with_debouncer d' w) ∧
              StopWatcher (with_debouncer d' w) = None ∧
              ∀ room, FlushWatcher room (with_debouncer d' w)
                      = Some (with_debouncer d' w)).
Proof.
  intros Hs. unfold Stop at 1. rewrite Hs. eexists. split; [reflexivity|].
  set (d' := {| delay := delay d; events := ∅; output := output d;
                stopped := true |}).
  assert (Hflush : ∀ room, Flush room d' = Returns d').
  { intros room. apply (step_stopped d' (StepFlush room)); done. }
  split_and!; try done.
  - intros l Hl. rewrite (steps_stopped d' l) by done. by rewrite decide_False.
  - intros l Hl. rewrite (steps_stopped d' l) by done. by rewrite decide_True.
  - intros w Hw. unfold StopWatcher, FlushWatcher. cbn [debouncer with_debouncer].
    rewrite Hw. unfold Stop at 1. rewrite Hs. fold d'.
    split_and!; [done|done|].
    intros room. by rewrite Hflush.
Qed.

Lemma Stop_drops_pending_witness :
  ∃ d', Stop (Add 0 "a.md" EventCreate (NewDebouncer 100)) = Returns d' ∧
        events d' = ∅ ∧ output d' = [] ∧
        Stop d' = Panics ∧ Flush 100 d' = Returns d'.
Proof.
  destruct (Stop_drops_pending (Add 0 "a.md" EventCreate (NewDebouncer 100))
              eq_refl)
    as (d' & Hstop & He & Ho & _ & Hpanic & Hflush & _).
  exists d'. split_and!; [exact Hstop|exact He|exact Ho|exact Hpanic|apply Hflush].
Defined.

(** A run of notifications for one path, each arriving when the countdown
    of the one before has expired: each is settled on its own when the
    next arrives, and the last one is pending. *)
Lemma run_spaced p l : ∀ d pe,
  keyed d → stopped d = false →
  events d !! p = Some pe →
  spaced (delay d) (timer pe) l →
  keyed (run p l d) ∧ stopped (run p l d) = false ∧
  delay (run p l d) = delay d ∧
  ∃ pe', events (run p l d) !! p = Some pe' ∧
         timer pe' = lastTime (timer pe - delay d) l + delay d ∧
         settled p (run p l d) ++ [event pe']
           = settled p d ++ event pe :: (eventOf p <$> l).
Proof.
  induction l as [|[t ty] l IH]; intros d pe Hk Hs E Hsp.
  - cbn. split_and!; try done. exists pe. split_and!; [done|lia|done].
  - cbn in Hsp. destruct Hsp as [Hle Hsp].
    destruct (fire_due t p pe d Hk Hs E Hle) as [Ef Sf].
    pose proof (fire_keyed t d Hk) as Hkf.
    assert (Hsf : stopped (fire t d) = false)
      by (unfold fire; by rewrite emitAll_stopped).
    assert (Hdf : delay (fire t d) = delay d)
      by (unfold fire; by rewrite emitAll_delay).
    pose proof (Add_fresh t p ty _ Hsf Ef) as Ea.
    change (run p ((t, ty) :: l) d) with (run p l (Add t p ty (fire t d))).
    set (d1 := Add t p ty (fire t d)) in *.
    assert (Hk1 : keyed d1) by by apply Add_keyed.
    assert (Hs1 : stopped d1 = false) by (unfold d1; by rewrite Add_stopped).
    assert (Hd1 : delay d1 = delay d) by (unfold d1; by rewrite Add_delay).
    destruct (IH d1 _ Hk1 Hs1 Ea) as (Hk' & Hs' & Hd' & pe' & E' & Ht' & Hset).
    { cbn [timer]. by rewrite Hd1, Hdf. }
    cbn [timer event] in Ht', Hset.
    split_and!; [done|done|congruence|].
    exists pe'. split_and!; [done| |].
    + rewrite Ht', Hd1, Hdf. cbn.
      by replace (t + delay d - delay d) with t by lia.
    + rewrite Hset. unfold d1. rewrite Add_settled, Sf.
      rewrite <- app_assoc. done.
Qed.

(** X3.  Notifications for one path that are a full delay apart are not
    coalesced: once the countdown of the last has expired, each has been
    settled as its own event, in the order of arrival and with its own
    type and instant. *)
Theorem spaced_notifications_settle_apart p d t0 ty0 rest T :
  keyed d → stopped d = false →
  events d !! p = None →
  spaced (delay d) (t0 + delay d) rest →
  lastTime t0 rest + delay d <= T →
  settled p (fire T (run p ((t0, ty0) :: rest) d))
    = settled p d ++ (eventOf p <$> (t0, ty0) :: rest) ∧
  events (fire T (run p ((t0, ty0) :: rest) d)) !! p = None.
Proof.
  intros Hk Hs E Hsp HT.
  destruct (fire_not_due t0 p d Hk) as [Ef Sf].
  { intros pe0 E0. rewrite E in E0. discriminate. }
  pose proof (fire_keyed t0 d Hk) as Hkf.
  assert (Hsf : stopped (fire t0 d) = false)
    by (unfold fire; by rewrite emitAll_stopped).
  assert (Hdf : delay (fire t0 d) = delay d)
    by (unfold fire; by rewrite emitAll_delay).
  rewrite E in Ef.
  pose proof (Add_fresh t0 p ty0 _ Hsf Ef) as Ea.
  change (run p ((t0, ty0) :: rest) d) with (run p rest (Add t0 p ty0 (fire t0 d))).
  set (d1 := Add t0 p ty0 (fire t0 d)) in *.
  assert (Hk1 : keyed d1) by by apply Add_keyed.
  assert (Hs1 : stopped d1 = false) by (unfold d1; by rewrite Add_stopped).
  assert (Hd1 : delay d1 = delay d) by (unfold d1; by rewrite Add_delay).
  destruct (run_spaced p rest d1 _ Hk1 Hs1 Ea) as (Hk' & Hs' & Hd' & pe' & E' & Ht' & Hset).
  { cbn [timer]. by rewrite Hd1, Hdf. }
  cbn [timer event] in Ht', Hset.
  assert (Hdue : timer pe' <= T).
  { rewrite Ht', Hd1, Hdf.
    by replace (t0 + delay d - delay d) with t0 by lia. }
  destruct (fire_due T p pe' _ Hk' Hs' E' Hdue) as [-> ->].
  split; [|done].
  rewrite Hset. unfold d1. rewrite Add_settled, Sf. done.
Qed.

Lemma spaced_notifications_settle_apart_witness :
  settled "test.md"
    (fire 400000000
       (run "test.md" [(0, EventDelete); (150000000, EventCreate);
                       (300000000, EventModify)] (NewDebouncer 100)))
  = [ {| Path := "test.md"; EventType_ := EventDelete; Timestamp := 0 |};
      {| Path := "test.md"; EventType_ := EventCreate;
         Timestamp := 150000000 |};
      {| Path := "test.md"; EventType_ := EventModify;
         Timestamp := 300000000 |} ].
Proof.
  refine (proj1 (spaced_notifications_settle_apart "test.md" (NewDebouncer 100)
            0 EventDelete [(150000000, EventCreate); (300000000, EventModify)]
            400000000
            (NewDebouncer_keyed 100) eq_refl eq_refl _ _));
    rewrite ?delay_100ms; cbn; lia.
Defined.

Lemma wrap64_id z : -2 ^ 63 <= z < 2 ^ 63 → wrap64 z = z.
Proof. intros Hz. unfold wrap64. rewrite Z.mod_small; lia. Qed.

Lemma wrap64_range z : -2 ^ 63 <= wrap64 z < 2 ^ 63.
Proof.
  unfold wrap64. pose proof (Z.mod_pos_bound (z + 2 ^ 63) (2 ^ 64)). lia.
Qed.

(** A step that returns keeps the delay, the filing of the pending events
    under their paths, and the emptiness of a stopped debouncer. *)
Lemma step_invariant d s d' :
  step d s = Returns d' →
  keyed d → (stopped d = true → events d = ∅) →
  keyed d' ∧ delay d' = delay d ∧ (stopped d' = true → events d' = ∅).
Proof.
  intros Hstep Hk Hq.
  assert (Hemit : ∀ l, stopped (emitAll l d) = true → events (emitAll l d) = ∅).
  { intros l. rewrite emitAll_stopped. intros Hs.
    apply map_eq. intros q. rewrite emitAll_lookup, (Hq Hs), lookup_empty.
    by case_decide. }
  destruct s as [now p ty|now|room|]; cbn in Hstep.
  - injection Hstep as <-. split_and!.
    + by apply Add_keyed.
    + apply Add_delay.
    + rewrite Add_stopped. intros Hs. unfold Add. rewrite Hs. auto.
  - injection Hstep as <-. split_and!.
    + by apply fire_keyed.
    + apply emitAll_delay.
    + apply Hemit.
  - unfold Flush in Hstep.
    assert (d' = emitAll (map fst (map_to_list (events d))) d) as ->.
    { destruct (stopped d); [by injection Hstep|].
      destruct (_ <=? _)%nat; [by injection Hstep|done]. }
    split_and!.
    + by apply emitAll_keyed.
    + apply emitAll_delay.
    + apply Hemit.
  - unfold Stop in Hstep. destruct (stopped d); [done|].
    injection Hstep as <-. split_and!; [|done|done].
    intros q pe Hpe. cbn in Hpe. by rewrite lookup_empty in Hpe.
Qed.

Lemma steps_invariant l : ∀ d d',
  steps d l = Returns d' →
  keyed d → (stopped d = true → events d = ∅) →
  keyed d' ∧ delay d' = delay d ∧ (stopped d' = true → events d' = ∅).
Proof.
  induction l as [|s l IH]; intros d d' Hsteps Hk Hq; cbn [steps] in Hsteps.
  - by injection Hsteps as <-.
  - destruct (step d s) as [d1| |] eqn:Hstep; [|done|done].
    destruct (step_invariant d s d1 Hstep Hk Hq) as (Hk1 & Hd1 & Hq1).
    destruct (IH d1 d' Hsteps Hk1 Hq1) as (Hk' & Hd' & Hq').
    split_and!; [done|congruence|done].
Qed.

(** X4.  In every state a new debouncer reaches through calls of [Add],
    expiries of countdowns, [Flush] and [Stop] that return: each pending
    event carries the path it is filed under; the delay is the one
    [NewDebouncer] computed, the [int64] product of the milliseconds by
    1000000, which is the configured delay in nanoseconds as long as that
    product does not overflow (it does from 9223372036855 ms on); and a
    stopped debouncer has no pending event, so that [emit] never has an
    event to send once [stopCh] is closed. *)
Theorem debouncer_invariants delayMs l d :
  steps (NewDebouncer delayMs) l = Returns d →
  keyed d ∧
  delay d = wrap64 (delayMs * 1000000) ∧
  - 2 ^ 63 <= delay d < 2 ^ 63 ∧
  (-9223372036854 <= delayMs <= 9223372036854 → delay d = delayMs * 1000000) ∧
  (stopped d = true → events d = ∅).
Proof.
  intros Hsteps.
  destruct (steps_invariant l (NewDebouncer delayMs) d Hsteps) as (Hk & Hd & Hq).
  { apply NewDebouncer_keyed. }
  { done. }
  change (delay (NewDebouncer delayMs)) with (wrap64 (delayMs * 1000000)) in Hd.
  split; [done|]. split; [done|].
  split; [rewrite Hd; apply wrap64_range|]. split; [|done].
  intros Hms. rewrite Hd. apply wrap64_id. lia.
Qed.

Lemma debouncer_invariants_witness :
  delay (Add 5 "a.md" EventModify (NewDebouncer 2000)) = 2000000000 ∧
  keyed (Add 5 "a.md" EventModify (NewDebouncer 2000)).
Proof.
  destruct (debouncer_invariants 2000 [StepAdd 5 "a.md" EventModify]
              (Add 5 "a.md" EventModify (NewDebouncer 2000)) eq_refl)
    as (Hk & _ & _ & Hd & _).
  split; [|exact Hk]. rewrite Hd; [reflexivity|]. lia.
Defined.

End DebouncerMore.

(* ===================================================================== *)
(** * The watcher: what reaches the debouncer                             *)
(* ===================================================================== *)

Section WatcherFacts.
Import watcher.
Variable doublestarMatch : string → string → option bool.

Lemma Split_nonempty sep s : Split sep s ≠ [].
Proof.
  destruct s as [|c s]; cbn; [done|].
  case_decide; [done|]. by destruct (Split sep s).
Qed.

Lemma append_cons c (a b : string) : String c a +:+ b = String c (a +:+ b).
Proof. reflexivity. Qed.

Lemma append_empty (b : string) : EmptyString +:+ b = b.
Proof. reflexivity. Qed.

Lemma Split_app sep a b :
  Split sep (a +:+ String sep b) = Split sep a ++ Split sep b.
Proof.
  induction a as [|c a IH].
  - rewrite append_empty. cbn. by rewrite decide_True.
  - rewrite append_cons. cbn [Split]. case_decide; [by rewrite IH|].
    rewrite IH. pose proof (Split_nonempty sep a).
    by destruct (Split sep a).
Qed.

Lemma Join_Split sep s : Join (Split sep s) (String sep EmptyString) = s.
Proof.
  unfold Join. induction s as [|c s IH]; cbn; [done|].
  pose proof (Split_nonempty sep s) as Hne.
  case_decide as Hc.
  - subst c. cbn. destruct (Split sep s) as [|h t] eqn:E; [done|].
    cbn in IH. cbn. by rewrite IH.
  - destruct (Split sep s) as [|h t] eqn:E; [done|].
    cbn. destruct t as [|h' t]; cbn in *; by rewrite <- IH.
Qed.

Lemma anyPartial_found pattern parts j : ∀ k i,
  (i <= j < i + k)%nat →
  doublestarMatch pattern (Join (take j parts) "/") = Some true →
  anyPartial doublestarMatch pattern parts i k = true.
Proof.
  induction k as [|k IH]; intros i Hj Hm; [lia|].
  cbn. destruct (decide (i = j)) as [->|Hne].
  - by rewrite Hm.
  - destruct (doublestarMatch pattern (Join (take i parts) "/")) as [[|]|];
      [done| |]; apply IH; (lia || done).
Qed.

(** X5.  An ignore pattern that matches a directory covers what is below
    it: the watcher ignores [dir/rest] as soon as a pattern of its list
    matches [dir], provided that pattern is not reported malformed on
    [dir/rest] itself (a malformed pattern is passed over before its
    ancestors are tried). *)
Theorem watcher_ignores_below_ignored_directory patterns pattern dir rest :
  pattern ∈ patterns →
  doublestarMatch pattern dir = Some true →
  doublestarMatch pattern (dir +:+ "/" +:+ rest) ≠ None →
  shouldIgnore doublestarMatch patterns (dir +:+ "/" +:+ rest) = true.
Proof.
  intros Hin Hdir Hok.
  induction patterns as [|pat patterns IH]; [by apply elem_of_nil in Hin|].
  cbn [shouldIgnore].
  destruct (decide (pat = pattern)) as [->|Hne].
  - destruct (doublestarMatch pattern (dir +:+ "/" +:+ rest)) as [[|]|];
      [done| |done].
    assert (anyPartial doublestarMatch pattern
              (Split "/" (dir +:+ "/" +:+ rest)) 1
              (length (Split "/" (dir +:+ "/" +:+ rest))) = true) as ->; [|done].
    change (dir +:+ "/" +:+ rest) with (dir +:+ String "/" rest).
    rewrite Split_app.
    apply (anyPartial_found pattern _ (length (Split "/" dir))).
    + rewrite length_app.
      pose proof (Split_nonempty "/" dir). pose proof (Split_nonempty "/" rest).
      destruct (Split "/" dir); [done|]. destruct (Split "/" rest); [done|].
      cbn. lia.
    + rewrite take_app_length. by rewrite Join_Split.
  - apply elem_of_cons in Hin as [?|Hin]; [congruence|].
    specialize (IH Hin).
    destruct (doublestarMatch pat (dir +:+ "/" +:+ rest)) as [[|]|]; [done| |done].
    rewrite IH. by destruct (anyPartial _ _ _ _ _).
Qed.

Lemma emit_cleared w q d : allCleared doublestarMatch w d → allCleared doublestarMatch w (emit q d).
Proof.
  intros [Hp Ho]. unfold emit.
  destruct (events d !! q) as [pe|] eqn:E; [|done]. split; cbn.
  - intros r pr [_ Hr]%lookup_delete_Some. by eapply Hp.
  - destruct (stopped d); [done|]. apply Forall_app. split; [done|].
    apply Forall_singleton. by eapply Hp.
Qed.

Lemma emitAll_cleared w l d : allCleared doublestarMatch w d → allCleared doublestarMatch w (emitAll l d).
Proof.
  revert d. induction l as [|q l IH]; intros d Hc; [done|].
  rewrite emitAll_cons. apply IH. by apply emit_cleared.
Qed.

Lemma coalesce_not_rename old new :
  old ≠ EventRename → new ≠ EventRename → coalesce old new ≠ EventRename.
Proof. by destruct old, new. Qed.

Lemma Add_cleared w now p ty d :
  shouldIgnore doublestarMatch (ignorePatterns w) p = false →
  shouldInclude doublestarMatch (includePatterns w) p = true →
  ty ≠ EventRename →
  allCleared doublestarMatch w d → allCleared doublestarMatch w (Add now p ty d).
Proof.
  intros Hi Hn Hty [Hp Ho]. unfold Add. destruct (stopped d); [done|].
  destruct (events d !! p) as [pe|] eqn:E; split; cbn; try done;
    intros r pr Hr;
    (destruct (decide (p = r)) as [<-|Hne];
     [rewrite lookup_insert_eq in Hr; injection Hr as <-
     |rewrite lookup_insert_ne in Hr by done; by eapply Hp]).
  - destruct (Hp _ _ E) as (? & ? & ?). split_and!; cbn; try done.
    by apply coalesce_not_rename.
  - by split_and!.
Qed.

Lemma processEvent_cleared now n w :
  allCleared doublestarMatch w (debouncer w) →
  allCleared doublestarMatch w (debouncer (processEvent doublestarMatch now n w)).
Proof.
  intros Hc. unfold processEvent.
  destruct (shouldIgnore _ _ _) eqn:Hi; [done|].
  destruct (shouldInclude _ _ _) eqn:Hn; [|done]. cbn.
  unfold handleEvent.
  destruct (HasCreate n); [destruct (isDirectory n); [done|]; by apply Add_cleared|].
  destruct (HasWrite n); [destruct (isDirectory n); [done|]; by apply Add_cleared|].
  destruct (HasRemove n); [by apply Add_cleared|].
  destruct (HasRename n); [by apply Add_cleared|done].
Qed.

Lemma processEvent_patterns now n w :
  ignorePatterns (processEvent doublestarMatch now n w) = ignorePatterns w ∧
  includePatterns (processEvent doublestarMatch now n w) = includePatterns w.
Proof.
  unfold processEvent, handleEvent.
  destruct (shouldIgnore _ _ _); [done|]. destruct (negb _); [done|].
  destruct (HasCreate n); [by destruct (isDirectory n)|].
  destruct (HasWrite n); [by destruct (isDirectory n)|].
  destruct (HasRemove n); [done|]. by destruct (HasRename n).
Qed.

(** X6.  Whatever notifications the source delivers to a new watcher,
    every event pending in its debouncer and every event it has sent is
    for a path that passes the ignore and include filters, and has type
    create, modify or delete: [EventRename] is never submitted. *)
Theorem watcher_only_submits_cleared_events rootPath0 debounceMs ignore include l :
  let w0 := NewWatcher rootPath0 debounceMs ignore include in
  let w := watch doublestarMatch l w0 in
  ignorePatterns w = ignore ∧ includePatterns w = include ∧
  (∀ q pe, events (debouncer w) !! q = Some pe → cleared doublestarMatch w0 (event pe)) ∧
  Forall (cleared doublestarMatch w0) (output (debouncer w)).
Proof.
  cbn zeta. induction l as [|tn l IH] using rev_ind.
  - cbn. split_and!; done.
  - unfold watch in *. rewrite foldl_app. cbn [foldl].
    set (w := foldl (deliver doublestarMatch)
                (NewWatcher rootPath0 debounceMs ignore include) l) in *.
    destruct IH as (Hi & Hn & Hp & Ho).
    unfold deliver.
    set (w1 := with_debouncer (fire tn.1 (debouncer w)) w).
    destruct (processEvent_patterns tn.1 tn.2 w1) as [Hi' Hn'].
    assert (Hc1 : allCleared doublestarMatch w1 (debouncer w1)).
    { unfold w1. cbn [debouncer with_debouncer]. unfold fire.
      assert (Hsame : ∀ d, allCleared doublestarMatch (NewWatcher rootPath0 debounceMs ignore include) d
                           → allCleared doublestarMatch (with_debouncer (emitAll (due tn.1 (debouncer w))
                                                          (debouncer w)) w) d).
      { intros d [H1 H2]. unfold allCleared, cleared in *. cbn. rewrite Hi, Hn.
        by split. }
      apply Hsame, emitAll_cleared. by split. }
    pose proof (processEvent_cleared tn.1 tn.2 w1 Hc1) as [Hp2 Ho2].
    split_and!.
    + rewrite Hi'. unfold w1. cbn. done.
    + rewrite Hn'. unfold w1. cbn. done.
    + intros q pe Hq. destruct (Hp2 q pe Hq) as (? & ? & ?).
      unfold cleared in *. cbn in *. rewrite Hi, Hn in *. done.
    + eapply Forall_impl; [exact Ho2|]. intros ev (? & ? & ?).
      unfold cleared in *. cbn in *. rewrite Hi, Hn in *. done.
Qed.

End WatcherFacts.

Section WatcherRuns.
Import watcher.

(** A file of a directory that the literal pattern [.obsidian] names. *)
Lemma watcher_ignores_below_ignored_directory_witness :
  shouldIgnore fixtures.literalMatch [".DS_Store"; ".obsidian"]
    (".obsidian" +:+ "/" +:+ "workspace.json") = true.
Proof.
  apply (watcher_ignores_below_ignored_directory fixtures.literalMatch
           [".DS_Store"; ".obsidian"] ".obsidian" ".obsidian" "workspace.json").
  - apply elem_of_cons. right. apply elem_of_cons. left. reflexivity.
  - reflexivity.
  - discriminate.
Defined.

End WatcherRuns.

(* ===================================================================== *)
(** * The two filters                                                     *)
(* ===================================================================== *)

Section FilterAgreement.
Context `{!sync.Externals}.

Lemma anyMatch_ignored patterns p :
  sync.anyMatch patterns p = true →
  watcher.shouldIgnore sync.doublestarMatch patterns p = true.
Proof.
  induction patterns as [|pat patterns IH]; cbn; [done|].
  destruct (sync.doublestarMatch pat p) as [[|]|]; [done| |done].
  intros Hm. rewrite (IH Hm). by destruct (watcher.anyPartial _ _ _ _ _).
Qed.

Lemma anyInclude_anyMatch patterns p :
  watcher.anyInclude sync.doublestarMatch patterns p = sync.anyMatch patterns p.
Proof.
  induction patterns as [|pat patterns IH]; cbn; [done|].
  by destruct (sync.doublestarMatch pat p) as [[|]|].
Qed.

(** X7.  With the same patterns, a path that the watcher lets through
    (not ignored, included) is not ignored by the engine: an event that
    reached the engine from the watcher is not turned into a no-op by the
    filter of [upsertFile]. *)
Theorem watcher_admitted_not_ignored_by_engine e p :
  watcher.shouldIgnore sync.doublestarMatch
    (config.IgnorePatterns (sync.config e)) p = false →
  watcher.shouldInclude sync.doublestarMatch
    (config.IncludePatterns (sync.config e)) p = true →
  sync.shouldIgnore e p = false.
Proof.
  intros Hi Hn. unfold sync.shouldIgnore.
  destruct (sync.anyMatch (config.IgnorePatterns (sync.config e)) p) eqn:Ha.
  - apply anyMatch_ignored in Ha. congruence.
  - unfold watcher.shouldInclude in Hn.
    destruct (config.IncludePatterns (sync.config e)) as [|pat pats] eqn:Hp;
      [done|].
    rewrite anyInclude_anyMatch in Hn. rewrite Hn. by cbn.
Qed.

End FilterAgreement.

Section FilterRuns.

Lemma watcher_admitted_not_ignored_by_engine_witness :
  @sync.shouldIgnore fixtures.stubs
    (fixtures.engine (fixtures.emptyDB fixtures.noFailure) 50) "a.md" = false.
Proof.
  apply (@watcher_admitted_not_ignored_by_engine fixtures.stubs
           (fixtures.engine (fixtures.emptyDB fixtures.noFailure) 50) "a.md");
    reflexivity.
Defined.

End FilterRuns.

(* ===================================================================== *)
(** * Package config: sanitized identifiers                               *)
(* ===================================================================== *)

Section SanitizeFacts.
Import config.

Lemma allBytes_keepIdentBytes s : allBytes isIdentByte (keepIdentBytes s) = true.
Proof.
  induction s as [|c s IH]; cbn; [done|].
  destruct (isIdentByte c) eqn:Hc; cbn; [by rewrite Hc|done].
Qed.

Lemma startsWithUnderscore_collapse s :
  startsWithUnderscore (collapseUnderscores s) = startsWithUnderscore s.
Proof.
  induction s as [|c s IH]; cbn; [done|].
  destruct (isUnderscore c) eqn:Hc; cbn; [|by rewrite Hc].
  destruct (startsWithUnderscore s) eqn:Hs; cbn; [by rewrite IH|by rewrite Hc].
Qed.

Lemma allBytes_collapse P s :
  allBytes P s = true → allBytes P (collapseUnderscores s) = true.
Proof.
  induction s as [|c s IH]; cbn; [done|].
  intros [Hc Hs]%andb_true_iff.
  destruct (isUnderscore c && startsWithUnderscore s); cbn; [auto|].
  rewrite Hc. auto.
Qed.

Lemma noDouble_collapse s : noDoubleUnderscore (collapseUnderscores s) = true.
Proof.
  induction s as [|c s IH]; cbn; [done|].
  destruct (isUnderscore c && startsWithUnderscore s) eqn:Hd; [done|].
  cbn. by rewrite startsWithUnderscore_collapse, Hd, IH.
Qed.

Lemma allBytes_TrimLeft P s :
  allBytes P s = true → allBytes P (TrimLeft s) = true.
Proof.
  induction s as [|c s IH]; cbn; [done|].
  intros [Hc Hs]%andb_true_iff.
  destruct (isUnderscore c); [auto|]. cbn. by rewrite Hc, Hs.
Qed.

Lemma noDouble_TrimLeft s :
  noDoubleUnderscore s = true → noDoubleUnderscore (TrimLeft s) = true.
Proof.
  induction s as [|c s IH]; cbn; [done|].
  intros [Hc Hs]%andb_true_iff.
  destruct (isUnderscore c) eqn:Hu; [auto|]. cbn. by rewrite Hu, Hs.
Qed.

Lemma startsWithUnderscore_TrimLeft s : startsWithUnderscore (TrimLeft s) = false.
Proof.
  induction s as [|c s IH]; cbn; [done|].
  destruct (isUnderscore c) eqn:Hu; [done|]. cbn. done.
Qed.

(** The unfolding of [TrimRight] on a non-empty string. *)
Lemma TrimRight_cons c s :
  TrimRight (String c s) =
    if bool_decide (TrimRight s = EmptyString)
    then (if isUnderscore c then EmptyString else String c EmptyString)
    else String c (TrimRight s).
Proof. cbn. by destruct (TrimRight s). Qed.

Lemma TrimRight_head s a r :
  TrimRight s = String a r → ∃ t, s = String a t.
Proof.
  destruct s as [|c s]; [done|]. rewrite TrimRight_cons.
  case_bool_decide; [destruct (isUnderscore c)|]; intros [= <- _]; eauto.
Qed.

Lemma startsWithUnderscore_TrimRight s :
  TrimRight s ≠ EmptyString →
  startsWithUnderscore (TrimRight s) = startsWithUnderscore s.
Proof.
  intros Hne. destruct (TrimRight s) as [|a r] eqn:E; [done|].
  apply TrimRight_head in E as [t ->]. done.
Qed.

Lemma allBytes_TrimRight P s :
  allBytes P s = true → allBytes P (TrimRight s) = true.
Proof.
  induction s as [|c s IH]; [done|]. rewrite TrimRight_cons. cbn.
  intros [Hc Hs]%andb_true_iff.
  case_bool_decide; [destruct (isUnderscore c); cbn; [done|by rewrite Hc]|].
  cbn. rewrite Hc. auto.
Qed.

Lemma noDouble_TrimRight s :
  noDoubleUnderscore s = true → noDoubleUnderscore (TrimRight s) = true.
Proof.
  induction s as [|c s IH]; [done|]. rewrite TrimRight_cons. cbn.
  intros [Hc Hs]%andb_true_iff.
  case_bool_decide as He; [destruct (isUnderscore c) eqn:Hu; cbn; [done|by rewrite Hu]|].
  cbn. rewrite (startsWithUnderscore_TrimRight s He), Hc. auto.
Qed.

Lemma endsWithUnderscore_TrimRight s : endsWithUnderscore (TrimRight s) = false.
Proof.
  induction s as [|c s IH]; [done|]. rewrite TrimRight_cons.
  case_bool_decide as He; [destruct (isUnderscore c) eqn:Hu; cbn; done|].
  destruct (TrimRight s) as [|a r] eqn:E; [done|]. done.
Qed.

Lemma startsWithLower_TrimRight s :
  startsWithLower s = true → startsWithLower (TrimRight s) = true.
Proof.
  destruct s as [|c s]; [done|]. rewrite TrimRight_cons. cbn. intros Hc.
  assert (isUnderscore c = false) as ->.
  { unfold isUnderscore. apply bool_decide_eq_false. intros ->. done. }
  by case_bool_decide.
Qed.

Lemma length_TrimRight s : (String.length (TrimRight s) <= String.length s)%nat.
Proof.
  induction s as [|c s IH]; [done|]. rewrite TrimRight_cons.
  case_bool_decide; [destruct (isUnderscore c)|]; cbn; lia.
Qed.

Lemma allBytes_substring P n s :
  allBytes P s = true → allBytes P (substring 0 n s) = true.
Proof.
  revert s. induction n as [|n IH]; intros [|c s]; cbn; try done.
  intros [Hc Hs]%andb_true_iff. rewrite Hc. cbn. auto.
Qed.

Lemma startsWithUnderscore_substring n s :
  startsWithUnderscore (substring 0 n s) = true → startsWithUnderscore s = true.
Proof. destruct n, s; cbn; done. Qed.

Lemma noDouble_substring n s :
  noDoubleUnderscore s = true → noDoubleUnderscore (substring 0 n s) = true.
Proof.
  revert s. induction n as [|n IH]; intros [|c s]; cbn; try done.
  intros [Hc Hs]%andb_true_iff. rewrite (IH s Hs), andb_true_r.
  destruct (isUnderscore c); [|done]. cbn in *.
  destruct (startsWithUnderscore (substring 0 n s)) eqn:E; [|done].
  apply startsWithUnderscore_substring in E. by rewrite E in Hc.
Qed.

Lemma length_substring n s : (String.length (substring 0 n s) <= n)%nat.
Proof.
  revert s. induction n as [|n IH]; intros [|c s]; cbn; try lia.
  specialize (IH s). lia.
Qed.

Lemma isIdentByte_cases c :
  isIdentByte c = true → isUnderscore c = false →
  isLowerByte c = true ∨ isDigitByte c = true.
Proof.
  unfold isIdentByte. intros H Hu. rewrite Hu, orb_false_r in H.
  by apply orb_true_iff in H.
Qed.

Lemma named_shape ToLower name :
  allBytes isIdentByte (named ToLower name) = true ∧
  startsWithLower (named ToLower name) = true ∧
  endsWithUnderscore (named ToLower name) = false ∧
  noDoubleUnderscore (named ToLower name) = true.
Proof.
  unfold named. cbn zeta.
  set (s := collapseUnderscores _).
  assert (Ha : allBytes isIdentByte s = true)
    by apply allBytes_collapse, allBytes_keepIdentBytes.
  assert (Hn : noDoubleUnderscore s = true) by apply noDouble_collapse.
  assert (Ha' : allBytes isIdentByte (Trim s) = true)
    by by apply allBytes_TrimRight, allBytes_TrimLeft.
  assert (Hn' : noDoubleUnderscore (Trim s) = true)
    by by apply noDouble_TrimRight, noDouble_TrimLeft.
  assert (He' : endsWithUnderscore (Trim s) = false)
    by apply endsWithUnderscore_TrimRight.
  assert (Hs' : Trim s ≠ EmptyString → startsWithUnderscore (Trim s) = false).
  { intros Hne. unfold Trim. rewrite startsWithUnderscore_TrimRight by done.
    apply startsWithUnderscore_TrimLeft. }
  destruct (Trim s) as [|c t] eqn:E; [done|].
  specialize (Hs' ltac:(done)). cbn in Hs'.
  pose proof Ha' as [Hc _]%andb_true_iff.
  destruct (isDigitByte c) eqn:Hd.
  - change ("vault_" +:+ String c t)
      with (String "v" (String "a" (String "u" (String "l" (String "t"
             (String "_" (String c t))))))).
    split_and!.
    + cbn in Ha' |- *. exact Ha'.
    + done.
    + cbn in He' |- *. exact He'.
    + cbn in Hn' |- *. rewrite Hs' in Hn' |- *. cbn in Hn' |- *. exact Hn'.
  - destruct (isIdentByte_cases c Hc Hs') as [Hl|?]; [|congruence].
    by split_and!.
Qed.

(** The shape of the result, from the shape of [named] and what the cut
    at 63 bytes keeps of it. *)
Lemma SanitizeIdentifier_shaped ToLower name :
  SanitizeIdentifier ToLower name ≠ EmptyString ∧
  (String.length (SanitizeIdentifier ToLower name) <= 63)%nat ∧
  allBytes isIdentByte (SanitizeIdentifier ToLower name) = true ∧
  startsWithLower (SanitizeIdentifier ToLower name) = true ∧
  endsWithUnderscore (SanitizeIdentifier ToLower name) = false ∧
  noDoubleUnderscore (SanitizeIdentifier ToLower name) = true.
Proof.
  assert (Heq : SanitizeIdentifier ToLower name =
                if (63 <? String.length (named ToLower name))%nat
                then TrimRight (substring 0 63 (named ToLower name))
                else named ToLower name) by reflexivity.
  rewrite Heq. clear Heq.
  destruct (named_shape ToLower name) as (Ha & Hl & He & Hn).
  destruct (63 <? String.length (named ToLower name))%nat eqn:Hlen.
  - assert (Hl' : startsWithLower (TrimRight (substring 0 63 (named ToLower name)))
                  = true).
    { apply startsWithLower_TrimRight.
      destruct (named ToLower name); [done|]. done. }
    split_and!.
    + intros E. by rewrite E in Hl'.
    + etransitivity; [apply length_TrimRight|apply length_substring].
    + by apply allBytes_TrimRight, allBytes_substring.
    + done.
    + apply endsWithUnderscore_TrimRight.
    + by apply noDouble_TrimRight, noDouble_substring.
  - apply Nat.ltb_ge in Hlen. split_and!; try done.
    intros E. by rewrite E in Hl.
Qed.

(** X8.  Whatever the name, and whatever [strings.ToLower] makes of it,
    [SanitizeIdentifier] returns a usable identifier: not empty, of at
    most 63 bytes, made of [a-z], [0-9] and [_] only, starting with a
    letter, not ending with an underscore, and with no two underscores in
    a row. *)
Theorem SanitizeIdentifier_shape ToLower name :
  SanitizeIdentifier ToLower name ≠ EmptyString ∧
  (String.length (SanitizeIdentifier ToLower name) <= 63)%nat ∧
  allBytes isIdentByte (SanitizeIdentifier ToLower name) = true ∧
  startsWithLower (SanitizeIdentifier ToLower name) = true ∧
  endsWithUnderscore (SanitizeIdentifier ToLower name) = false ∧
  noDoubleUnderscore (SanitizeIdentifier ToLower name) = true.
Proof. apply SanitizeIdentifier_shaped. Qed.

(** ** A sanitized name is left as it is *)

Lemma replaceByte_id old new s :
  allBytes (λ c, negb (bool_decide (c = old))) s = true →
  replaceByte old new s = s.
Proof.
  induction s as [|c s IH]; cbn; [done|].
  intros [Hc Hs]%andb_true_iff. rewrite (IH Hs).
  by destruct (bool_decide (c = old)).
Qed.

Lemma allBytes_impl (P Q : ascii → bool) s :
  (∀ c, P c = true → Q c = true) → allBytes P s = true → allBytes Q s = true.
Proof.
  intros HPQ. induction s as [|c s IH]; cbn; [done|].
  intros [Hc Hs]%andb_true_iff. rewrite (HPQ c Hc). auto.
Qed.

Lemma isIdentByte_not_space c :
  isIdentByte c = true → negb (bool_decide (c = " "%char)) = true.
Proof. case_bool_decide; [by subst|done]. Qed.

Lemma isIdentByte_not_hyphen c :
  isIdentByte c = true → negb (bool_decide (c = "-"%char)) = true.
Proof. case_bool_decide; [by subst|done]. Qed.

Lemma keepIdentBytes_id s :
  allBytes isIdentByte s = true → keepIdentBytes s = s.
Proof.
  induction s as [|c s IH]; cbn; [done|].
  intros [Hc Hs]%andb_true_iff. by rewrite Hc, IH.
Qed.

Lemma collapseUnderscores_id s :
  noDoubleUnderscore s = true → collapseUnderscores s = s.
Proof.
  induction s as [|c s IH]; cbn; [done|].
  intros [Hc Hs]%andb_true_iff. apply negb_true_iff in Hc.
  by rewrite Hc, IH.
Qed.

Lemma TrimLeft_id s : startsWithUnderscore s = false → TrimLeft s = s.
Proof. destruct s as [|c s]; cbn; [done|]. by intros ->. Qed.

Lemma TrimRight_id s : endsWithUnderscore s = false → TrimRight s = s.
Proof.
  induction s as [|c s IH]; [done|]. rewrite TrimRight_cons.
  destruct s as [|c' s].
  - cbn. by intros ->.
  - intros He. change (endsWithUnderscore (String c' s) = false) in He.
    rewrite (IH He). by rewrite bool_decide_eq_false_2.
Qed.

Lemma startsWithLower_not_underscore s :
  startsWithLower s = true → startsWithUnderscore s = false.
Proof.
  destruct s as [|c s]; cbn; [done|]. intros Hc.
  unfold isUnderscore. apply bool_decide_eq_false. by intros ->.
Qed.

Lemma isLowerByte_not_digit c : isLowerByte c = true → isDigitByte c = false.
Proof.
  unfold isLowerByte, isDigitByte.
  intros [H1 H2]%andb_true_iff. apply Nat.leb_le in H1.
  apply andb_false_iff. right. apply Nat.leb_gt. lia.
Qed.

(** X9.  [SanitizeIdentifier] leaves its own results alone, as soon as
    [strings.ToLower] leaves alone the strings made of [a-z], [0-9] and
    [_]: sanitizing a sanitized name changes nothing. *)
Theorem SanitizeIdentifier_idempotent ToLower name :
  (∀ s, allBytes isIdentByte s = true → ToLower s = s) →
  SanitizeIdentifier ToLower (SanitizeIdentifier ToLower name)
    = SanitizeIdentifier ToLower name.
Proof.
  intros Hlower.
  destruct (SanitizeIdentifier_shaped ToLower name)
    as (Hne & Hlen & Ha & Hl & He & Hn).
  set (r := SanitizeIdentifier ToLower name) in *.
  unfold SanitizeIdentifier at 1. cbn zeta.
  rewrite (Hlower r Ha).
  rewrite (replaceByte_id " " "_" r)
    by (eapply allBytes_impl; [apply isIdentByte_not_space|done]).
  rewrite (replaceByte_id "-" "_" r)
    by (eapply allBytes_impl; [apply isIdentByte_not_hyphen|done]).
  rewrite (keepIdentBytes_id r Ha), (collapseUnderscores_id r Hn).
  unfold Trim.
  rewrite (TrimLeft_id r (startsWithLower_not_underscore r Hl)),
          (TrimRight_id r He).
  destruct r as [|c t] eqn:Er; [done|].
  rewrite (isLowerByte_not_digit c Hl).
  by apply Nat.ltb_ge in Hlen as ->.
Qed.

End SanitizeFacts.

Section SanitizeRuns.
Import config.

(** The lower-casing of the ASCII letters leaves identifiers alone. *)
Lemma ToLower_identifier s :
  allBytes isIdentByte s = true → sync.ToLower s = s.
Proof.
  induction s as [|c s IH]; cbn; [done|].
  intros [Hc Hs]%andb_true_iff. rewrite (IH Hs). f_equal.
  unfold sync.lowerAscii.
  assert (((65 <=? nat_of_ascii c) && (nat_of_ascii c <=? 90))%nat = false) as ->;
    [|done].
  unfold isIdentByte, isLowerByte, isDigitByte, isUnderscore in Hc.
  apply andb_false_iff.
  apply orb_true_iff in Hc as [[Hc|Hc]%orb_true_iff|Hc].
  - apply andb_true_iff in Hc as [H1%Nat.leb_le _]. right. apply Nat.leb_gt. lia.
  - apply andb_true_iff in Hc as [_ H2%Nat.leb_le]. left. apply Nat.leb_gt. lia.
  - apply bool_decide_eq_true in Hc as ->. by right.
Qed.

(** The table of the tests of the package, on names of ASCII bytes. *)
Example SanitizeIdentifier_table :
  map (SanitizeIdentifier sync.ToLower)
    ["MyVault"; "my-vault"; "My Obsidian Vault"; "Notes  and   Things";
     "My Vault (2024)"; "Notes & Ideas"; "Vault@Home!"; "2024 Notes"; "123";
     ""; "___"; "---"; "   "; "_vault_"; " vault "; "my--vault"; "my - vault";
     "ThisIsAReallyLongVaultNameThatExceedsThePostgreSQLIdentifierLimitOfSixtyThreeCharacters"]
  = ["myvault"; "my_vault"; "my_obsidian_vault"; "notes_and_things";
     "my_vault_2024"; "notes_ideas"; "vaulthome"; "vault_2024_notes";
     "vault_123"; "vault"; "vault"; "vault"; "vault"; "vault"; "vault";
     "my_vault"; "my_vault";
     "thisisareallylongvaultnamethatexceedsthepostgresqlidentifierlim"].
Proof. vm_compute. reflexivity. Qed.

Lemma SanitizeIdentifier_idempotent_witness :
  SanitizeIdentifier sync.ToLower (SanitizeIdentifier sync.ToLower "2024 Notes")
  = SanitizeIdentifier sync.ToLower "2024 Notes".
Proof.
  apply (SanitizeIdentifier_idempotent sync.ToLower "2024 Notes").
  exact ToLower_identifier.
Defined.

End SanitizeRuns.

(* ===================================================================== *)
(** * Package parser: merged tags, extracted links                        *)
(* ===================================================================== *)

Section ParserFacts.
Import parser.

Lemma collect_collected acc item : collected acc → collected (collect acc item).
Proof.
  intros (Hs & Hnd & Hne). unfold collect.
  case_bool_decide as Hi; cbn; [|done].
  case_bool_decide as Hin; cbn; [done|].
  split_and!; cbn [fst snd].
  - intros t. rewrite elem_of_union, elem_of_singleton, elem_of_app,
      list_elem_of_singleton, Hs. tauto.
  - apply NoDup_app. split_and!; [done| |apply NoDup_singleton].
    intros t Ht ->%list_elem_of_singleton. apply Hin. by apply Hs.
  - rewrite elem_of_app, list_elem_of_singleton. intros [?|?]; [done|].
    by apply Hi.
Qed.

Lemma collect_elem_of acc item t :
  collected acc →
  t ∈ (collect acc item).2 ↔ t ∈ acc.2 ∨ (t = item ∧ item ≠ EmptyString).
Proof.
  intros (Hs & _). unfold collect.
  case_bool_decide as Hi; cbn.
  - case_bool_decide as Hin; cbn.
    + split; [auto|]. intros [?|[-> _]]; [done|]. by apply Hs.
    + rewrite elem_of_app, list_elem_of_singleton. split; [|tauto].
      intros [?| ->]; auto.
  - split; [auto|]. intros [?|[_ ?]]; [done|]. destruct Hi. done.
Qed.

Lemma collect_prefix acc item : acc.2 `prefix_of` (collect acc item).2.
Proof.
  unfold collect. destruct (_ && _); cbn; [by apply prefix_app_r|done].
Qed.

Lemma collecting (f : string → string) (l : list string) : ∀ acc,
  collected acc →
  collected (foldl (λ acc x, collect acc (f x)) acc l) ∧
  acc.2 `prefix_of` (foldl (λ acc x, collect acc (f x)) acc l).2 ∧
  ∀ t, t ∈ (foldl (λ acc x, collect acc (f x)) acc l).2 ↔
       t ∈ acc.2 ∨ (t ≠ EmptyString ∧ ∃ x, x ∈ l ∧ f x = t).
Proof.
  induction l as [|y l IH]; intros acc Hc.
  - cbn. split_and!; [done|done|]. intros t. split; [auto|].
    intros [?|(_ & x & ?%elem_of_nil & _)]; done.
  - cbn [foldl].
    destruct (IH (collect acc (f y)) (collect_collected _ _ Hc)) as (Hc' & Hp & He).
    split_and!; [done| |].
    + etransitivity; [apply collect_prefix|exact Hp].
    + intros t. rewrite He, (collect_elem_of acc (f y) t Hc). split.
      * intros [[?|[-> ?]]|(? & x & ? & ?)]; auto.
        -- right. split; [done|]. exists y. split; [by apply elem_of_cons; left|done].
        -- right. split; [done|]. exists x. split; [by apply elem_of_cons; right|done].
      * intros [?|(Hne & x & [-> |?]%elem_of_cons & Hx)]; auto.
        -- left. right. subst t. done.
        -- right. eauto.
Qed.

Lemma collected_empty : collected (∅, []).
Proof.
  split_and!; cbn.
  - intros t. rewrite elem_of_empty. split; [done|]. by intros ?%elem_of_nil.
  - apply NoDup_nil_2.
  - by intros ?%elem_of_nil.
Qed.

(** X10.  [MergeTags] returns each tag once: its result has no repeat and
    no empty tag, holds exactly the non-empty normalised forms (trimmed,
    lower-cased) of the tags of both lists, and starts with what the
    front matter tags alone give, in their order. *)
Theorem MergeTags_normalised_once ToLower TrimSpace frontmatterTags inlineTags :
  NoDup (MergeTags ToLower TrimSpace frontmatterTags inlineTags) ∧
  (∀ t, t ∈ MergeTags ToLower TrimSpace frontmatterTags inlineTags ↔
        t ≠ EmptyString ∧
        ∃ tag, tag ∈ frontmatterTags ++ inlineTags ∧ ToLower (TrimSpace tag) = t) ∧
  (MergeTags ToLower TrimSpace frontmatterTags [])
    `prefix_of` (MergeTags ToLower TrimSpace frontmatterTags inlineTags).
Proof.
  unfold MergeTags. cbn zeta.
  destruct (collecting (λ tag, ToLower (TrimSpace tag)) frontmatterTags (∅, [])
              collected_empty) as (Hc1 & _ & He1).
  set (acc := foldl _ (∅, []) frontmatterTags) in *.
  destruct (collecting (λ tag, ToLower (TrimSpace tag)) inlineTags acc Hc1)
    as (Hc2 & Hp2 & He2).
  split_and!.
  - apply Hc2.
  - intros t. rewrite He2, He1. split.
    + intros [[?%elem_of_nil|(? & x & ? & ?)]|(? & x & ? & ?)]; [done| |];
        (split; [done|]); exists x; (split; [|done]); apply elem_of_app; auto.
    + intros (Hne & x & [?|?]%elem_of_app & Hx); [left; right|right]; eauto.
  - exact Hp2.
Qed.

Lemma hasHash_beforeHash s : hasHash (beforeHash s) = false.
Proof.
  induction s as [|c s IH]; cbn; [done|].
  case_bool_decide as Hc; cbn; [done|]. by rewrite bool_decide_eq_false_2.
Qed.

(** X11.  [extractWikiLinks] returns each link target once, none empty,
    and none with a heading anchor: what follows the first [#] of a match
    is cut, given that [strings.TrimSpace] brings no [#] into a string
    that has none. *)
Theorem extractWikiLinks_targets TrimSpace wikiLinkMatches content :
  (∀ s, hasHash s = false → hasHash (TrimSpace s) = false) →
  NoDup (extractWikiLinks TrimSpace wikiLinkMatches content) ∧
  (EmptyString ∉ extractWikiLinks TrimSpace wikiLinkMatches content) ∧
  (∀ link, link ∈ extractWikiLinks TrimSpace wikiLinkMatches content →
           hasHash link = false ∧
           ∃ m, m ∈ wikiLinkMatches content ∧
                link = TrimSpace (beforeHash (TrimSpace m))).
Proof.
  intros Htrim. unfold extractWikiLinks.
  destruct (collecting (λ m, TrimSpace (beforeHash (TrimSpace m)))
              (wikiLinkMatches content) (∅, []) collected_empty)
    as ((_ & Hnd & Hne) & _ & He).
  split_and!; [done|done|].
  intros link [?%elem_of_nil|(_ & m & Hm & <-)]%He; [done|].
  split; [|eauto]. apply Htrim, hasHash_beforeHash.
Qed.

End ParserFacts.

Section ParserRuns.
Import parser.

Lemma extractWikiLinks_targets_witness :
  extractWikiLinks fixtures.noTrim fixtures.threeLinks "text"
  = ["Page One"; "folder/Page Two"] ∧
  NoDup (extractWikiLinks fixtures.noTrim fixtures.threeLinks "text").
Proof.
  split; [vm_compute; reflexivity|].
  apply (extractWikiLinks_targets fixtures.noTrim fixtures.threeLinks "text").
  intros s Hs. exact Hs.
Defined.

End ParserRuns.

(* ===================================================================== *)
(** * The state tracker: opening, saving again                            *)
(* ===================================================================== *)

Section TrackerMore.
Context `{!sync.Externals}.
Import sync.

(** The name of the state file of a vault in the state directory. *)
Lemma NewStateTracker_filePath vaultPath disk st stateDir :
  GetStateDir = Some stateDir →
  NewStateTracker vaultPath disk = Ok st →
  filePath st = stateDir +:+ "/" +:+ "state-"
                +:+ substring 0 12 (HashString vaultPath) +:+ ".json".
Proof.
  intros Hd. unfold NewStateTracker, load. rewrite Hd. cbn.
  intros [= <-].
  destruct (disk !! _) as [data|]; cbn; [|by case_decide].
  destruct (jsonUnmarshal data) as [[[vp lf] files]|]; cbn; by case_decide.
Qed.

(** X12.  What [Save] writes, [NewStateTracker] reads back: when the
    codec decodes the saved document to the state it came from, opening
    the vault on the disk a completed [Save] leaves gives a clean tracker
    with that state. *)
Theorem Save_then_NewStateTracker_round_trip vaultPath stateDir disk st data :
  GetStateDir = Some stateDir →
  filePath st = stateDir +:+ "/" +:+ "state-"
                +:+ substring 0 12 (HashString vaultPath) +:+ ".json" →
  VaultPath (state st) = vaultPath →
  dirty st = true →
  jsonMarshalIndent (state st) = Some data →
  jsonUnmarshal data
    = Some (VaultPath (state st), LastFullSync (state st),
            Some (Files (state st))) →
  (Save Completes disk st).2 = None ∧
  NewStateTracker vaultPath (Save Completes disk st).1.2
    = Ok {| state := state st; filePath := filePath st; dirty := false |}.
Proof.
  intros Hdir Hpath Hvp Hdirty Hm Hu.
  unfold Save. rewrite Hdirty, Hm. cbn. split; [done|].
  unfold NewStateTracker, load. rewrite Hdir. cbn.
  rewrite <- Hpath, lookup_insert_eq, Hu. cbn.
  rewrite decide_False by (intros Hne; by apply Hne).
  destruct st as [[vp lf files] fp dr]. by cbn.
Qed.

(** X13.  [NewStateTracker] fails only when the state directory cannot
    be had.  With no state file, or one that does not decode, it returns
    a clean tracker of the vault with no tracked file; the error of the
    load is dropped. *)
Theorem NewStateTracker_fresh vaultPath disk :
  (GetStateDir = None →
   NewStateTracker vaultPath disk
     = Fail (Wrap "failed to create state directory" ErrIO)) ∧
  (∀ stateDir,
     GetStateDir = Some stateDir →
     let path := stateDir +:+ "/" +:+ "state-"
                 +:+ substring 0 12 (HashString vaultPath) +:+ ".json" in
     (∃ st, NewStateTracker vaultPath disk = Ok st ∧
            VaultPath (state st) = vaultPath ∧ filePath st = path ∧
            dirty st = false) ∧
     (disk !! path = None ∨
      (∃ data, disk !! path = Some data ∧ jsonUnmarshal data = None) →
      NewStateTracker vaultPath disk
        = Ok {| state := emptyState vaultPath; filePath := path;
                dirty := false |})).
Proof.
  split.
  - intros Hd. unfold NewStateTracker. by rewrite Hd.
  - intros stateDir Hd. cbn zeta. split.
    + unfold NewStateTracker, load. rewrite Hd. cbn.
      eexists. split; [reflexivity|].
      destruct (disk !! _) as [data|]; cbn; [|by case_decide].
      destruct (jsonUnmarshal data) as [[[vp lf] files]|]; cbn; by case_decide.
    + intros Hcase. unfold NewStateTracker, load. rewrite Hd. cbn.
      destruct Hcase as [->|(data & -> & ->)]; cbn; by rewrite decide_False by auto.
Qed.

(** X14.  After a [Save] that completes, the next [Save] writes nothing,
    whatever would happen to a write.  After a [Save] whose write stops
    midway, the dirty flag is still set, and the next [Save] that
    completes puts the whole snapshot in the state file. *)
Theorem Save_again wf disk st data n disk2 :
  dirty st = true →
  jsonMarshalIndent (state st) = Some data →
  Save wf (Save Completes disk st).1.2 (Save Completes disk st).1.1
    = ((Save Completes disk st).1.1, (Save Completes disk st).1.2, None) ∧
  dirty (Save (StopsAfter n) disk st).1.1 = true ∧
  (Save Completes disk2 (Save (StopsAfter n) disk st).1.1).1.2
     !! filePath st = Some data ∧
  (Save Completes (Save (StopsAfter n) disk st).1.2
     (Save (StopsAfter n) disk st).1.1).1.2
    = <[filePath st := data]> disk.
Proof.
  intros Hd Hm. unfold Save. rewrite Hd, Hm. cbn. rewrite Hd, Hm. cbn.
  split_and!; try done.
  - apply lookup_insert_eq.
  - apply insert_insert_eq.
Qed.

End TrackerMore.

Section TrackerRuns.
Import sync fixtures.

Lemma Save_then_NewStateTracker_round_trip_witness :
  (@Save readingStubs Completes ∅ dirtyTracker).2 = None ∧
  @NewStateTracker readingStubs "/vault"
      (@Save readingStubs Completes ∅ dirtyTracker).1.2
    = Ok {| state := state dirtyTracker; filePath := filePath dirtyTracker;
            dirty := false |}.
Proof.
  apply (@Save_then_NewStateTracker_round_trip readingStubs "/vault" "/cfg" ∅
           dirtyTracker "snapshot of /vault: a.md").
  - reflexivity.
  - vm_compute. reflexivity.
  - reflexivity.
  - reflexivity.
  - vm_compute. reflexivity.
  - vm_compute. reflexivity.
Defined.

Lemma Save_again_witness :
  (@Save stubs Completes
     (@Save stubs (StopsAfter 4) savedDisk dirtyTracker).1.2
     (@Save stubs (StopsAfter 4) savedDisk dirtyTracker).1.1).1.2
  = <[stateFile := "snapshot of /vault: a.md"]> savedDisk.
Proof.
  refine (proj2 (proj2 (proj2 (@Save_again stubs Completes savedDisk dirtyTracker
            "snapshot of /vault: a.md" 4 ∅ _ _)))).
  - reflexivity.
  - vm_compute. reflexivity.
Defined.

End TrackerRuns.

(* ===================================================================== *)
(** * The incremental path: removal, success, failure, frame              *)
(* ===================================================================== *)

Section EngineMore.
Context `{!sync.Externals}.
Import sync.

(** X15.  [RemoveFile]: when the store executes the delete, the row of
    the path is gone from the table of its kind, the other table is as
    before, the path is no longer tracked, the tracker is dirty, and [nil]
    is returned, whether or not the path was stored or tracked.  When the
    store fails the delete, the error is returned and the tables and the
    tracker are as before.  No other path is touched either way. *)
Theorem RemoveFile_outcomes p e :
  (db.failing (db e) (removeCall p) = false →
   (RemoveFile p e).2 = None ∧
   db.vault_notes (db (RemoveFile p e).1) !! p
     = (if isNote p then None else db.vault_notes (db e) !! p) ∧
   db.vault_attachments (db (RemoveFile p e).1) !! p
     = (if isNote p then db.vault_attachments (db e) !! p else None) ∧
   GetFileState p (state_ (RemoveFile p e).1) = None ∧
   dirty (state_ (RemoveFile p e).1) = true) ∧
  (db.failing (db e) (removeCall p) = true →
   (RemoveFile p e).2 = Some ErrRemote ∧
   db.vault_notes (db (RemoveFile p e).1) = db.vault_notes (db e) ∧
   db.vault_attachments (db (RemoveFile p e).1) = db.vault_attachments (db e) ∧
   state_ (RemoveFile p e).1 = state_ e) ∧
  db.calls (db (RemoveFile p e).1) = db.calls (db e) ++ [removeCall p] ∧
  ∀ q, q ≠ p →
    db.vault_notes (db (RemoveFile p e).1) !! q = db.vault_notes (db e) !! q ∧
    db.vault_attachments (db (RemoveFile p e).1) !! q
      = db.vault_attachments (db e) !! q ∧
    GetFileState q (state_ (RemoveFile p e).1) = GetFileState q (state_ e).
Proof.
  unfold RemoveFile, removeCall, db.DeleteNote, db.DeleteAttachment, db.Exec,
    GetFileState.
  destruct (isNote p); destruct (db.failing (db e) _) eqn:Hf; cbn;
    (split_and!; [intros ?|intros ?|done|intros q Hq]; try done;
     split_and!; try done;
     rewrite ?lookup_delete_eq, ?lookup_delete_ne by done; done).
Qed.

(** Outside the regular, readable, not ignored files, [upsertFile] gives
    the engine back. *)
Lemma upsertFile_not_regular fs now p e :
  ¬ regular fs e p → (upsertFile fs now p e).1 = e.
Proof.
  intros Hn. unfold upsertFile, upsertFileDuring, Stat, HashFile, ReadFile.
  destruct (lookupNode fs p) as [[|c mt [|]|]|] eqn:Hl; cbn; try done.
  - destruct (shouldIgnore e p) eqn:Hi; [done|].
    destruct Hn. split; eauto.
  - by destruct (shouldIgnore e p).
  - by destruct (IsNotExist (missing fs p)).
Qed.

Lemma regular_dec fs e p : regular fs e p ∨ ¬ regular fs e p.
Proof.
  unfold regular.
  destruct (shouldIgnore e p); [right; by intros [? _]|].
  destruct (lookupNode fs p) as [[|c mt [|]|]|];
    try (right; by intros (_ & ? & ? & ?)).
  left. eauto.
Qed.

(** X16.  The incremental path on success.  For a readable regular file
    that is not ignored, whose front matter can be encoded if it is a
    note, and whose upserts the store does not fail, [upsertFile] returns
    [nil]; afterwards the tracker holds the hash of the file, the store
    holds the file with that hash if the call got as far as the upsert,
    and the retry queue is as before. *)
Theorem upsertFile_success fs now p e :
  regular fs e p →
  encodable fs p →
  (∀ call, db.upsertPath call = Some p → db.failing (db e) call = false) →
  (upsertFile fs now p e).2 = None ∧
  tracked fs p (upsertFile fs now p e).1 ∧
  (toUpload fs p e → stored fs p (upsertFile fs now p e).1) ∧
  retryQueue (upsertFile fs now p e).1 = retryQueue e.
Proof.
  intros (Hi & c & mt & Hl) Henc Hok.
  destruct (syncStep_ok fs now e p c mt Hl Hi Henc Hok) as (Ht & Hq & Hst).
  assert (Hnone : (upsertFile fs now p e).2 = None).
  { rewrite (upsertFile_file fs now p e c mt Hl Hi). cbn zeta.
    destruct (negb _); [done|].
    destruct (isNote p) eqn:Hk.
    - destruct (Henc Hk c (ReadFile_Ok fs p c mt Hl)) as [js ->].
      rewrite Hok by done. done.
    - destruct (_ <? _); [done|]. rewrite Hok by done. done. }
  assert (Hstep : syncStep fs now e p = (upsertFile fs now p e).1).
  { unfold syncStep. destruct (upsertFile fs now p e) as [e' [er|]]; [done|done]. }
  rewrite <- Hstep. done.
Qed.

(** X17.  The incremental path on a failure of the store.  When the call
    gets as far as an upsert that the store fails, [upsertFile] returns
    the error of the store; the tracker, the tables and the retry queue
    are as before, so the file still needs a sync; the statement is in the
    log of the store. *)
Theorem upsertFile_store_failure fs now p e :
  regular fs e p →
  toUpload fs p e →
  (∀ call, db.upsertPath call = Some p → db.failing (db e) call = true) →
  (upsertFile fs now p e).2 = Some ErrRemote ∧
  state_ (upsertFile fs now p e).1 = state_ e ∧
  db.vault_notes (db (upsertFile fs now p e).1) = db.vault_notes (db e) ∧
  db.vault_attachments (db (upsertFile fs now p e).1)
    = db.vault_attachments (db e) ∧
  retryQueue (upsertFile fs now p e).1 = retryQueue e ∧
  toUpload fs p (upsertFile fs now p e).1 ∧
  ∃ call, db.upsertPath call = Some p ∧
          db.calls (db (upsertFile fs now p e).1) = db.calls (db e) ++ [call].
Proof.
  intros (Hi & c & mt & Hl) Hup Hbad.
  pose proof Hup as ((h & Hh & Hneed) & Hno & Henc).
  assert (Hh0 : HashFile fs p = Ok (HashContent c)) by (apply HashFile_Ok; eauto).
  rewrite Hh0 in Hh. injection Hh as <-.
  assert (Hst : Stat fs p = Ok {| IsDir := false;
                                  Size := Z.of_nat (String.length c);
                                  ModTime := mt |})
    by (unfold Stat; by rewrite Hl).
  rewrite (upsertFile_file fs now p e c mt Hl Hi). cbn zeta.
  rewrite Hneed. cbn [negb].
  destruct (isNote p) eqn:Hk.
  - destruct (Henc Hk c (ReadFile_Ok fs p c mt Hl)) as [js ->].
    rewrite Hbad by done. cbn.
    do 5 (split; [done|]). split; [by apply (toUpload_ext fs p e)|].
    eexists. split; [|reflexivity]. done.
  - destruct (maxBinarySize e <? _) eqn:Hbig.
    + exfalso. apply Hno. split; [done|]. apply Z.ltb_lt in Hbig. eauto.
    + rewrite Hbad by done. cbn.
      do 5 (split; [done|]). split; [by apply (toUpload_ext fs p e)|].
      eexists. split; [|reflexivity]. done.
Qed.

(** X18.  [upsertFile] on a path touches nothing else: whatever the path
    and the outcome, the configuration, the size limit, the failing
    statements and the retry queue are as before; the tracked state and
    the rows of every other path are as before; and the store has
    received either nothing or one upsert for this path, never a delete
    or a query. *)
Theorem upsertFile_frame fs now p e :
  sameSetup e (upsertFile fs now p e).1 ∧
  retryQueue (upsertFile fs now p e).1 = retryQueue e ∧
  (∀ q, q ≠ p →
     GetFileState q (state_ (upsertFile fs now p e).1)
       = GetFileState q (state_ e) ∧
     db.vault_notes (db (upsertFile fs now p e).1) !! q
       = db.vault_notes (db e) !! q ∧
     db.vault_attachments (db (upsertFile fs now p e).1) !! q
       = db.vault_attachments (db e) !! q) ∧
  (db.calls (db (upsertFile fs now p e).1) = db.calls (db e) ∨
   ∃ call, db.upsertPath call = Some p ∧
           db.calls (db (upsertFile fs now p e).1) = db.calls (db e) ++ [call]).
Proof.
  destruct (regular_dec fs e p) as [(Hi & c & mt & Hl)|Hn].
  - rewrite (upsertFile_file fs now p e c mt Hl Hi). cbn zeta.
    unfold GetFileState.
    destruct (negb _); [by split_and!; [apply sameSetup_refl| | |left]|].
    destruct (isNote p).
    + destruct (jsonMarshal _);
        [|by split_and!; [apply sameSetup_refl| | |left]].
      destruct (db.failing (db e) _); cbn;
        (split_and!; [by repeat split|done| |right; eexists; split; [|reflexivity]; done]);
        intros q Hq; rewrite ?lookup_insert_ne by done; done.
    + destruct (_ <? _); cbn.
      * split_and!; [by repeat split|done| |by left].
        intros q Hq. by rewrite lookup_insert_ne by done.
      * destruct (db.failing (db e) _); cbn;
          (split_and!; [by repeat split|done| |right; eexists; split; [|reflexivity]; done]);
          intros q Hq; rewrite ?lookup_insert_ne by done; done.
  - rewrite (upsertFile_not_regular fs now p e Hn).
    split_and!; [apply sameSetup_refl|done|done|by left].
Qed.



End EngineMore.

Section EngineMoreRuns.
Import sync fixtures.

Lemma RemoveFile_outcomes_witness :
  (@RemoveFile "locked.md" (fixtures.engine fixtures.storeWithLocked 50)).2 = None ∧
  db.vault_notes
    (db (@RemoveFile "locked.md" (fixtures.engine fixtures.storeWithLocked 50)).1)
    !! "locked.md"
  = (if isNote "locked.md" then None
     else db.vault_notes (db (fixtures.engine fixtures.storeWithLocked 50))
            !! "locked.md") ∧
  db.vault_attachments
    (db (@RemoveFile "locked.md" (fixtures.engine fixtures.storeWithLocked 50)).1)
    !! "locked.md"
  = (if isNote "locked.md"
     then db.vault_attachments (db (fixtures.engine fixtures.storeWithLocked 50))
            !! "locked.md"
     else None) ∧
  GetFileState "locked.md"
    (state_ (@RemoveFile "locked.md" (fixtures.engine fixtures.storeWithLocked 50)).1)
  = None ∧
  dirty (state_ (@RemoveFile "locked.md"
                   (fixtures.engine fixtures.storeWithLocked 50)).1) = true.
Proof.
  apply (proj1 (RemoveFile_outcomes "locked.md"
                  (fixtures.engine fixtures.storeWithLocked 50))).
  reflexivity.
Defined.

Lemma upsertFile_success_witness :
  (@upsertFile stubs threeNotes 10 "a.md" (engine (emptyDB noFailure) 50)).2 = None ∧
  @tracked stubs threeNotes "a.md"
    (@upsertFile stubs threeNotes 10 "a.md" (engine (emptyDB noFailure) 50)).1 ∧
  (@toUpload stubs threeNotes "a.md" (engine (emptyDB noFailure) 50) →
   @stored stubs threeNotes "a.md"
     (@upsertFile stubs threeNotes 10 "a.md" (engine (emptyDB noFailure) 50)).1) ∧
  retryQueue (@upsertFile stubs threeNotes 10 "a.md"
                (engine (emptyDB noFailure) 50)).1
  = retryQueue (engine (emptyDB noFailure) 50).
Proof.
  apply (@upsertFile_success stubs threeNotes 10 "a.md"
           (engine (emptyDB noFailure) 50)).
  - split; [reflexivity|]. eexists _, _. reflexivity.
  - apply threeNotes_encodable.
  - intros call _. reflexivity.
Defined.

Lemma upsertFile_store_failure_witness :
  (@upsertFile stubs threeNotes 10 "b.md" (engine (emptyDB failsOnB) 50)).2
  = Some ErrRemote.
Proof.
  apply (@upsertFile_store_failure stubs threeNotes 10 "b.md"
           (engine (emptyDB failsOnB) 50)).
  - split; [reflexivity|]. eexists _, _. reflexivity.
  - split_and!.
    + exists "sha256:beta". split; reflexivity.
    + intros [Hk _]. vm_compute in Hk. discriminate Hk.
    + apply threeNotes_encodable.
  - intros call Hc. cbn. unfold failsOnB. rewrite Hc. reflexivity.
Defined.

End EngineMoreRuns.

(* ===================================================================== *)
(** * The retry sweep                                                     *)
(* ===================================================================== *)

Section RetryFacts.
Context `{!sync.Externals}.
Import sync.










End RetryFacts.

Section RetryRuns.
Import sync fixtures.


End RetryRuns.

(* ===================================================================== *)
(** * More on the full reconciliation                                     *)
(* ===================================================================== *)

Section ReconcileMore.
Context `{!sync.Externals}.
Import sync.

(** X21.  A failed inventory query aborts [FullReconcile] before anything
    is changed: the run returns an error, the tables, the tracker, the
    retry queue and the state file are as before, and the store has seen
    the queries only. *)
Theorem FullReconcile_aborts_on_failed_query fs now wf disk e :
  db.failing (db e) db.CallGetAllNoteHashes = true ∨
  db.failing (db e) db.CallGetAllAttachmentHashes = true →
  let run := FullReconcile fs now wf disk e in
  (∃ err, run.2 = Fail err) ∧
  run.1.2 = disk ∧
  state_ run.1.1 = state_ e ∧
  retryQueue run.1.1 = retryQueue e ∧
  db.vault_notes (db run.1.1) = db.vault_notes (db e) ∧
  db.vault_attachments (db run.1.1) = db.vault_attachments (db e) ∧
  (db.calls (db run.1.1) = db.calls (db e) ++ [db.CallGetAllNoteHashes] ∨
   db.calls (db run.1.1)
   = db.calls (db e) ++ [db.CallGetAllNoteHashes; db.CallGetAllAttachmentHashes]).
Proof.
  intros Hf. cbn zeta. unfold FullReconcile, db.GetAllNoteHashes.
  destruct (db.failing (db e) db.CallGetAllNoteHashes) eqn:Hn.
  - cbn. split_and!; try done; [by eexists|by left].
  - destruct Hf as [Hf|Hf]; [done|].
    unfold db.GetAllAttachmentHashes. cbn. rewrite Hf. cbn.
    split_and!; try done; [by eexists|right]. by rewrite <- app_assoc.
Qed.

(** A run that returns a report has had its two queries answered. *)
Lemma FullReconcile_Ok fs now wf disk e report :
  (FullReconcile fs now wf disk e).2 = Ok report →
  db.failing (db e) db.CallGetAllNoteHashes = false ∧
  db.failing (db e) db.CallGetAllAttachmentHashes = false.
Proof.
  unfold FullReconcile, db.GetAllNoteHashes.
  destruct (db.failing (db e) db.CallGetAllNoteHashes) eqn:Hn; [done|].
  unfold db.GetAllAttachmentHashes. cbn.
  destruct (db.failing (db e) db.CallGetAllAttachmentHashes) eqn:Ha; [done|].
  done.
Qed.

Lemma walk_listed e skip fs q :
  q ∈ walk e skip fs → ∃ content modTime readable,
    (q, File content modTime readable) ∈ fs.
Proof.
  revert skip. induction fs as [|[p n] fs IH]; intros skip; cbn.
  - by intros ?%elem_of_nil.
  - assert (Hrec : ∀ s, q ∈ walk e s fs → ∃ content modTime readable,
               (q, File content modTime readable) ∈ (p, n) :: fs).
    { intros s (c & mt & r & Hin)%IH. exists c, mt, r.
      apply elem_of_cons. by right. }
    destruct (under skip p); [apply Hrec|].
    destruct n as [|c mt r|]; [destruct (shouldIgnore e p); apply Hrec| |apply Hrec].
    destruct (shouldIgnore e p); [apply Hrec|].
    intros [->|Hin]%elem_of_cons; [|by eapply Hrec].
    exists c, mt, r. apply elem_of_cons. by left.
Qed.

(** X22.  What a completed [FullReconcile] reports.  The sync set is made
    of the files of the walk that can be hashed and whose hash is not the
    one of the inventory; the delete set is made of the paths of the
    inventory that are not a hashable file of the walk, each once; no path
    is in both; and no ignored path is in the sync set. *)
Theorem FullReconcile_report fs now wf disk e report :
  (FullReconcile fs now wf disk e).2 = Ok report →
  (∀ q, q ∈ synced report ↔
        q ∈ localFilesOf e fs ∧
        ∃ h, HashFile fs q = Ok h ∧ inventory e !! q ≠ Some h) ∧
  (∀ q, q ∈ deleted report ↔
        is_Some (inventory e !! q) ∧
        ¬ (q ∈ localFilesOf e fs ∧ ∃ h, HashFile fs q = Ok h)) ∧
  (∀ q, q ∈ synced report → q ∉ deleted report) ∧
  NoDup (deleted report) ∧
  (∀ q, q ∈ synced report → shouldIgnore e q = false).
Proof.
  intros Hrun. destruct (FullReconcile_Ok _ _ _ _ _ _ Hrun) as [Hn Ha].
  destruct (FullReconcile_run fs now wf disk e Hn Ha) as (Hrep & _).
  rewrite Hrep in Hrun. injection Hrun as <-. cbn [synced deleted].
  assert (Hs : ∀ q, q ∈ syncSet fs e ↔
            q ∈ localFilesOf e fs ∧
            ∃ h, HashFile fs q = Ok h ∧ inventory e !! q ≠ Some h).
  { intros q. unfold syncSet. apply scan_toSync. }
  assert (Hd : ∀ q, q ∈ deleteSet fs e ↔
            is_Some (inventory e !! q) ∧
            ¬ (q ∈ localFilesOf e fs ∧ ∃ h, HashFile fs q = Ok h)).
  { intros q. unfold deleteSet. rewrite elem_of_findDeletes.
    split; intros [Hi Hl]; (split; [done|]).
    - intros (Hw & h & Hh).
      assert (localHashesOf fs e !! q = Some h) by by apply scan_hashes.
      congruence.
    - destruct (localHashesOf fs e !! q) as [h|] eqn:Hlh; [|done].
      exfalso. apply Hl. apply scan_hashes in Hlh as [? ?]. eauto. }
  split_and!; [done|done| | |].
  - intros q (Hw & h & Hh & _)%Hs (_ & Hno)%Hd. apply Hno. eauto.
  - unfold deleteSet, findDeletes. apply NoDup_filter.
    apply NoDup_fst_map_to_list.
  - intros q (Hw & _)%Hs. by apply localFilesOf_not_ignored in Hw.
Qed.

(** The statements of the loop over the sync set, and the state file it
    leaves alone. *)
Lemma syncStep_calls fs now e q content modTime :
  lookupNode fs q = Some (File content modTime true) →
  shouldIgnore e q = false →
  filePath (state_ (syncStep fs now e q)) = filePath (state_ e) ∧
  (db.calls (db (syncStep fs now e q)) = db.calls (db e) ∨
   ∃ call, db.upsertPath call = Some q ∧
           db.calls (db (syncStep fs now e q)) = db.calls (db e) ++ [call]).
Proof.
  intros Hl Hi.
  destruct (syncStep_file fs now e q _ _ Hl Hi)
    as [(_ & ->)
       |[(_ & _ & _ & ->)
        |[(call & _ & _ & Hpath & _ & ->)
         |[(call & _ & Hpath & _ & [(_ & ->)|(_ & _ & ->)])
          |(_ & _ & _ & ->)]]]];
    cbn; eauto.
Qed.

Lemma syncAll_calls fs now l : ∀ e,
  Forall (regular fs e) l →
  filePath (state_ (syncAll fs now l e)) = filePath (state_ e) ∧
  ∃ upserts,
    db.calls (db (syncAll fs now l e)) = db.calls (db e) ++ upserts ∧
    (length upserts ≤ length l)%nat ∧
    ∀ c, c ∈ upserts → ∃ q, q ∈ l ∧ db.upsertPath c = Some q.
Proof.
  induction l as [|x l IH]; intros e Hreg.
  - split; [done|]. exists []. cbn. rewrite app_nil_r.
    split_and!; [done|done|]. by intros c ?%elem_of_nil.
  - rewrite syncAll_cons. apply Forall_cons in Hreg as [Hx Hreg].
    pose proof Hx as (Hi & c & mt & Hl).
    pose proof (syncStep_setup fs now _ _ _ _ Hl Hi) as Hs.
    assert (Hreg' : Forall (regular fs (syncStep fs now e x)) l)
      by (eapply Forall_impl; [exact Hreg|intros ?; by apply regular_setup]).
    destruct (IH _ Hreg') as (Hfp & ups & Hcalls & Hlen & Hups).
    destruct (syncStep_calls fs now e x c mt Hl Hi) as (Hfp0 & Hstep).
    split; [congruence|].
    destruct Hstep as [Hsame|(call & Hpath & Hone)].
    + exists ups. rewrite Hcalls, Hsame. split_and!; [done|cbn; lia|].
      intros c0 (q & Hq & Hc0)%Hups. exists q. split; [|done].
      apply elem_of_cons. by right.
    + exists (call :: ups). rewrite Hcalls, Hone, <- app_assoc.
      split_and!; [done|cbn; lia|].
      intros c0 [->|Hc0]%elem_of_cons.
      * exists x. split; [|done]. apply elem_of_cons. by left.
      * destruct (Hups c0 Hc0) as (q & Hq & Hp). exists q. split; [|done].
        apply elem_of_cons. by right.
Qed.

Lemma deleteRemoved_calls toDelete e :
  filePath (state_ (deleteRemoved toDelete e)) = filePath (state_ e) ∧
  db.calls (db (deleteRemoved toDelete e)) =
    db.calls (db e)
    ++ match filter (λ p, isNote p = true) toDelete with
       | [] => []
       | paths => [db.CallBatchDeleteNotes paths]
       end
    ++ match filter (λ p, isNote p ≠ true) toDelete with
       | [] => []
       | paths => [db.CallBatchDeleteAttachments paths]
       end.
Proof.
  destruct toDelete as [|x l]; [cbn; by rewrite app_nil_r|].
  unfold deleteRemoved. cbn [state_ db with_db with_tracker].
  rewrite removeAll_setup. split; [done|].
  set (notes := filter (λ p, isNote p = true) (x :: l)).
  set (atts := filter (λ p, isNote p ≠ true) (x :: l)).
  destruct notes as [|n ns], atts as [|a ats]; cbn;
    unfold db.Exec; cbn;
    repeat (match goal with
            | |- context [db.failing ?d ?c] => destruct (db.failing d c)
            end; cbn);
    rewrite <- ?app_assoc, ?app_nil_r; done.
Qed.

(** X23.  The statements of one completed [FullReconcile], in their
    order: the two inventory queries; then upserts, each for a path of the
    sync set and no more of them than the sync set has entries; then the
    batch delete of the notes of the delete set, if there are any, and the
    batch delete of its attachments, if there are any.  Nothing is deleted
    row by row, and nothing is sent for a path outside the two sets. *)
Theorem FullReconcile_statements fs now wf disk e :
  db.failing (db e) db.CallGetAllNoteHashes = false →
  db.failing (db e) db.CallGetAllAttachmentHashes = false →
  ∃ upserts,
    db.calls (db (FullReconcile fs now wf disk e).1.1) =
      db.calls (db e)
      ++ [db.CallGetAllNoteHashes; db.CallGetAllAttachmentHashes]
      ++ upserts
      ++ match filter (λ p, isNote p = true) (deleteSet fs e) with
         | [] => []
         | paths => [db.CallBatchDeleteNotes paths]
         end
      ++ match filter (λ p, isNote p ≠ true) (deleteSet fs e) with
         | [] => []
         | paths => [db.CallBatchDeleteAttachments paths]
         end ∧
    (length upserts ≤ length (syncSet fs e))%nat ∧
    ∀ c, c ∈ upserts → ∃ q, q ∈ syncSet fs e ∧ db.upsertPath c = Some q.
Proof.
  intros Hn Ha.
  destruct (FullReconcile_run fs now wf disk e Hn Ha) as (_ & -> & _).
  unfold reconciled.
  destruct (deleteRemoved_calls (deleteSet fs e)
              (syncAll fs now (syncSet fs e) (queried e))) as (_ & ->).
  destruct (syncAll_calls fs now (syncSet fs e) (queried e)
              (syncSet_regular fs e)) as (_ & ups & -> & Hlen & Hups).
  exists ups. split_and!; [|done|done].
  cbn. by rewrite <- !app_assoc.
Qed.

(** X24.  A file whose hash is the one the store already holds is left
    alone by [FullReconcile]: it is in neither set of the report, its rows
    and its retry entry are as before, and so is its entry in the tracker;
    a file the tracker did not know stays unknown to it. *)
Theorem FullReconcile_leaves_matching_file fs now wf disk e q h :
  db.failing (db e) db.CallGetAllNoteHashes = false →
  db.failing (db e) db.CallGetAllAttachmentHashes = false →
  q ∈ localFilesOf e fs →
  HashFile fs q = Ok h →
  inventory e !! q = Some h →
  let run := FullReconcile fs now wf disk e in
  (∃ report, run.2 = Ok report ∧ (q ∉ synced report) ∧ (q ∉ deleted report)) ∧
  db.vault_notes (db run.1.1) !! q = db.vault_notes (db e) !! q ∧
  db.vault_attachments (db run.1.1) !! q = db.vault_attachments (db e) !! q ∧
  GetFileState q (state_ run.1.1) = GetFileState q (state_ e) ∧
  retryQueue run.1.1 !! q = retryQueue e !! q.
Proof.
  intros Hn Ha Hw Hh Hinv. cbn zeta.
  destruct (FullReconcile_run fs now wf disk e Hn Ha)
    as (Hrep & Hdb & Hrq & _ & _ & Hst).
  assert (Hlh : localHashesOf fs e !! q = Some h) by by apply scan_hashes.
  assert (Hns : q ∉ syncSet fs e).
  { intros (_ & h' & Hh' & Hne)%scan_toSync. congruence. }
  assert (Hnd : q ∉ deleteSet fs e).
  { intros ?%deleteSet_not_hashed. congruence. }
  destruct (deleteRemoved_hashed fs now e q h Hlh) as (Dt & Dn & Da).
  destruct (syncAll_other fs now (syncSet fs e) (queried e) q
              (syncSet_regular fs e) Hns) as (St & Sn & Sa & Sr).
  split_and!.
  - eexists. split; [exact Hrep|]. done.
  - by rewrite Hdb, Dn, Sn.
  - by rewrite Hdb, Da, Sa.
  - by rewrite Hst, Dt, St.
  - rewrite Hrq. unfold reconciled.
    destruct (deleteRemoved_setup (deleteSet fs e)
                (syncAll fs now (syncSet fs e) (queried e))) as (_ & ->).
    by rewrite Sr.
Qed.

Lemma reconciled_filePath fs now e :
  filePath (state_ (reconciled fs now e)) = filePath (state_ e).
Proof.
  unfold reconciled.
  destruct (deleteRemoved_calls (deleteSet fs e)
              (syncAll fs now (syncSet fs e) (queried e))) as (-> & _).
  by destruct (syncAll_calls fs now (syncSet fs e) (queried e)
                 (syncSet_regular fs e)) as (-> & _).
Qed.

(** [Save] on a tracker with unsaved changes. *)
Lemma Save_dirty wf disk st :
  dirty st = true →
  filePath (Save wf disk st).1.1 = filePath st ∧
  (∀ data, jsonMarshalIndent (state st) = Some data →
     (wf = Completes →
      (Save wf disk st).1.2 = <[filePath st := data]> disk ∧
      dirty (Save wf disk st).1.1 = false) ∧
     (wf = OpenFails →
      (Save wf disk st).1.2 = disk ∧ dirty (Save wf disk st).1.1 = true)) ∧
  (jsonMarshalIndent (state st) = None →
   (Save wf disk st).1.2 = disk ∧ dirty (Save wf disk st).1.1 = true).
Proof.
  intros Hd. unfold Save. rewrite Hd. cbn [negb].
  destruct (jsonMarshalIndent (state st)) as [data|].
  - split_and!; [by destruct wf| |done].
    intros ? [= <-]. split; intros ->; done.
  - split_and!; done.
Qed.

(** X25.  How a completed [FullReconcile] ends.  The tracker carries the
    instant of the run as the last full sync, and its state file is the
    one it had.  When the write of the state file completes, the file
    holds the encoding of the state the engine is left with and the
    tracker is clean.  When the state cannot be encoded or the file cannot
    be opened, the run still reports success, the file is as before and
    the tracker stays dirty, so a later [SaveState] writes it. *)
Theorem FullReconcile_saves fs now wf disk e :
  db.failing (db e) db.CallGetAllNoteHashes = false →
  db.failing (db e) db.CallGetAllAttachmentHashes = false →
  let run := FullReconcile fs now wf disk e in
  let st' := state_ run.1.1 in
  (∃ report, run.2 = Ok report) ∧
  GetLastFullSync st' = Some now ∧
  filePath st' = filePath (state_ e) ∧
  (∀ data, jsonMarshalIndent (state st') = Some data →
     (wf = Completes →
      run.1.2 = <[filePath (state_ e) := data]> disk ∧ dirty st' = false) ∧
     (wf = OpenFails → run.1.2 = disk ∧ dirty st' = true)) ∧
  (jsonMarshalIndent (state st') = None → run.1.2 = disk ∧ dirty st' = true).
Proof.
  intros Hn Ha. cbn zeta.
  rewrite (FullReconcile_eq fs now wf disk e Hn Ha).
  cbn [fst snd state_ with_tracker].
  pose proof (reconciled_filePath fs now e) as Hfp.
  pose proof (Save_state wf disk
                (SetLastFullSync now (state_ (reconciled fs now e)))) as Hst.
  destruct (Save_dirty wf disk
              (SetLastFullSync now (state_ (reconciled fs now e))) eq_refl)
    as (Hp & Hsome & Hnone).
  change (filePath (SetLastFullSync now (state_ (reconciled fs now e))))
    with (filePath (state_ (reconciled fs now e))) in Hp, Hsome.
  rewrite Hfp in Hp, Hsome.
  split_and!.
  - by eexists.
  - unfold GetLastFullSync. by rewrite Hst.
  - done.
  - intros data. rewrite Hst. apply Hsome.
  - rewrite Hst. apply Hnone.
Qed.

End ReconcileMore.

Section ReconcileMoreRuns.
Import sync fixtures.

Lemma FullReconcile_aborts_on_failed_query_witness :
  (@FullReconcile stubs threeNotes 10 Completes ∅
     (engine (emptyDB failsNoteQuery) 50)).1.2 = ∅ ∧
  state_ (@FullReconcile stubs threeNotes 10 Completes ∅
            (engine (emptyDB failsNoteQuery) 50)).1.1
  = state_ (engine (emptyDB failsNoteQuery) 50).
Proof.
  destruct (@FullReconcile_aborts_on_failed_query stubs threeNotes 10 Completes ∅
              (engine (emptyDB failsNoteQuery) 50))
    as (_ & Hdisk & Hst & _).
  - left. reflexivity.
  - split; [exact Hdisk|exact Hst].
Defined.

Lemma FullReconcile_report_witness :
  NoDup (@deleteSet stubs threeNotes (engine storeWithLocked 50)) ∧
  ∀ q, q ∈ @syncSet stubs threeNotes (engine storeWithLocked 50) →
       q ∉ @deleteSet stubs threeNotes (engine storeWithLocked 50).
Proof.
  destruct (@FullReconcile_report stubs threeNotes 10 Completes ∅
              (engine storeWithLocked 50)
              {| synced := @syncSet stubs threeNotes (engine storeWithLocked 50);
                 deleted := @deleteSet stubs threeNotes
                              (engine storeWithLocked 50) |})
    as (_ & _ & Hdisj & Hnd & _).
  - apply FullReconcile_run; reflexivity.
  - split; [exact Hnd|exact Hdisj].
Defined.

Lemma FullReconcile_statements_witness :
  ∃ upserts,
    db.calls (db (@FullReconcile stubs threeNotes 10 Completes ∅
                    (engine storeWithLocked 50)).1.1) =
      db.calls (db (engine storeWithLocked 50))
      ++ [db.CallGetAllNoteHashes; db.CallGetAllAttachmentHashes]
      ++ upserts
      ++ match filter (λ p, isNote p = true)
                 (@deleteSet stubs threeNotes (engine storeWithLocked 50)) with
         | [] => []
         | paths => [db.CallBatchDeleteNotes paths]
         end
      ++ match filter (λ p, isNote p ≠ true)
                 (@deleteSet stubs threeNotes (engine storeWithLocked 50)) with
         | [] => []
         | paths => [db.CallBatchDeleteAttachments paths]
         end ∧
    (length upserts
     ≤ length (@syncSet stubs threeNotes (engine storeWithLocked 50)))%nat ∧
    ∀ c, c ∈ upserts →
         ∃ q, q ∈ @syncSet stubs threeNotes (engine storeWithLocked 50) ∧
              db.upsertPath c = Some q.
Proof.
  apply (@FullReconcile_statements stubs threeNotes 10 Completes ∅
           (engine storeWithLocked 50)); reflexivity.
Defined.

Lemma FullReconcile_leaves_matching_file_witness :
  db.vault_notes
    (db (@FullReconcile stubs threeNotes 10 Completes ∅
           (engine storeWithAlpha 50)).1.1) !! "a.md"
  = db.vault_notes (db (engine storeWithAlpha 50)) !! "a.md" ∧
  GetFileState "a.md"
    (state_ (@FullReconcile stubs threeNotes 10 Completes ∅
               (engine storeWithAlpha 50)).1.1)
  = GetFileState "a.md" (state_ (engine storeWithAlpha 50)).
Proof.
  destruct (@FullReconcile_leaves_matching_file stubs threeNotes 10 Completes ∅
              (engine storeWithAlpha 50) "a.md" "sha256:alpha")
    as (_ & Hrow & _ & Htracker & _); try reflexivity.
  - apply elem_of_cons. left. reflexivity.
  - split; [exact Hrow|exact Htracker].
Defined.

Lemma FullReconcile_saves_witness :
  GetLastFullSync
    (state_ (@FullReconcile stubs threeNotes 10 OpenFails ∅
               (engine (emptyDB noFailure) 50)).1.1) = Some 10 ∧
  filePath
    (state_ (@FullReconcile stubs threeNotes 10 OpenFails ∅
               (engine (emptyDB noFailure) 50)).1.1) = stateFile.
Proof.
  destruct (@FullReconcile_saves stubs threeNotes 10 OpenFails ∅
              (engine (emptyDB noFailure) 50))
    as (_ & Hlast & Hfile & _); [reflexivity|reflexivity|].
  split; [exact Hlast|exact Hfile].
Defined.

End ReconcileMoreRuns.

(* ===================================================================== *)
(** * The walk, the start of the engine, and convergence                  *)
(* ===================================================================== *)

Section WalkFacts.
Context `{!sync.Externals}.
Import sync.

Lemma walk_skipping e dir below rest :
  Forall (λ entry : string * Node, under (Some dir) entry.1 = true) below →
  walk e (Some dir) (below ++ rest) = walk e (Some dir) rest.
Proof.
  induction 1 as [|[p n] below Hp _ IH]; [done|].
  cbn [app walk]. cbn [fst] in Hp. by rewrite Hp.
Qed.

(** X26.  The walk does not enter a directory that the patterns exclude:
    whatever is listed below it, files that no pattern matches included,
    is passed over, and the walk goes on after it. *)
Theorem walk_skips_ignored_directory e skip dir below rest :
  under skip dir = false →
  shouldIgnore e dir = true →
  Forall (λ entry : string * Node, under (Some dir) entry.1 = true) below →
  walk e skip ((dir, Dir) :: below ++ rest) = walk e (Some dir) rest.
Proof.
  intros Hu Hi Hbelow. cbn [walk]. rewrite Hu, Hi.
  by apply walk_skipping.
Qed.

Lemma walk_complete e fs :
  (∀ dir, (dir, Dir) ∈ fs → shouldIgnore e dir = false) →
  ∀ q content modTime readable,
    (q, File content modTime readable) ∈ fs →
    shouldIgnore e q = false →
    q ∈ walk e None fs.
Proof.
  induction fs as [|[p n] fs IH]; intros Hdirs q c mt r Hin Hi.
  - by apply elem_of_nil in Hin.
  - assert (Hdirs' : ∀ dir, (dir, Dir) ∈ fs → shouldIgnore e dir = false).
    { intros dir Hd. apply Hdirs. apply elem_of_cons. by right. }
    cbn [walk under].
    apply elem_of_cons in Hin as [Heq|Hin].
    + injection Heq as <- <-. rewrite Hi. apply elem_of_cons. by left.
    + pose proof (IH Hdirs' q c mt r Hin Hi) as Hrec.
      destruct n as [|c' mt' r'|]; [|destruct (shouldIgnore e p)|]; try done.
      * rewrite (Hdirs p); [done|]. apply elem_of_cons. by left.
      * apply elem_of_cons. by right.
Qed.

(** X27.  The local files of a run.  A listed path is a file of the vault
    that the patterns do not exclude, and the root is not excluded
    either; and when neither the root nor any directory is excluded, every
    file that the patterns do not exclude is listed, readable or not. *)
Theorem localFilesOf_lists e fs q :
  (q ∈ localFilesOf e fs →
   shouldIgnore e "." = false ∧ shouldIgnore e q = false ∧
   ∃ content modTime readable, (q, File content modTime readable) ∈ fs) ∧
  (shouldIgnore e "." = false →
   (∀ dir, (dir, Dir) ∈ fs → shouldIgnore e dir = false) →
   shouldIgnore e q = false →
   (∃ content modTime readable, (q, File content modTime readable) ∈ fs) →
   q ∈ localFilesOf e fs).
Proof.
  split.
  - intros Hin. pose proof (localFilesOf_not_ignored e fs q Hin) as Hi.
    unfold localFilesOf in Hin.
    destruct (shouldIgnore e "."); [by apply elem_of_nil in Hin|].
    split_and!; [done|done|]. by apply (walk_listed e None).
  - intros Hroot Hdirs Hi (c & mt & r & Hin). unfold localFilesOf.
    rewrite Hroot. by apply (walk_complete e fs Hdirs q c mt r).
Qed.

(** X28.  [NewEngine] fails only when the state tracker cannot be made,
    that is when the state directory cannot be had.  The engine it returns
    holds the store and the configuration it was given, the tracker of the
    configured vault, and an empty retry queue; its size limit is an
    [int64], and is the configured number of megabytes times 1024 * 1024
    as long as that does not overflow. *)
Theorem NewEngine_outcomes database cfg disk :
  (GetStateDir = None →
   NewEngine database cfg disk
   = Fail (Wrap "failed to create state tracker"
             (Wrap "failed to create state directory" ErrIO))) ∧
  (is_Some GetStateDir → ∃ e, NewEngine database cfg disk = Ok e) ∧
  (∀ e, NewEngine database cfg disk = Ok e →
     db e = database ∧ config e = cfg ∧ retryQueue e = ∅ ∧
     GetPendingRetries e = 0 ∧
     NewStateTracker (config.VaultPath cfg) disk = Ok (state_ e) ∧
     VaultPath (state (state_ e)) = config.VaultPath cfg ∧
     -2 ^ 63 <= maxBinarySize e < 2 ^ 63 ∧
     (-2 ^ 43 <= config.MaxBinarySizeMB (config.Sync cfg) < 2 ^ 43 →
      maxBinarySize e
      = config.MaxBinarySizeMB (config.Sync cfg) * 1024 * 1024)).
Proof.
  unfold NewEngine. split_and!.
  - intros Hd. unfold NewStateTracker. by rewrite Hd.
  - intros [dir Hd]. unfold NewStateTracker. rewrite Hd. by eexists.
  - intros e.
    destruct (NewStateTracker (config.VaultPath cfg) disk) as [st|err] eqn:Hst;
      [|done].
    intros [= <-]. cbn.
    split_and!; try done.
    + by apply (NewStateTracker_root _ disk).
    + apply wrap64_range.
    + apply wrap64_range.
    + intros Hmb.
      rewrite (wrap64_id (config.MaxBinarySizeMB (config.Sync cfg) * 1024))
        by lia.
      apply wrap64_id. lia.
Qed.

End WalkFacts.

Section ConvergenceFacts.
Context `{!sync.Externals}.
Import sync.

Lemma reconciled_sorted fs now e :
  db.sorted isNote (db e) → db.sorted isNote (db (reconciled fs now e)).
Proof.
  intros [Hsn Hsa].
  split; intros q row Hrow.
  - destruct (deleteRemoved_rows (deleteSet fs e)
                (syncAll fs now (syncSet fs e) (queried e)) q) as [Rn _].
    fold (reconciled fs now e) in Rn.
    destruct Rn as [Rn|(_ & _ & Rn)]; [|congruence].
    destruct (syncAll_rows fs now (syncSet fs e) (queried e) q
                (syncSet_regular fs e)) as [[Sn|(_ & Hk & _)] _]; [|done].
    apply (Hsn q row). rewrite <- Hrow, Rn, Sn. done.
  - destruct (deleteRemoved_rows (deleteSet fs e)
                (syncAll fs now (syncSet fs e) (queried e)) q) as [_ Ra].
    fold (reconciled fs now e) in Ra.
    destruct Ra as [Ra|(_ & _ & Ra)]; [|congruence].
    destruct (syncAll_rows fs now (syncSet fs e) (queried e) q
                (syncSet_regular fs e)) as [_ [Sa|(_ & Hk & _)]]; [|done].
    apply (Hsa q row). rewrite <- Hrow, Ra, Sa. done.
Qed.

(** After a run in which the store fails nothing and every path of the
    sync set reaches its upsert, the inventory is the map of the local
    hashes. *)
Lemma reconciled_mirror fs now e :
  (∀ call, db.failing (db e) call = false) →
  db.sorted isNote (db e) →
  (∀ q, q ∈ syncSet fs e → toUpload fs q e) →
  ∀ q, inventory (reconciled fs now e) !! q = localHashesOf fs e !! q.
Proof.
  intros Hnf Hsorted Hup q.
  destruct (localHashesOf fs e !! q) as [h|] eqn:Hlh.
  - pose proof Hlh as [Hwalk Hh]%scan_hashes.
    destruct (decide (q ∈ syncSet fs e)) as [Hin|Hnin].
    + destruct (reconciled_ok fs now e q Hin) as [_ Hst];
        [apply (Hup q Hin)|intros call _; apply Hnf|].
      specialize (Hst (Hup q Hin)).
      destruct (reconciled_sorted fs now e Hsorted) as [_ Hsa].
      rewrite lookup_inventory. unfold stored in Hst.
      destruct (isNote q) eqn:Hk.
      * destruct Hst as (note & Hrow & Hnh).
        destruct (db.vault_attachments (db (reconciled fs now e)) !! q)
          as [att|] eqn:Ea.
        { specialize (Hsa q att Ea). congruence. }
        rewrite Hrow. cbn. congruence.
      * destruct Hst as (att & Hrow & Hah). rewrite Hrow. congruence.
    + assert (Hinv : inventory e !! q = Some h).
      { destruct (decide (inventory e !! q = Some h)) as [|Hne]; [done|].
        exfalso. apply Hnin. apply scan_toSync. eauto. }
      destruct (deleteRemoved_hashed fs now e q h Hlh) as (_ & Hn & Ha).
      destruct (syncAll_other fs now (syncSet fs e) (queried e) q
                  (syncSet_regular fs e) Hnin) as (_ & Hn' & Ha' & _).
      rewrite lookup_inventory, Hn, Ha, Hn', Ha'.
      by rewrite lookup_inventory in Hinv.
  - destruct (inventory (reconciled fs now e) !! q) as [h|] eqn:Hinv; [|done].
    destruct (reconciled_no_stray fs now e Hnf Hsorted q) as [h' Hh'];
      [by eexists|]. congruence.
Qed.

(** X29.  One good run brings the store level with the vault.  When the
    store fails nothing, holds every row in the table of its kind, and
    every path of the sync set reaches its upsert (none is held back by
    the tracker or by the size limit), then after [FullReconcile] the
    inventory of the store is exactly the hashable files of the walk with
    their hashes, and a second run would find both its sets empty. *)
Theorem FullReconcile_converges fs now wf disk e :
  (∀ call, db.failing (db e) call = false) →
  db.sorted isNote (db e) →
  (∀ q, q ∈ syncSet fs e → toUpload fs q e) →
  let e1 := (FullReconcile fs now wf disk e).1.1 in
  (∀ q h, inventory e1 !! q = Some h ↔
          q ∈ localFilesOf e fs ∧ HashFile fs q = Ok h) ∧
  syncSet fs e1 = [] ∧
  deleteSet fs e1 = [].
Proof.
  intros Hnf Hsorted Hup. cbn zeta.
  destruct (FullReconcile_run fs now wf disk e (Hnf _) (Hnf _))
    as (_ & Hdb & _ & Hcfg & _ & _).
  destruct (reconciled_setup fs now e) as (Hcfg' & _).
  rewrite Hcfg' in Hcfg.
  set (e1 := (FullReconcile fs now wf disk e).1.1) in *.
  assert (Hinv : ∀ q, inventory e1 !! q = localHashesOf fs e !! q).
  { intros q. unfold inventory. rewrite Hdb.
    by apply (reconciled_mirror fs now e). }
  pose proof (localHashesOf_setup fs e e1 Hcfg) as Hlh.
  split_and!.
  - intros q h. rewrite Hinv. apply scan_hashes.
  - apply elem_of_nil_inv. intros q (Hw & h & Hh & Hne)%scan_toSync.
    apply Hne. rewrite Hinv. apply scan_hashes. split; [|done].
    by rewrite <- (localFilesOf_setup e e1 fs Hcfg).
  - apply elem_of_nil_inv. intros q [Hsome Hnone]%elem_of_findDeletes.
    rewrite Hlh, <- Hinv in Hnone. rewrite Hnone in Hsome. by destruct Hsome.
Qed.

End ConvergenceFacts.

Section ConvergenceRuns.
Import sync fixtures.

Lemma walk_skips_ignored_directory_witness :
  @walk stubs settingsEngine None vaultWithSettings = ["a.md"].
Proof.
  change vaultWithSettings
    with ((".obsidian", Dir)
          :: [(".obsidian/app.json", File "{}" 1 true); (".obsidian/plugins", Dir)]
          ++ [("a.md", File "alpha" 1 true)]).
  rewrite (@walk_skips_ignored_directory stubs settingsEngine None ".obsidian"
             [(".obsidian/app.json", File "{}" 1 true); (".obsidian/plugins", Dir)]
             [("a.md", File "alpha" 1 true)]).
  - reflexivity.
  - reflexivity.
  - reflexivity.
  - repeat constructor.
Defined.

Lemma FullReconcile_converges_witness :
  @syncSet stubs threeNotes
    (@FullReconcile stubs threeNotes 10 Completes ∅
       (engine (emptyDB noFailure) 50)).1.1 = [] ∧
  @deleteSet stubs threeNotes
    (@FullReconcile stubs threeNotes 10 Completes ∅
       (engine (emptyDB noFailure) 50)).1.1 = [].
Proof.
  assert (Hset : @syncSet stubs threeNotes (engine (emptyDB noFailure) 50)
                 = ["a.md"; "b.md"; "c.md"]) by (vm_compute; reflexivity).
  destruct (@FullReconcile_converges stubs threeNotes 10 Completes ∅
              (engine (emptyDB noFailure) 50)) as (_ & Hs & Hd).
  - intros call. reflexivity.
  - split; intros q row Hrow; cbn in Hrow; rewrite lookup_empty in Hrow;
      discriminate Hrow.
  - intros q Hq. rewrite Hset in Hq.
    repeat (apply elem_of_cons in Hq as [->|Hq]);
      [| | |by apply elem_of_nil in Hq];
      (split_and!; [eexists; split; reflexivity
                   |intros [Hk _]; vm_compute in Hk; discriminate Hk
                   |apply threeNotes_encodable]).
  - split; [exact Hs|exact Hd].
Defined.

End ConvergenceRuns.

Section StartRuns.
Import sync fixtures.

Lemma NewStateTracker_fresh_witness :
  @NewStateTracker stubs "/vault" ∅
  = Ok {| state := emptyState "/vault"; filePath := stateFile; dirty := false |}.
Proof.
  apply (proj2 (proj2 (@NewStateTracker_fresh stubs "/vault" ∅) "/cfg" eq_refl)).
  left. reflexivity.
Defined.


Lemma localFilesOf_lists_witness :
  "b.md" ∈ @localFilesOf stubs (engine (emptyDB noFailure) 50) threeNotes.
Proof.
  apply (proj2 (@localFilesOf_lists stubs (engine (emptyDB noFailure) 50)
                  threeNotes "b.md")).
  - reflexivity.
  - intros dir Hdir. exfalso.
    repeat (apply elem_of_cons in Hdir as [Hdir|Hdir]; [discriminate Hdir|]).
    by apply elem_of_nil in Hdir.
  - reflexivity.
  - exists "beta", 2, true. apply elem_of_cons. right.
    apply elem_of_cons. left. reflexivity.
Defined.

Lemma NewEngine_outcomes_witness :
  maxBinarySize (engine (emptyDB noFailure) 50) = 50 * 1024 * 1024 ∧
  retryQueue (engine (emptyDB noFailure) 50) = ∅.
Proof.
  destruct (proj2 (proj2 (@NewEngine_outcomes stubs (emptyDB noFailure) (cfg 50) ∅))
              (engine (emptyDB noFailure) 50))
    as (_ & _ & Hq & _ & _ & _ & _ & Hsize).
  - vm_compute. reflexivity.
  - split; [|exact Hq]. apply Hsize. cbn. lia.
Defined.

End StartRuns.

(* ===================================================================== *)
(** * Events in sequence                                                  *)
(* ===================================================================== *)

Section SequenceFacts.
Context `{!sync.Externals}.
Import sync.

(** What [RemoveFile] leaves when the store executes the delete. *)
Lemma RemoveFile_done p e :
  db.failing (db e) (removeCall p) = false →
  (RemoveFile p e).2 = None ∧
  retryQueue (RemoveFile p e).1 = retryQueue e ∧
  Files (state (state_ (RemoveFile p e).1)) = delete p (Files (state (state_ e))) ∧
  db.vault_notes (db (RemoveFile p e).1)
    = (if isNote p then delete p (db.vault_notes (db e))
       else db.vault_notes (db e)) ∧
  db.vault_attachments (db (RemoveFile p e).1)
    = (if isNote p then db.vault_attachments (db e)
       else delete p (db.vault_attachments (db e))).
Proof.
  unfold RemoveFile, removeCall, db.DeleteNote, db.DeleteAttachment, db.Exec.
  destruct (isNote p); intros ->; cbn; done.
Qed.

(** X30.  A file created (or modified) and then deleted leaves no trace.
    With a store that fails nothing, [SyncFile] for a create or modify
    event followed by [SyncFile] for a delete event of the same path
    returns [nil] and leaves the path without a row in the table of its
    kind and without an entry in the tracker, whatever the file was and
    whether or not the first call sent anything; the other table, the
    retry queue, and the rows and tracked states of all other paths are
    as they were before the two calls. *)
Theorem SyncFile_create_then_delete fs fs' now now' p ty e :
  ty = watcher.EventCreate ∨ ty = watcher.EventModify →
  (∀ call, db.failing (db e) call = false) →
  let e1 := (SyncFile fs now p ty e).1 in
  let run := SyncFile fs' now' p watcher.EventDelete e1 in
  run.2 = None ∧
  GetFileState p (state_ run.1) = None ∧
  db.vault_notes (db run.1) !! p
    = (if isNote p then None else db.vault_notes (db e) !! p) ∧
  db.vault_attachments (db run.1) !! p
    = (if isNote p then db.vault_attachments (db e) !! p else None) ∧
  retryQueue run.1 = retryQueue e ∧
  ∀ q, q ≠ p →
    GetFileState q (state_ run.1) = GetFileState q (state_ e) ∧
    db.vault_notes (db run.1) !! q = db.vault_notes (db e) !! q ∧
    db.vault_attachments (db run.1) !! q = db.vault_attachments (db e) !! q.
Proof.
  intros Hty Hnf. cbn zeta.
  assert (Hup : SyncFile fs now p ty e = upsertFile fs now p e)
    by (by destruct Hty as [-> | ->]).
  rewrite Hup. change (SyncFile fs' now' p watcher.EventDelete ?x)
    with (RemoveFile p x).
  set (e1 := (upsertFile fs now p e).1).
  assert (He1 :
    db.failing (db e1) = db.failing (db e) ∧ retryQueue e1 = retryQueue e ∧
    (isNote p = true → db.vault_attachments (db e1) = db.vault_attachments (db e)) ∧
    (isNote p = false → db.vault_notes (db e1) = db.vault_notes (db e)) ∧
    ∀ q, q ≠ p →
      Files (state (state_ e1)) !! q = Files (state (state_ e)) !! q ∧
      db.vault_notes (db e1) !! q = db.vault_notes (db e) !! q ∧
      db.vault_attachments (db e1) !! q = db.vault_attachments (db e) !! q).
  { subst e1. destruct (regular_dec fs e p) as [(Hi & c & mt & Hl)|Hn];
      [|by rewrite (upsertFile_not_regular fs now p e Hn)].
    rewrite (upsertFile_file fs now p e c mt Hl Hi). cbn zeta.
    destruct (negb _); [done|].
    destruct (isNote p).
    - destruct (jsonMarshal _); [|done].
      rewrite Hnf. cbn. split_and!; try done.
      intros q Hq. by rewrite !lookup_insert_ne by done.
    - destruct (_ <? _); cbn.
      + split_and!; try done. intros q Hq. by rewrite lookup_insert_ne by done.
      + rewrite Hnf. cbn. split_and!; try done.
        intros q Hq. by rewrite !lookup_insert_ne by done. }
  destruct He1 as (Hf & Hrq & Hatt & Hnotes & Hother).
  destruct (RemoveFile_done p e1) as (Hnil & Hrq' & Hfiles & Hn & Ha);
    [by rewrite Hf|].
  unfold GetFileState. rewrite Hnil, Hrq', Hfiles, Hn, Ha.
  split_and!; [done|apply lookup_delete_eq| | |done|].
  - destruct (isNote p) eqn:Hk; [apply lookup_delete_eq|by rewrite Hnotes].
  - destruct (isNote p) eqn:Hk; [by rewrite Hatt|apply lookup_delete_eq].
  - intros q Hq. destruct (Hother q Hq) as (Ht & Hqn & Hqa).
    rewrite lookup_delete_ne by done.
    destruct (isNote p); rewrite ?lookup_delete_ne by done; done.
Qed.

End SequenceFacts.

Section SequenceRuns.
Import sync fixtures.

Lemma SyncFile_create_then_delete_witness :
  (@SyncFile stubs [] 20 "a.md" watcher.EventDelete
     (@SyncFile stubs threeNotes 10 "a.md" watcher.EventCreate
        (engine (emptyDB noFailure) 50)).1).2 = None ∧
  GetFileState "a.md"
    (state_ (@SyncFile stubs [] 20 "a.md" watcher.EventDelete
               (@SyncFile stubs threeNotes 10 "a.md" watcher.EventCreate
                  (engine (emptyDB noFailure) 50)).1).1) = None.
Proof.
  destruct (@SyncFile_create_then_delete stubs threeNotes [] 10 20 "a.md"
              watcher.EventCreate (engine (emptyDB noFailure) 50))
    as (Hnil & Hgone & _).
  - left. reflexivity.
  - intros call. reflexivity.
  - split; [exact Hnil|exact Hgone].
Defined.

End SequenceRuns.
